(** * idstools.unified2: a shallow embedding and its properties

    The development follows [src/idstools/unified2.py]: the field tables
    and decoders, the [Aggregator], [read_record] and the record readers
    over one file, a list of files and a spool directory.

    Python objects are modelled as follows.
    - [bytes] is [list byte]; an [int] is a [Z].
    - A [dict] is a [gmap string value]; the classes [Event], [Packet] and
      [ExtraData] subclass [dict] and are told apart by [isinstance], so a
      record is a tag over its dictionary.
    - Exceptions are the [Raise] case of [result]; mutable objects are
      passed in and returned (the state after a raise is returned too,
      since Python does not undo mutations).
    - A file object is its name, contents, position and closed flag. *)

From stdpp Require Import gmap strings list fin_maps sorting.
From Stdlib Require Import ZArith Ascii.
From Stdlib.Strings Require Import Byte.

#[local] Set Warnings "-clear-no-such-hyp".

Local Open Scope string_scope.
Local Open Scope list_scope.
Local Open Scope Z_scope.

(* ===================================================================== *)
(** * Definitions *)
(* ===================================================================== *)

(** ** Exceptions *)

Inductive exn :=
  | EOFError
  | StructError
  | AssertionError
  | KeyError
  | AttributeError
  | IndexError
  | IOError
  | ValueError
  | TypeError.

Inductive result (A : Type) :=
  | Ok (a : A)
  | Raise (e : exn).
Arguments Ok {A} a.
Arguments Raise {A} e.

#[global] Instance result_bind : MBind result := λ A B k r,
  match r with
  | Ok a => k a
  | Raise e => Raise e
  end.

#[global] Instance result_fmap : FMap result := λ A B f r,
  match r with
  | Ok a => Ok (f a)
  | Raise e => Raise e
  end.

(** ** Bytes and big-endian integers *)

Definition byte_to_Z (b : byte) : Z := Z.of_N (Byte.to_N b).

Definition byte_of_Z (z : Z) : byte :=
  match Byte.of_N (Z.to_N (z mod 256)) with
  | Some b => b
  | None => x00
  end.

(** The unsigned integer a big-endian byte string denotes. *)
Definition be_decode (bs : list byte) : Z :=
  fold_left (λ acc b, acc * 256 + byte_to_Z b) bs 0.

(** The [n]-byte big-endian representation of [v] (what a writer of the
    format, or [struct.pack], produces); used to hand-build buffers. *)
Fixpoint be_encode (n : nat) (v : Z) : list byte :=
  match n with
  | O => []
  | S n' => be_encode n' (v / 256) ++ [byte_of_Z v]
  end.

(** ** Values and records *)

(** [value] is what a dictionary of a record holds: [None], an integer, a
    byte string, or a list of records (the ["packets"] and ["extra-data"]
    lists of an event). *)
Inductive value :=
  | VNone
  | VInt (n : Z)
  | VBytes (b : list byte)
  | VList (l : list record)
with record :=
  | Event (d : gmap string value)
  | Packet (d : gmap string value)
  | ExtraData (d : gmap string value)
  | Unknown (record_type : Z) (buf : list byte).

(** [isinstance(record, C)]. *)
Definition isinstance_Event (r : record) : bool :=
  match r with Event _ => true | _ => false end.
Definition isinstance_Packet (r : record) : bool :=
  match r with Packet _ => true | _ => false end.
Definition isinstance_ExtraData (r : record) : bool :=
  match r with ExtraData _ => true | _ => false end.

(** Python truth value of a record: a [dict] subclass is true when it is
    not empty; [Unknown] defines neither [__bool__] nor [__len__] and is
    always true. *)
Definition truthy (r : record) : bool :=
  match r with
  | Event d | Packet d | ExtraData d => negb (bool_decide (d = ∅))
  | Unknown _ _ => true
  end.

(** Truth value of [None] or a record. *)
Definition truthy_opt (r : option record) : bool :=
  match r with
  | None => false
  | Some r => truthy r
  end.

(** Truth value of a string. *)
Definition truthy_str (s : string) : bool := negb (bool_decide (s = "")).

(** ** The [struct] module, big-endian standard mode

    Only what the formats of this file use: the byte-order mark [>], the
    codes [L] (4 bytes), [H] (2 bytes), [B] (1 byte), each with an optional
    repeat count, and [<n>s] (a byte string of [n] bytes). *)
Module struct.

Inductive code :=
  | L
  | H
  | B
  | s (n : nat).

Definition size (c : code) : nat :=
  match c with
  | L => 4
  | H => 2
  | B => 1
  | s n => n
  end.

Definition digit (c : ascii) : option nat :=
  let n := nat_of_ascii c in
  if bool_decide (48 ≤ n ∧ n ≤ 57)%nat then Some (n - 48)%nat else None.

(** [count] is the repeat count read so far, if any. *)
Fixpoint parse_codes (fmt : string) (count : option nat) : option (list code) :=
  match fmt with
  | EmptyString =>
      match count with
      | None => Some []
      | Some _ => None
      end
  | String c rest =>
      match digit c with
      | Some d => parse_codes rest (Some (10 * default 0 count + d)%nat)
      | None =>
          let n := default 1%nat count in
          if bool_decide (c = "L"%char) then (replicate n L ++.) <$> parse_codes rest None
          else if bool_decide (c = "H"%char) then (replicate n H ++.) <$> parse_codes rest None
          else if bool_decide (c = "B"%char) then (replicate n B ++.) <$> parse_codes rest None
          else if bool_decide (c = "s"%char) then (s n ::.) <$> parse_codes rest None
          else None
      end
  end.

Definition parse (fmt : string) : option (list code) :=
  match fmt with
  | String ">" rest => parse_codes rest None
  | _ => None
  end.

Definition calcsize_codes (cs : list code) : nat :=
  foldr (λ c n, size c + n)%nat 0%nat cs.

Definition unpack_code (c : code) (bs : list byte) : value :=
  match c with
  | s _ => VBytes bs
  | _ => VInt (be_decode bs)
  end.

Fixpoint unpack_codes (cs : list code) (buf : list byte) : list value :=
  match cs with
  | [] => []
  | c :: cs' =>
      unpack_code c (take (size c) buf) :: unpack_codes cs' (drop (size c) buf)
  end.

(** [struct.unpack(fmt, buf)]: the buffer must have exactly the size
    the format calls for. *)
Definition unpack (fmt : string) (buf : list byte) : result (list value) :=
  match parse fmt with
  | None => Raise StructError
  | Some cs =>
      if bool_decide (length buf = calcsize_codes cs)
      then Ok (unpack_codes cs buf)
      else Raise StructError
  end.

(** A value that a code can hold: an unsigned integer of the code's
    width, or a byte string of the code's length. *)
Definition fits (c : code) (v : value) : Prop :=
  match c, v with
  | s n, VBytes bs => length bs = n
  | s _, _ => False
  | _, VInt z => 0 ≤ z < 256 ^ Z.of_nat (size c)
  | _, _ => False
  end.

(** The bytes of a value under a code, as [struct.pack] lays them out. *)
Definition pack_code (c : code) (v : value) : list byte :=
  match c, v with
  | s n, VBytes bs => bs
  | _, VInt z => be_encode (size c) z
  | _, _ => []
  end.

Fixpoint pack_codes (cs : list code) (vs : list value) : list byte :=
  match cs, vs with
  | c :: cs', v :: vs' => pack_code c v ++ pack_codes cs' vs'
  | _, _ => []
  end.

End struct.

(** ** Field tables *)

(** Record header length. *)
Definition HDR_LEN : nat := 8.

(** Record types. *)
Definition PACKET : Z := 2.
Definition EVENT : Z := 7.
Definition EVENT_IP6 : Z := 72.
Definition EVENT_V2 : Z := 104.
Definition EVENT_IP6_V2 : Z := 105.
Definition EXTRA_DATA : Z := 110.

Module Field.

Record t := mk {
  name : string;
  length : option nat;
  _fmt : option string;
}.

(** The [fmt] property: the explicit format when there is a non-empty
    one, else a code chosen by the length. *)
Definition fmt (self : t) : option string :=
  if match _fmt self with Some f => truthy_str f | None => false end
  then _fmt self
  else if bool_decide (length self = Some 4%nat) then Some "L"
  else if bool_decide (length self = Some 2%nat) then Some "H"
  else if bool_decide (length self = Some 1%nat) then Some "B"
  else None.

End Field.

Definition field (name : string) (length : nat) : Field.t :=
  Field.mk name (Some length) None.
Definition field_fmt (name : string) (length : nat) (fmt : string) : Field.t :=
  Field.mk name (Some length) (Some fmt).
Definition field_rest (name : string) : Field.t :=
  Field.mk name None None.

(** Fields in a PACKET record. *)
Definition PACKET_FIELDS : list Field.t := [
  field "sensor-id" 4;
  field "event-id" 4;
  field "event-second" 4;
  field "packet-second" 4;
  field "packet-microsecond" 4;
  field "linktype" 4;
  field "length" 4;
  field_rest "data"
].

(** Fields in a EVENT record. *)
Definition EVENT_FIELDS : list Field.t := [
  field "sensor-id" 4;
  field "event-id" 4;
  field "event-second" 4;
  field "event-microsecond" 4;
  field "signature-id" 4;
  field "generator-id" 4;
  field "signature-revision" 4;
  field "classification-id" 4;
  field "priority" 4;
  field_fmt "ip-source" 4 "4s";
  field_fmt "ip-destination" 4 "4s";
  field "sport-itype" 2;
  field "dport-icode" 2;
  field "protocol" 1;
  field "impact-flag" 1;
  field "impact" 1;
  field "blocked" 1
].

(** Fields for an IPv6 event. *)
Definition EVENT_IP6_FIELDS : list Field.t := [
  field "sensor-id" 4;
  field "event-id" 4;
  field "event-second" 4;
  field "event-microsecond" 4;
  field "signature-id" 4;
  field "generator-id" 4;
  field "signature-revision" 4;
  field "classification-id" 4;
  field "priority" 4;
  field_fmt "ip-source" 4 "16s";
  field_fmt "ip-destination" 4 "16s";
  field "sport-itype" 2;
  field "dport-icode" 2;
  field "protocol" 1;
  field "impact-flag" 1;
  field "impact" 1;
  field "blocked" 1
].

(** Fields in a v2 event. *)
Definition EVENT_V2_FIELDS : list Field.t := EVENT_FIELDS ++ [
  field "mpls-label" 4;
  field "vlan-id" 2;
  field "_pad2" 2
].

(** Fields for an IPv6 v2 event. *)
Definition EVENT_IP6_V2_FIELDS : list Field.t := EVENT_IP6_FIELDS ++ [
  field "mpls-label" 4;
  field "vlan-id" 2;
  field "_pad2" 2
].

(** Fields in a UNIFIED_EXTRA_DATA record. *)
Definition EXTRA_DATA_FIELDS : list Field.t := [
  field "event-type" 4;
  field "event-length" 4;
  field "sensor-id" 4;
  field "event-id" 4;
  field "event-second" 4;
  field "type" 4;
  field "data-type" 4;
  field "data-length" 4;
  field_rest "data"
].

(** ** Record classes *)

(** [for field, value in pairs: self[field.name] = value]. *)
Definition set_fields (pairs : list (Field.t * value)) (self : gmap string value)
  : gmap string value :=
  fold_left (λ d fv, <[Field.name fv.1 := fv.2]> d) pairs self.

(** [Event.__init__]: the two lists, the two v2-only keys unset, then the
    fields. *)
Definition Event__init__ (fields : list (Field.t * value)) : record :=
  let self := <["extra-data" := VList []]> (∅ : gmap string value) in
  let self := <["packets" := VList []]> self in
  let self := <["mpls-label" := VNone]> self in
  let self := <["vlan-id" := VNone]> self in
  Event (set_fields fields self).

(** [dict.update(kwargs)]: the keys of [kwargs] win. *)
Definition update (kwargs self : gmap string value) : gmap string value :=
  kwargs ∪ self.

(** [Packet.__init__]: the positional values, then the keyword ones. *)
Definition Packet__init__ (fields : list value) (kwargs : gmap string value) : record :=
  Packet (update kwargs (set_fields (zip PACKET_FIELDS fields) ∅)).

(** [ExtraData.__init__]: the positional values, then the keyword ones. *)
Definition ExtraData__init__ (fields : list value) (kwargs : gmap string value) : record :=
  ExtraData (update kwargs (set_fields (zip EXTRA_DATA_FIELDS fields) ∅)).

(** ** Decoders *)

Inductive decoder_class :=
  | EventDecoder
  | PacketDecoder
  | ExtraDataDecoder.

Module AbstractDecoder.

Record t := mk {
  class : decoder_class;
  fields : list Field.t;
  fixed_len : nat;
  format : string;
}.

(** [AbstractDecoder.__init__]: the length of the fixed portion and the
    format string are computed once from the field table. *)
Definition __init__ (class : decoder_class) (fields : list Field.t) : t :=
  mk class fields
     (foldr Nat.add 0%nat (omap Field.length fields))
     (">" +:+ String.concat "" (omap Field.fmt fields)).

Definition decode (self : t) (buf : list byte) : result record :=
  match class self with
  | EventDecoder =>
      parts ← struct.unpack (format self) buf ;
      Ok (Event__init__ (zip (fields self) parts))
  | PacketDecoder =>
      parts ← struct.unpack (format self) (take (fixed_len self) buf) ;
      Ok (Packet__init__ parts {["data" := VBytes (drop (fixed_len self) buf)]})
  | ExtraDataDecoder =>
      parts ← struct.unpack (format self) (take (fixed_len self) buf) ;
      Ok (ExtraData__init__ parts {["data" := VBytes (drop (fixed_len self) buf)]})
  end.

End AbstractDecoder.

(** Map of decoders keyed by record type. *)
Definition DECODERS : gmap Z AbstractDecoder.t :=
  <[EVENT := AbstractDecoder.__init__ EventDecoder EVENT_FIELDS]> (
  <[EVENT_IP6 := AbstractDecoder.__init__ EventDecoder EVENT_IP6_FIELDS]> (
  <[EVENT_V2 := AbstractDecoder.__init__ EventDecoder EVENT_V2_FIELDS]> (
  <[EVENT_IP6_V2 := AbstractDecoder.__init__ EventDecoder EVENT_IP6_V2_FIELDS]> (
  <[PACKET := AbstractDecoder.__init__ PacketDecoder PACKET_FIELDS]> (
  <[EXTRA_DATA := AbstractDecoder.__init__ ExtraDataDecoder EXTRA_DATA_FIELDS]> ∅))))).

Definition decode_record (record_type : Z) (buf : list byte) : result record :=
  match DECODERS !! record_type with
  | Some decoder => AbstractDecoder.decode decoder buf
  | None => Ok (Unknown record_type buf)
  end.

(** ** Hand-built buffers

    What a writer of the format produces; the decoders are checked
    against these. *)

(** The codes of the format string of the decoder of a record type. *)
Definition codes_of (record_type : Z) : list struct.code :=
  match DECODERS !! record_type with
  | Some decoder => default [] (struct.parse (AbstractDecoder.format decoder))
  | None => []
  end.

(** The field table of the decoder of a record type. *)
Definition fields_of (record_type : Z) : list Field.t :=
  match DECODERS !! record_type with
  | Some decoder => AbstractDecoder.fields decoder
  | None => []
  end.

(** A payload: the field values packed in order, then the trailing bytes. *)
Definition build_payload (record_type : Z) (vals : list value) (trailing : list byte)
  : list byte :=
  struct.pack_codes (codes_of record_type) vals ++ trailing.

(** A record on the wire: the 8-byte header (type, payload length), then
    the payload. *)
Definition build_record (record_type : Z) (payload : list byte) : list byte :=
  be_encode 4 record_type ++ be_encode 4 (Z.of_nat (length payload)) ++ payload.

Definition is_event_type (record_type : Z) : Prop :=
  record_type ∈ [EVENT; EVENT_IP6; EVENT_V2; EVENT_IP6_V2].

Definition is_v2_type (record_type : Z) : Prop :=
  record_type ∈ [EVENT_V2; EVENT_IP6_V2].

Definition is_ip6_type (record_type : Z) : Prop :=
  record_type ∈ [EVENT_IP6; EVENT_IP6_V2].

Definition recognized (record_type : Z) : Prop :=
  record_type ∈ [EVENT; EVENT_IP6; EVENT_V2; EVENT_IP6_V2; PACKET; EXTRA_DATA].

(** The dictionary of a record that has one. *)
Definition dict_of (r : record) : gmap string value :=
  match r with
  | Event d | Packet d | ExtraData d => d
  | Unknown _ _ => ∅
  end.

(** The class a recognized record type decodes to. *)
Definition class_of (record_type : Z) (r : record) : Prop :=
  if bool_decide (record_type = PACKET) then isinstance_Packet r = true
  else if bool_decide (record_type = EXTRA_DATA) then isinstance_ExtraData r = true
  else isinstance_Event r = true.

(** The width of the address fields of an event type. *)
Definition addr_len (record_type : Z) : nat :=
  if bool_decide (is_ip6_type record_type) then 16%nat else 4%nat.

(** The keys [Event.__init__] sets before the fields. *)
Definition EVENT_KEYS : gset string :=
  {[ "extra-data"; "packets"; "mpls-label"; "vlan-id" ]}.

(** The keys a list of (field, value) pairs sets. *)
Definition names (pairs : list (Field.t * value)) : list string :=
  (λ fv, Field.name fv.1) <$> pairs.

(** ** The payload layouts on the wire

    The layouts of the six record types as a writer of the format lays
    them out, written down field by field and apart from the field tables
    and the format strings the decoders compute: the name of each field
    and what it is on the wire, an unsigned big-endian integer of so many
    bytes or a byte string of so many bytes.  The decoders are checked
    against buffers built by these layouts. *)
Inductive wire_field :=
  | UInt (name : string) (width : nat)
  | Bytes (name : string) (width : nat).

Definition wire_name (w : wire_field) : string :=
  match w with
  | UInt name _ | Bytes name _ => name
  end.

Definition wire_width (w : wire_field) : nat :=
  match w with
  | UInt _ width | Bytes _ width => width
  end.

(** An event, its two addresses of [addr] bytes each: 4 for IPv4, 16 for
    IPv6. *)
Definition event_wire (addr : nat) : list wire_field := [
  UInt "sensor-id" 4;
  UInt "event-id" 4;
  UInt "event-second" 4;
  UInt "event-microsecond" 4;
  UInt "signature-id" 4;
  UInt "generator-id" 4;
  UInt "signature-revision" 4;
  UInt "classification-id" 4;
  UInt "priority" 4;
  Bytes "ip-source" addr;
  Bytes "ip-destination" addr;
  UInt "sport-itype" 2;
  UInt "dport-icode" 2;
  UInt "protocol" 1;
  UInt "impact-flag" 1;
  UInt "impact" 1;
  UInt "blocked" 1
].

(** What a v2 event adds: the MPLS label, the VLAN id and two bytes of
    padding. *)
Definition v2_wire : list wire_field := [
  UInt "mpls-label" 4;
  UInt "vlan-id" 2;
  UInt "_pad2" 2
].

(** The fixed part of a packet; the packet data follows. *)
Definition packet_wire : list wire_field := [
  UInt "sensor-id" 4;
  UInt "event-id" 4;
  UInt "event-second" 4;
  UInt "packet-second" 4;
  UInt "packet-microsecond" 4;
  UInt "linktype" 4;
  UInt "length" 4
].

(** The fixed part of extra data; the data follow. *)
Definition extra_data_wire : list wire_field := [
  UInt "event-type" 4;
  UInt "event-length" 4;
  UInt "sensor-id" 4;
  UInt "event-id" 4;
  UInt "event-second" 4;
  UInt "type" 4;
  UInt "data-type" 4;
  UInt "data-length" 4
].

(** The layout of the fixed part of the payload, by type code. *)
Definition wire_layout (record_type : Z) : list wire_field :=
  if bool_decide (record_type = 7) then event_wire 4
  else if bool_decide (record_type = 72) then event_wire 16
  else if bool_decide (record_type = 104) then event_wire 4 ++ v2_wire
  else if bool_decide (record_type = 105) then event_wire 16 ++ v2_wire
  else if bool_decide (record_type = 2) then packet_wire
  else if bool_decide (record_type = 110) then extra_data_wire
  else [].

(** A value that a field can hold on the wire. *)
Definition wire_fits (w : wire_field) (v : value) : Prop :=
  match w, v with
  | UInt _ width, VInt z => 0 ≤ z < 256 ^ Z.of_nat width
  | Bytes _ width, VBytes bs => length bs = width
  | _, _ => False
  end.

(** The bytes of a value in a field. *)
Definition wire_bytes (w : wire_field) (v : value) : list byte :=
  match w, v with
  | UInt _ width, VInt z => be_encode width z
  | Bytes _ _, VBytes bs => bs
  | _, _ => []
  end.

(** A hand-built payload: the bytes of the values, field after field,
    then the trailing bytes. *)
Definition hand_built (record_type : Z) (vals : list value) (trailing : list byte)
  : list byte :=
  concat (zip_with wire_bytes (wire_layout record_type) vals) ++ trailing.

(** The struct code that reads a field of the wire. *)
Definition wire_code (w : wire_field) : option struct.code :=
  match w with
  | UInt _ 4 => Some struct.L
  | UInt _ 2 => Some struct.H
  | UInt _ 1 => Some struct.B
  | UInt _ _ => None
  | Bytes _ width => Some (struct.s width)
  end.

(** ** The aggregator *)

(** [event[key].append(record)]: the key must hold a list. *)
Definition list_append (key : string) (rcd : record) (event : gmap string value)
  : result (gmap string value) :=
  match event !! key with
  | None => Raise KeyError
  | Some (VList l) => Ok (<[key := VList (l ++ [rcd])]> event)
  | Some _ => Raise AttributeError
  end.

Module Aggregator.

(** The state of an aggregator is its queue (a deque, used first in,
    first out). *)
Definition t := list record.

Definition __init__ : t := [].

(** The [while self.queue] loop of [flush], [event] being the dictionary
    of the event popped first.  Returns the result and the queue left. *)
Fixpoint flush_loop (event : gmap string value) (queue : t) : result record * t :=
  match queue with
  | [] => (Ok (Event event), [])
  | rcd :: queue =>
      if isinstance_Event rcd then (Raise AssertionError, queue)
      else if isinstance_Packet rcd then
        match list_append "packets" rcd event with
        | Ok event => flush_loop event queue
        | Raise e => (Raise e, queue)
        end
      else if isinstance_ExtraData rcd then
        match list_append "extra-data" rcd event with
        | Ok event => flush_loop event queue
        | Raise e => (Raise e, queue)
        end
      else flush_loop event queue
  end.

(** [flush]: turns the queue into an event, or [None] when the queue
    is empty. *)
Definition flush (queue : t) : result (option record) * t :=
  match queue with
  | [] => (Ok None, [])
  | event :: queue =>
      match event with
      | Event d =>
          match flush_loop d queue with
          | (Ok event, queue) => (Ok (Some event), queue)
          | (Raise e, queue) => (Raise e, queue)
          end
      | _ => (Raise AssertionError, queue)
      end
  end.

(** The warning [add] logs for a record it discards. *)
Definition DISCARD_WARNING : string :=
  "Discarding non-event type while not in event context.".

(** [add]: returns the result, the queue left and the warnings logged. *)
Definition add (rcd : record) (queue : t)
  : result (option record) * t * list string :=
  if isinstance_Event rcd then
    match queue with
    | _ :: _ =>
        match flush queue with
        | (Ok event, queue) => (Ok event, queue ++ [rcd], [])
        | (Raise e, queue) => (Raise e, queue, [])
        end
    | [] => (Ok None, queue ++ [rcd], [])
    end
  else
    match queue with
    | _ :: _ => (Ok None, queue ++ [rcd], [])
    | [] => (Ok None, queue, [DISCARD_WARNING])
    end.

(** Feeding a sequence of records through [add], collecting what each
    call returns; [None] when a call raised. *)
Fixpoint add_all (records : list record) (queue : t)
  : option (list (option record) * t) :=
  match records with
  | [] => Some ([], queue)
  | rcd :: records =>
      match add rcd queue with
      | (Ok event, queue, _) =>
          match add_all records queue with
          | Some (events, queue) => Some (event :: events, queue)
          | None => None
          end
      | (Raise _, _, _) => None
      end
  end.

End Aggregator.

(** A well-formed event dictionary: ["packets"] and ["extra-data"] hold
    lists, as [Event.__init__] leaves them. *)
Definition Event_wf (d : gmap string value) : Prop :=
  (∃ l, d !! "packets" = Some (VList l)) ∧ (∃ l, d !! "extra-data" = Some (VList l)).

Definition record_wf (r : record) : Prop :=
  match r with
  | Event d => Event_wf d
  | _ => True
  end.

(** The queue invariant: empty, or an event followed by records that are
    not events. *)
Definition queue_inv (queue : Aggregator.t) : Prop :=
  match queue with
  | [] => True
  | head :: rest =>
      isinstance_Event head = true ∧ Forall (λ r, isinstance_Event r = false) rest
  end.

(** The ["packets"] and ["extra-data"] lists of a dictionary. *)
Definition packets_of (d : gmap string value) : list record :=
  match d !! "packets" with
  | Some (VList l) => l
  | _ => []
  end.

Definition extra_data_of (d : gmap string value) : list record :=
  match d !! "extra-data" with
  | Some (VList l) => l
  | _ => []
  end.

(** The event [flush] builds from event dictionary [d] and the records
    queued behind it: the packets and the extra data, each in arrival
    order, appended to the two lists. *)
Definition completed (d : gmap string value) (rest : list record) : gmap string value :=
  <["extra-data" := VList (extra_data_of d ++ filter (λ r, isinstance_ExtraData r = true) rest)]> (
  <["packets" := VList (packets_of d ++ filter (λ r, isinstance_Packet r = true) rest)]> d).

(** A key other than the two that hold lists. *)
Definition not_a_list_key (k : string) : Prop :=
  k ≠ "packets" ∧ k ≠ "extra-data".

(** ** File objects

    A binary file opened for reading: [read n] returns the next [n] bytes,
    fewer only at the end of the contents; every operation on a closed
    file raises [ValueError]. *)
Module File.

Record t := mk {
  name : string;
  data : list byte;
  pos : nat;
  closed : bool;
}.

Definition set_pos (offset : nat) (f : t) : t :=
  mk (name f) (data f) offset (closed f).

Definition tell (f : t) : result nat :=
  if closed f then Raise ValueError else Ok (pos f).

Definition seek (offset : nat) (f : t) : result unit * t :=
  if closed f then (Raise ValueError, f) else (Ok (), set_pos offset f).

Definition read (n : nat) (f : t) : result (list byte) * t :=
  if closed f then (Raise ValueError, f)
  else
    let buf := take n (drop (pos f) (data f)) in
    (Ok buf, set_pos (pos f + length buf) f).

Definition close (f : t) : t :=
  mk (name f) (data f) (pos f) true.

(** The bytes not read yet. *)
Definition available (f : t) : list byte := drop (pos f) (data f).

End File.

(** [open(path, "rb")] in a file system that maps paths to contents. *)
Definition open (fs : gmap string (list byte)) (path : string) : result File.t :=
  match fs !! path with
  | Some data => Ok (File.mk path data 0 false)
  | None => Raise IOError
  end.

(** ** [read_record] *)

(** The body of the [try] block of [read_record]. *)
Definition read_record_try (fileobj : File.t) : result (option record) * File.t :=
  match File.read HDR_LEN fileobj with
  | (Raise e, fileobj) => (Raise e, fileobj)
  | (Ok buf, fileobj) =>
      if bool_decide (buf = []) then (Ok None, fileobj)
      else if bool_decide (length buf < HDR_LEN)%nat then (Raise EOFError, fileobj)
      else
        match struct.unpack ">LL" buf with
        | Ok [VInt rtype; VInt rlen] =>
            match File.read (Z.to_nat rlen) fileobj with
            | (Raise e, fileobj) => (Raise e, fileobj)
            | (Ok buf, fileobj) =>
                if bool_decide (Z.of_nat (length buf) < rlen) then (Raise EOFError, fileobj)
                else (Some <$> decode_record rtype buf, fileobj)
            end
        | Ok _ => (Raise ValueError, fileobj)
        | Raise e => (Raise e, fileobj)
        end
  end.

(** [read_record]: the position is taken first; an [EOFError] raised in
    the [try] block puts the file back there before it is raised again. *)
Definition read_record (fileobj : File.t) : result (option record) * File.t :=
  match File.tell fileobj with
  | Raise e => (Raise e, fileobj)
  | Ok offset =>
      match read_record_try fileobj with
      | (Raise EOFError, fileobj) =>
          match File.seek offset fileobj with
          | (Ok _, fileobj) => (Raise EOFError, fileobj)
          | (Raise e, fileobj) => (Raise e, fileobj)
          end
      | outcome => outcome
      end
  end.

(** ** [RecordReader]

    A [RecordReader] holds its file object only.  [__init__] binds [next]
    to [_darwin_next] on Darwin under Python 2 and to [_default_next]
    otherwise. *)
Module RecordReader.

Definition _default_next (fileobj : File.t) : result (option record) * File.t :=
  read_record fileobj.

Definition _darwin_next (fileobj : File.t) : result (option record) * File.t :=
  match _default_next fileobj with
  | (Ok None, fileobj) =>
      match File.tell fileobj with
      | Ok offset =>
          match File.seek offset fileobj with
          | (Ok _, fileobj) => (Ok None, fileobj)
          | (Raise e, fileobj) => (Raise e, fileobj)
          end
      | Raise e => (Raise e, fileobj)
      end
  | outcome => outcome
  end.

Definition next (darwin_py2 : bool) (fileobj : File.t)
  : result (option record) * File.t :=
  if darwin_py2 then _darwin_next fileobj else _default_next fileobj.

End RecordReader.

(** The record type and the payload length that the first eight of the
    available bytes announce. *)
Definition header_type (avail : list byte) : Z := be_decode (take 4 avail).
Definition header_length (avail : list byte) : nat :=
  Z.to_nat (be_decode (take 4 (drop 4 avail))).

(** What [read_record] does on an open file, by the bytes available. *)
Definition read_record_spec (fileobj : File.t) : result (option record) * File.t :=
  let avail := File.available fileobj in
  if bool_decide (avail = []) then (Ok None, fileobj)
  else if bool_decide (length avail < HDR_LEN)%nat then (Raise EOFError, fileobj)
  else
    let payload := take (header_length avail) (drop HDR_LEN avail) in
    if bool_decide (length payload < header_length avail)%nat
    then (Raise EOFError, fileobj)
    else (Some <$> decode_record (header_type avail) payload,
          File.set_pos (File.pos fileobj + HDR_LEN + header_length avail) fileobj).

(** ** [FileRecordReader] and [FileEventReader]

    [fs] maps the path of a file to its contents; [darwin_py2] tells which
    [next] a [RecordReader] is bound to. *)
Module FileRecordReader.

(** The files not opened yet and the file being read (the reader reads
    that same file object). *)
Record t := mk {
  files : list string;
  fileobj : File.t;
}.

(** [__init__]: [pop(0)] on an empty list raises [IndexError]. *)
Definition __init__ (fs : gmap string (list byte)) (files : list string) : result t :=
  match files with
  | [] => Raise IndexError
  | path :: files => fileobj ← open fs path; Ok (mk files fileobj)
  end.

(** The [while 1] loop of [next]: every turn but the last takes a path
    off [files].  The path is popped before the file is opened. *)
Fixpoint next_loop (darwin_py2 : bool) (fs : gmap string (list byte))
    (files : list string) (fileobj : File.t) : result (option record) * t :=
  match RecordReader.next darwin_py2 fileobj with
  | (Raise e, fileobj) => (Raise e, mk files fileobj)
  | (Ok rcd, fileobj) =>
      if truthy_opt rcd then (Ok rcd, mk files fileobj)
      else
        match files with
        | [] => (Ok None, mk [] fileobj)
        | path :: files =>
            match open fs path with
            | Ok fileobj => next_loop darwin_py2 fs files fileobj
            | Raise e => (Raise e, mk files (File.close fileobj))
            end
        end
  end.

Definition next (darwin_py2 : bool) (fs : gmap string (list byte)) (self : t)
  : result (option record) * t :=
  next_loop darwin_py2 fs (files self) (fileobj self).

(** [n] calls of [next] in a row: what each returned, and the reader
    left. *)
Fixpoint run (darwin_py2 : bool) (fs : gmap string (list byte)) (n : nat) (self : t)
  : list (result (option record)) * t :=
  match n with
  | O => ([], self)
  | S n =>
      let '(outcome, self) := next darwin_py2 fs self in
      let '(outcomes, self) := run darwin_py2 fs n self in
      (outcome :: outcomes, self)
  end.

End FileRecordReader.

Module FileEventReader.

Record t := mk {
  reader : FileRecordReader.t;
  aggregator : Aggregator.t;
}.

Definition __init__ (fs : gmap string (list byte)) (files : list string) : result t :=
  reader ← FileRecordReader.__init__ fs files; Ok (mk reader Aggregator.__init__).

(** [next]: the [while 1] loop runs once per record read; [fuel] bounds
    the number of turns, [None] meaning that it ran out. *)
Fixpoint next (darwin_py2 : bool) (fs : gmap string (list byte)) (fuel : nat) (self : t)
  : option (result (option record) * t) :=
  match fuel with
  | O => None
  | S fuel =>
      match FileRecordReader.next darwin_py2 fs (reader self) with
      | (Raise e, reader) => Some (Raise e, mk reader (aggregator self))
      | (Ok rcd, reader) =>
          let flushed :=
            let '(outcome, queue) := Aggregator.flush (aggregator self) in
            Some (outcome, mk reader queue) in
          match rcd with
          | Some rcd =>
              if truthy rcd then
                match Aggregator.add rcd (aggregator self) with
                | (Raise e, queue, _) => Some (Raise e, mk reader queue)
                | (Ok event, queue, _) =>
                    if truthy_opt event then Some (Ok event, mk reader queue)
                    else next darwin_py2 fs fuel (mk reader queue)
                end
              else flushed
          | None => flushed
          end
      end
  end.

(** [n] calls of [next] in a row, each with [fuel] turns at most. *)
Fixpoint run (darwin_py2 : bool) (fs : gmap string (list byte)) (fuel n : nat) (self : t)
  : option (list (result (option record)) * t) :=
  match n with
  | O => Some ([], self)
  | S n =>
      '(outcome, self) ← next darwin_py2 fs fuel self;
      '(outcomes, self) ← run darwin_py2 fs fuel n self;
      Some (outcome :: outcomes, self)
  end.

End FileEventReader.

(** [parses data records]: [data] is a sequence of whole records on the
    wire, no byte missing or left over, that decode to [records]. *)
Inductive parses : list byte → list record → Prop :=
  | parses_nil : parses [] []
  | parses_cons record_type payload rcd data records :
      0 ≤ record_type < 2 ^ 32 →
      Z.of_nat (length payload) < 2 ^ 32 →
      decode_record record_type payload = Ok rcd →
      parses data records →
      parses (build_record record_type payload ++ data) (rcd :: records).

(** The paths [files] name files of [fs] that parse to the lists
    [recordss], one list a file. *)
Definition files_parse (fs : gmap string (list byte)) (files : list string)
    (recordss : list (list record)) : Prop :=
  Forall2 (λ path records, ∃ data, fs !! path = Some data ∧ parses data records)
          files recordss.

(** The stream a reader returns call after call: the records, then
    [None] for ever. *)
Definition stream (n : nat) (records : list record) : list (result (option record)) :=
  take n ((Ok ∘ Some) <$> records) ++ replicate (n - length records) (Ok None).

(** The file being read is open and what is left of it, then the files
    not opened yet, parse to [records]. *)
Definition reader_parses (fs : gmap string (list byte)) (self : FileRecordReader.t)
    (records : list record) : Prop :=
  ∃ records0 recordss,
    File.closed (FileRecordReader.fileobj self) = false ∧
    parses (File.available (FileRecordReader.fileobj self)) records0 ∧
    files_parse fs (FileRecordReader.files self) recordss ∧
    records = records0 ++ concat recordss.

(** The bytes available end in the middle of a header or of a payload. *)
Definition truncated (avail : list byte) : Prop :=
  (0 < length avail < HDR_LEN)%nat ∨
  (HDR_LEN ≤ length avail ∧ length avail - HDR_LEN < header_length avail)%nat.

(** What one call of [FileEventReader.next] does on the records still
    to be read and the queue: the outcome, the records left and the queue
    left. *)
Fixpoint next_event (records : list record) (queue : Aggregator.t)
  : result (option record) * list record * Aggregator.t :=
  match records with
  | [] => let '(outcome, queue) := Aggregator.flush queue in (outcome, [], queue)
  | rcd :: records =>
      match Aggregator.add rcd queue with
      | (Raise e, queue, _) => (Raise e, records, queue)
      | (Ok event, queue, _) =>
          if truthy_opt event then (Ok event, records, queue)
          else next_event records queue
      end
  end.

(** ** Paths *)

(** What is behind the last ["/"] of [path]; [candidate] is what is
    behind the last one seen so far. *)
Fixpoint after_last_slash (path candidate : string) : string :=
  match path with
  | EmptyString => candidate
  | String c rest =>
      if bool_decide (c = "/"%char) then after_last_slash rest rest
      else after_last_slash rest candidate
  end.

(** [os.path.basename]. *)
Definition basename (path : string) : string := after_last_slash path path.

(** ["%s/%s" % (directory, name)]. *)
Definition join (directory name : string) : string := directory +:+ "/" +:+ name.

(** [l.index(x)], when [x] is in [l]. *)
Fixpoint index (x : string) (l : list string) : option nat :=
  match l with
  | [] => None
  | y :: l => if bool_decide (y = x) then Some 0%nat else S <$> index x l
  end.

(** ** [SpoolRecordReader]

    [fs] holds the files of the spool directory, by entry name.  The
    matching of a name against a pattern, [fnmatch], is a parameter.
    What a call does to the outside is returned as a trace. *)
Inductive effect :=
  | Closed (name : string)
  | Opened (name : string)
  | Rollover (closed_filename : option string) (opened_filename : string).

Module SpoolRecordReader.

(** [rollover_hook] tells whether a hook was given; the reader reads
    [fileobj] when there is one. *)
Record t := mk {
  directory : string;
  prefix : string;
  tail : bool;
  rollover_hook : bool;
  fileobj : option File.t;
}.

Definition set_fileobj (fileobj : option File.t) (self : t) : t :=
  mk (directory self) (prefix self) (tail self) (rollover_hook self) fileobj.

Definition fnfilter (self : t) : string := prefix self +:+ "*".

(** [get_filenames]: the entries of the directory that match, sorted. *)
Definition get_filenames (fnmatch : string → string → bool)
    (fs : gmap string (list byte)) (self : t) : list string :=
  merge_sort String.le
    (filter (λ name, fnmatch name (fnfilter self) = true) ((map_to_list fs).*1)).

(** [open(path, "rb")] for a path in the directory. *)
Definition open_in (fs : gmap string (list byte)) (directory name : string)
  : result File.t :=
  match fs !! name with
  | Some data => Ok (File.mk (join directory name) data 0 false)
  | None => Raise IOError
  end.

Definition open_file (fs : gmap string (list byte)) (filename : string) (self : t)
  : result unit * t * list effect :=
  let closed_filename := File.name <$> fileobj self in
  let closing := from_option (λ f, [Closed (File.name f)]) [] (fileobj self) in
  let self := set_fileobj (File.close <$> fileobj self) self in
  match open_in fs (directory self) (basename filename) with
  | Raise e => (Raise e, self, closing)
  | Ok f =>
      (Ok (), set_fileobj (Some f) self,
       closing ++ [Opened (File.name f)]
       ++ if rollover_hook self then [Rollover closed_filename (File.name f)] else [])
  end.

(** [open_file(filename)] followed by
    [return os.path.basename(self.fileobj.name)]. *)
Definition open_return (fs : gmap string (list byte)) (filename : string) (self : t)
  : result (option string) * t * list effect :=
  match open_file fs filename self with
  | (Raise e, self, trace) => (Raise e, self, trace)
  | (Ok _, self, trace) =>
      (Ok (basename <$> (File.name <$> fileobj self)), self, trace)
  end.

(** [open_next]: the name of the file opened, or [None]. *)
Definition open_next (fnmatch : string → string → bool)
    (fs : gmap string (list byte)) (self : t)
  : result (option string) * t * list effect :=
  let filenames := get_filenames fnmatch fs self in
  match filenames with
  | [] => (Ok None, self, [])
  | first :: _ =>
      match fileobj self with
      | None => open_return fs first self
      | Some f =>
          match index (basename (File.name f)) filenames with
          | None => open_return fs first self
          | Some current_idx =>
              match filenames !! (current_idx + 1)%nat with
              | Some following =>
                  match open_return fs following
                          (set_fileobj (Some (File.close f)) self) with
                  | (outcome, self, trace) =>
                      (outcome, self, Closed (File.name f) :: trace)
                  end
              | None => (Ok None, self, [])
              end
          end
      end
  end.

(** [tell]: the name and the position of the file being read. *)
Definition tell (self : t) : result (option string * option nat) :=
  match fileobj self with
  | Some f => offset ← File.tell f; Ok (Some (File.name f), Some offset)
  | None => Ok (None, None)
  end.

(** [os.path.exists] on the path of [name] in the directory, [name]
    holding no ["/"].  The directory holds regular files only; besides
    them the directory itself (the empty name, the path ending in ["/"]),
    ["."] and [".."] exist, which [open] does not open. *)
Definition exists_in (fs : gmap string (list byte)) (name : string) : bool :=
  bool_decide (is_Some (fs !! name)) || bool_decide (name ∈ [""; "."; ".."]).

(** [__init__]: when a file name is given and the path of its base name
    in the directory exists, the file is opened and put at the offset. *)
Definition __init__ (fs : gmap string (list byte)) (directory prefix : string)
    (init_filename : option string) (init_offset : option nat)
    (tail rollover_hook : bool) : result t * list effect :=
  let self := mk directory prefix tail rollover_hook None in
  match init_filename with
  | Some filename =>
      if truthy_str filename && exists_in fs (basename filename) then
        match open_file fs filename self with
        | (Raise e, _, trace) => (Raise e, trace)
        | (Ok _, self, trace) =>
            match fileobj self, init_offset with
            | Some f, Some offset =>
                match File.seek offset f with
                | (Ok _, f) => (Ok (set_fileobj (Some f) self), trace)
                | (Raise e, _) => (Raise e, trace)
                end
            | _, _ => (Raise TypeError, trace)
            end
        end
      else (Ok self, [])
  | None => (Ok self, [])
  end.

(** [self.reader.next()], the reader reading [self.fileobj]. *)
Definition read (darwin_py2 : bool) (self : t) : result (option record) * t :=
  match fileobj self with
  | Some f =>
      let '(outcome, f) := RecordReader.next darwin_py2 f in
      (outcome, set_fileobj (Some f) self)
  | None => (Raise AttributeError, self)
  end.

(** What [_next] does with the outcome of [self.reader.next()]: an
    [EOFError] is caught and [None] returned, a true record is returned;
    otherwise [continue] says what to do next. *)
Definition on_read (outcome : result (option record) * t)
    (continue : t → option (result (option record) * t * list effect))
  : option (result (option record) * t * list effect) :=
  match outcome with
  | (Raise EOFError, self) => Some (Ok None, self, [])
  | (Raise e, self) => Some (Raise e, self, [])
  | (Ok rcd, self) =>
      if truthy_opt rcd then Some (Ok rcd, self, []) else continue self
  end.

Definition prepend (trace : list effect)
    (outcome : option (result (option record) * t * list effect))
  : option (result (option record) * t * list effect) :=
  '(outcome, self, trace') ← outcome; Some (outcome, self, trace ++ trace').

(** The [while True] loop of [_next]; [fuel] bounds the number of turns,
    [None] meaning that it ran out. *)
Fixpoint _next_loop (darwin_py2 : bool) (fnmatch : string → string → bool)
    (fs : gmap string (list byte)) (fuel : nat) (self : t)
  : option (result (option record) * t * list effect) :=
  match fuel with
  | O => None
  | S fuel =>
      match open_next fnmatch fs self with
      | (Raise e, self, trace) => Some (Raise e, self, trace)
      | (Ok name, self, trace) =>
          if from_option truthy_str false name then
            prepend trace
              (on_read (read darwin_py2 self) (_next_loop darwin_py2 fnmatch fs fuel))
          else Some (Ok None, self, trace)
      end
  end.

Definition _next (darwin_py2 : bool) (fnmatch : string → string → bool)
    (fs : gmap string (list byte)) (fuel : nat) (self : t)
  : option (result (option record) * t * list effect) :=
  let try_read self :=
    on_read (read darwin_py2 self) (_next_loop darwin_py2 fnmatch fs fuel) in
  match fileobj self with
  | None =>
      match open_next fnmatch fs self with
      | (Raise e, self, trace) => Some (Raise e, self, trace)
      | (Ok name, self, trace) =>
          if from_option truthy_str false name then prepend trace (try_read self)
          else Some (Ok None, self, trace)
      end
  | Some _ => try_read self
  end.

(** [next] without tailing returns what [_next] returns; with tailing it
    sleeps and tries again, [polls] times at most here. *)
Fixpoint next (darwin_py2 : bool) (fnmatch : string → string → bool)
    (fs : gmap string (list byte)) (fuel polls : nat) (self : t)
  : option (result (option record) * t * list effect) :=
  match polls with
  | O => None
  | S polls =>
      '(outcome, self, trace) ← _next darwin_py2 fnmatch fs fuel self;
      match outcome with
      | Raise e => Some (Raise e, self, trace)
      | Ok rcd =>
          if truthy_opt rcd then Some (Ok rcd, self, trace)
          else if tail self then
            prepend trace (next darwin_py2 fnmatch fs fuel polls self)
          else Some (Ok None, self, trace)
      end
  end.

(** [n] calls of [next] in a row. *)
Fixpoint run (darwin_py2 : bool) (fnmatch : string → string → bool)
    (fs : gmap string (list byte)) (fuel polls n : nat) (self : t)
  : option (list (result (option record)) * t) :=
  match n with
  | O => Some ([], self)
  | S n =>
      '(outcome, self, _) ← next darwin_py2 fnmatch fs fuel polls self;
      '(outcomes, self) ← run darwin_py2 fnmatch fs fuel polls n self;
      Some (outcome :: outcomes, self)
  end.

End SpoolRecordReader.

(** A name without ["/"] in it. *)
Fixpoint no_slash (name : string) : bool :=
  match name with
  | EmptyString => true
  | String c rest => negb (bool_decide (c = "/"%char)) && no_slash rest
  end.

(** The entries of a directory are not empty and hold no ["/"]. *)
Definition wf_dir (fs : gmap string (list byte)) : Prop :=
  ∀ name, is_Some (fs !! name) → no_slash name = true ∧ name ≠ "".

(** The file object [open_file] makes for an entry of the directory. *)
Definition fresh_file (fs : gmap string (list byte)) (directory name : string) : File.t :=
  File.mk (join directory name) (default [] (fs !! name)) 0 false.

(** The trace of a transition from the file [previous], if any, to the
    file [opened]: the previous file is closed ([closes] times), the new
    one opened, and the hook, if there is one, called once. *)
Definition transition (closes : nat) (previous : option File.t) (opened : File.t)
    (rollover_hook : bool) : list effect :=
  from_option (λ f, replicate closes (Closed (File.name f))) [] previous
  ++ [Opened (File.name opened)]
  ++ if rollover_hook then [Rollover (File.name <$> previous) (File.name opened)] else [].

(** The calls of the hook in a trace. *)
Definition rollovers (trace : list effect) : list (option string * string) :=
  omap (λ e, match e with Rollover c o => Some (c, o) | _ => None end) trace.


(** The names [open_next] would open one after the other, were each file
    at its end: the listing behind the name of the open file, or the
    whole listing when no file is open or the name is not listed. *)
Definition pending (fnmatch : string → string → bool) (fs : gmap string (list byte))
    (self : SpoolRecordReader.t) : list string :=
  let filenames := SpoolRecordReader.get_filenames fnmatch fs self in
  match SpoolRecordReader.fileobj self with
  | None => filenames
  | Some f =>
      match index (basename (File.name f)) filenames with
      | None => filenames
      | Some current_idx => drop (S current_idx) filenames
      end
  end.

(** Reading [f], then, as long as the file read is at its end, the files
    [names] of the directory one after the other: a record read is
    returned; a truncated record gives [None]; so does the end of the last
    file.  The reader is left on the file read last. *)
Fixpoint scan (fs : gmap string (list byte)) (names : list string) (f : File.t)
    (self : SpoolRecordReader.t) : result (option record) * SpoolRecordReader.t :=
  match read_record f with
  | (Raise EOFError, f) => (Ok None, SpoolRecordReader.set_fileobj (Some f) self)
  | (Raise e, f) => (Raise e, SpoolRecordReader.set_fileobj (Some f) self)
  | (Ok (Some rcd), f) => (Ok (Some rcd), SpoolRecordReader.set_fileobj (Some f) self)
  | (Ok None, f) =>
      match names with
      | [] => (Ok None, SpoolRecordReader.set_fileobj (Some f) self)
      | name :: names =>
          scan fs names (fresh_file fs (SpoolRecordReader.directory self) name) self
      end
  end.

(** The file held, open or closed, is an entry of the directory, read
    under the name of the directory. *)
Definition spool_entry (fs : gmap string (list byte)) (self : SpoolRecordReader.t) : Prop :=
  ∀ f, SpoolRecordReader.fileobj self = Some f →
    ∃ name, File.name f = join (SpoolRecordReader.directory self) name ∧
            no_slash name = true ∧ fs !! name = Some (File.data f).

(** The file held, if any, is open. *)
Definition holds_open (self : SpoolRecordReader.t) : Prop :=
  ∀ f, SpoolRecordReader.fileobj self = Some f → File.closed f = false.

(** The file being read is open and is an entry of the directory, read
    under the name of the directory. *)
Definition spool_inv (fs : gmap string (list byte)) (self : SpoolRecordReader.t) : Prop :=
  ∀ f, SpoolRecordReader.fileobj self = Some f →
    File.closed f = false ∧
    ∃ name, File.name f = join (SpoolRecordReader.directory self) name ∧
            no_slash name = true ∧ fs !! name = Some (File.data f).

(** The states a reader gets into over a directory that does not change:
    by [__init__], then by calls of [_next] (of which [next] is made), of
    [open_next] and of [open_file], whatever they return or raise. *)
Inductive reachable (darwin_py2 : bool) (fnmatch : string → string → bool)
    (fs : gmap string (list byte)) : SpoolRecordReader.t → Prop :=
  | reachable_init directory prefix init_filename init_offset tail rollover_hook
      self trace :
      SpoolRecordReader.__init__ fs directory prefix init_filename init_offset
        tail rollover_hook = (Ok self, trace) →
      reachable darwin_py2 fnmatch fs self
  | reachable_next fuel self outcome self' trace :
      reachable darwin_py2 fnmatch fs self →
      SpoolRecordReader._next darwin_py2 fnmatch fs fuel self
      = Some (outcome, self', trace) →
      reachable darwin_py2 fnmatch fs self'
  | reachable_open_next self outcome self' trace :
      reachable darwin_py2 fnmatch fs self →
      SpoolRecordReader.open_next fnmatch fs self = (outcome, self', trace) →
      reachable darwin_py2 fnmatch fs self'
  | reachable_open_file filename self outcome self' trace :
      reachable darwin_py2 fnmatch fs self →
      SpoolRecordReader.open_file fs filename self = (outcome, self', trace) →
      reachable darwin_py2 fnmatch fs self'.

(** What is left of [scan] once the file read is at its end. *)
Definition scan_rest (fs : gmap string (list byte)) (names : list string) (f : File.t)
    (self : SpoolRecordReader.t) : result (option record) * SpoolRecordReader.t :=
  match names with
  | [] => (Ok None, SpoolRecordReader.set_fileobj (Some f) self)
  | name :: names =>
      scan fs names (fresh_file fs (SpoolRecordReader.directory self) name) self
  end.

(** What [_next] does over a directory that does not change. *)
Definition _next_spec (fnmatch : string → string → bool) (fs : gmap string (list byte))
    (self : SpoolRecordReader.t) : result (option record) * SpoolRecordReader.t :=
  match SpoolRecordReader.fileobj self with
  | Some f => scan fs (pending fnmatch fs self) f self
  | None =>
      match pending fnmatch fs self with
      | [] => (Ok None, self)
      | name :: names =>
          scan fs names (fresh_file fs (SpoolRecordReader.directory self) name) self
      end
  end.

(** A matcher for the patterns [prefix*] whose prefix holds no special
    character: the names that start with the prefix. *)
Definition fnmatch_prefix (name pattern : string) : bool :=
  String.prefix (String.substring 0 (String.length pattern - 1) pattern) name.

(** A spool directory: a whole record, an empty file, a whole record
    followed by two bytes of the next, and a file that does not match. *)
Definition sample_spool : gmap string (list byte) :=
  {[ "u2.1" := build_record 1 [x01];
     "u2.2" := [];
     "u2.3" := build_record 1 [x02] ++ [x00; x00];
     "notes" := [x41] ]}.

(** A spool directory in rotation: two records in the first file, one in
    the second. *)
Definition rotating_spool : gmap string (list byte) :=
  {[ "u2.1" := build_record 1 [x01] ++ build_record 1 [x02];
     "u2.2" := build_record 1 [x03] ]}.


(** ** Re-encoding a decoded record *)

(** The fields of a table that take part in the format string. *)
Definition packed_fields (fields : list Field.t) : list Field.t :=
  filter (λ f, is_Some (Field.fmt f)) fields.

(** The values a record holds under the packed fields of its type, in
    the order of the field table. *)
Definition values_of (record_type : Z) (r : record) : list value :=
  omap (λ f, dict_of r !! Field.name f) (packed_fields (fields_of record_type)).

(** The bytes a record holds under ["data"], if any. *)
Definition data_of (r : record) : list byte :=
  match dict_of r !! "data" with
  | Some (VBytes b) => b
  | _ => []
  end.

(** ** Groups of records

    A group is an event, given by its dictionary, and the records that
    follow it up to the next event. *)
Definition group : Type := gmap string value * list record.

(** The records of a group, as they are fed to the aggregator. *)
Definition group_records (g : group) : list record := Event g.1 :: g.2.

(** The event a group is aggregated to. *)
Definition group_event (g : group) : record := Event (completed g.1 g.2).

Definition group_wf (g : group) : Prop :=
  Event_wf g.1 ∧ Forall (λ r, isinstance_Event r = false) g.2.

(** What the calls of [add] return on the records of [groups], one group
    after the other: the call that adds the event of a group returns
    [previous], the group before it aggregated; the others return [None]. *)
Fixpoint returned (previous : option record) (groups : list group)
  : list (option record) :=
  match groups with
  | [] => []
  | g :: groups =>
      previous :: replicate (length g.2) None ++ returned (Some (group_event g)) groups
  end.

(** The queue that holds the last of [groups], or [previous] when there
    is no group. *)
Definition queued (previous : option group) (groups : list group) : Aggregator.t :=
  from_option group_records [] (from_option Some previous (last groups)).

(** ** Iterating a reader

    Every reader defines [__iter__] as [iter(self.next, None)]: [next] is
    called until it returns [None]; what it returns before is yielded, and
    an exception it raises ends the iteration.  A record is never equal to
    [None], so that only [None] stops the iteration.

    [iterate next fuel self] is that iteration run to its end: the records
    yielded, the exception that ended it if one did, and the reader left;
    [fuel] bounds the number of calls, [None] meaning that it ran out. *)
Fixpoint iterate {reader : Type}
    (next : reader → option (result (option record) * reader))
    (fuel : nat) (self : reader) : option (list record * option exn * reader) :=
  match fuel with
  | O => None
  | S fuel =>
      '(outcome, self) ← next self;
      match outcome with
      | Raise e => Some ([], Some e, self)
      | Ok None => Some ([], None, self)
      | Ok (Some rcd) =>
          '(records, e, self) ← iterate next fuel self;
          Some (rcd :: records, e, self)
      end
  end.

Definition FileRecordReader__iter__ (darwin_py2 : bool) (fs : gmap string (list byte))
  : nat → FileRecordReader.t → option (list record * option exn * FileRecordReader.t) :=
  iterate (λ self, Some (FileRecordReader.next darwin_py2 fs self)).

(** Each call of [next] has [fuel] turns. *)
Definition FileEventReader__iter__ (darwin_py2 : bool) (fs : gmap string (list byte))
    (fuel : nat)
  : nat → FileEventReader.t → option (list record * option exn * FileEventReader.t) :=
  iterate (FileEventReader.next darwin_py2 fs fuel).

(** ** Spool readers over files of whole records *)

(** The calls change the file being read and nothing else of a reader. *)
Definition same_settings (self self' : SpoolRecordReader.t) : Prop :=
  self' = SpoolRecordReader.set_fileobj (SpoolRecordReader.fileobj self') self.

(** An outcome that is an exception, [None] or a record that is true in
    a condition. *)
Definition returned_ok (outcome : result (option record)) : Prop :=
  match outcome with
  | Ok (Some rcd) => truthy rcd = true
  | _ => True
  end.

(** The file being read, if any, is open, and what is left of it, then
    the files that [open_next] would open after it, parse to [records]. *)
Definition spool_parses (fnmatch : string → string → bool)
    (fs : gmap string (list byte)) (self : SpoolRecordReader.t)
    (records : list record) : Prop :=
  ∃ recordss,
    files_parse fs (pending fnmatch fs self) recordss ∧
    match SpoolRecordReader.fileobj self with
    | Some f =>
        File.closed f = false ∧
        ∃ records0, parses (File.available f) records0 ∧
                    records = records0 ++ concat recordss
    | None => records = concat recordss
    end.

(** ** [SpoolEventReader] *)
Module SpoolEventReader.

(** The record reader, the [tail] flag, which the record reader is not
    given, and the aggregator. *)
Record t := mk {
  reader : SpoolRecordReader.t;
  tail : bool;
  aggregator : Aggregator.t;
}.

(** [__init__]: the record reader is made without [tail], which is
    handled in [next]. *)
Definition __init__ (fs : gmap string (list byte)) (directory prefix : string)
    (init_filename : option string) (init_offset : option nat)
    (tail rollover_hook : bool) : result t * list effect :=
  match SpoolRecordReader.__init__ fs directory prefix init_filename init_offset
          false rollover_hook with
  | (Ok reader, trace) => (Ok (mk reader tail Aggregator.__init__), trace)
  | (Raise e, trace) => (Raise e, trace)
  end.

(** [self.tell = self.reader.tell]. *)
Definition tell (self : t) : result (option string * option nat) :=
  SpoolRecordReader.tell (reader self).

(** [next]: the [while True] loop runs once per record read and once per
    sleep; [turns] bounds the number of turns, [None] meaning that it ran
    out.  [fuel] and [polls] are those of the record reader. *)
Fixpoint next (darwin_py2 : bool) (fnmatch : string → string → bool)
    (fs : gmap string (list byte)) (fuel polls turns : nat) (self : t)
  : option (result (option record) * t * list effect) :=
  match turns with
  | O => None
  | S turns =>
      '(outcome, reader, trace) ←
        SpoolRecordReader.next darwin_py2 fnmatch fs fuel polls (reader self);
      let again self :=
        '(outcome, self, trace') ← next darwin_py2 fnmatch fs fuel polls turns self;
        Some (outcome, self, trace ++ trace') in
      let flushed :=
        match Aggregator.flush (aggregator self) with
        | (Raise e, queue) => Some (Raise e, mk reader (tail self) queue, trace)
        | (Ok event, queue) =>
            if truthy_opt event || negb (tail self)
            then Some (Ok event, mk reader (tail self) queue, trace)
            else again (mk reader (tail self) queue)
        end in
      match outcome with
      | Raise e => Some (Raise e, mk reader (tail self) (aggregator self), trace)
      | Ok (Some rcd) =>
          if truthy rcd then
            match Aggregator.add rcd (aggregator self) with
            | (Raise e, queue, _) => Some (Raise e, mk reader (tail self) queue, trace)
            | (Ok event, queue, _) =>
                if truthy_opt event
                then Some (Ok event, mk reader (tail self) queue, trace)
                else again (mk reader (tail self) queue)
            end
          else flushed
      | Ok None => flushed
      end
  end.

(** [n] calls of [next] in a row. *)
Fixpoint run (darwin_py2 : bool) (fnmatch : string → string → bool)
    (fs : gmap string (list byte)) (fuel polls turns n : nat) (self : t)
  : option (list (result (option record)) * t) :=
  match n with
  | O => Some ([], self)
  | S n =>
      '(outcome, self, _) ← next darwin_py2 fnmatch fs fuel polls turns self;
      '(outcomes, self) ← run darwin_py2 fnmatch fs fuel polls turns n self;
      Some (outcome :: outcomes, self)
  end.

End SpoolEventReader.

(** An outcome [SpoolEventReader.next] returns at once at the end of the
    records: any outcome when it does not tail, an exception or a true
    event when it does. *)
Definition returns_now (tail : bool) (outcome : result (option record)) : Prop :=
  tail = false ∨
  match outcome with
  | Ok event => truthy_opt event = true
  | Raise _ => True
  end.

(** A spool directory of events: a packet, an event and its packet, and
    an event in the first file; a packet of that event in the second. *)
Definition event_record (b : byte) : list byte := build_record 7 (replicate 52 b).
Definition packet_record (b : byte) : list byte :=
  build_record 2 (replicate 28 x00 ++ [b]).
Definition event_spool : gmap string (list byte) :=
  {[ "u2.1" := packet_record x09 ++ event_record x01 ++ packet_record x0a
               ++ event_record x02;
     "u2.2" := packet_record x0b ]}.

(* ===================================================================== *)
(** * Properties *)
(* ===================================================================== *)

(** ** Big-endian integers *)

Lemma byte_to_Z_range b : 0 ≤ byte_to_Z b < 256.
Proof.
  unfold byte_to_Z. pose proof (Byte.to_N_bounded b). lia.
Qed.

Lemma byte_to_of_Z z : byte_to_Z (byte_of_Z z) = z mod 256.
Proof.
  unfold byte_to_Z, byte_of_Z.
  assert (Hr : 0 ≤ z mod 256 < 256) by (apply Z.mod_pos_bound; lia).
  destruct (Byte.of_N (Z.to_N (z mod 256))) as [b|] eqn:Hb.
  - apply Byte.to_of_N in Hb. rewrite Hb. lia.
  - pose proof (Byte.to_of_N_option_map (Z.to_N (z mod 256))) as Hm.
    rewrite Hb in Hm. simpl in Hm.
    destruct (N.leb_spec (Z.to_N (z mod 256)) 255); [discriminate | lia].
Qed.

Lemma be_decode_snoc bs b : be_decode (bs ++ [b]) = be_decode bs * 256 + byte_to_Z b.
Proof. unfold be_decode. by rewrite fold_left_app. Qed.

Lemma length_be_encode n v : length (be_encode n v) = n.
Proof.
  revert v. induction n as [|n IH]; intros v; simpl; [done|].
  rewrite length_app, IH. simpl. lia.
Qed.

Lemma be_decode_encode_mod n v : be_decode (be_encode n v) = v mod 256 ^ Z.of_nat n.
Proof.
  revert v. induction n as [|n IH]; intros v.
  - simpl. by rewrite Z.mod_1_r.
  - cbn [be_encode]. rewrite be_decode_snoc, IH, byte_to_of_Z.
    rewrite Nat2Z.inj_succ, Z.pow_succ_r by lia.
    rewrite Z.rem_mul_r by lia. lia.
Qed.

Lemma be_decode_encode n v :
  0 ≤ v < 256 ^ Z.of_nat n → be_decode (be_encode n v) = v.
Proof. intros Hv. rewrite be_decode_encode_mod. by apply Z.mod_small. Qed.

(** ** [struct]: unpacking a packed buffer *)

Lemma length_pack_code c v : struct.fits c v → length (struct.pack_code c v) = struct.size c.
Proof.
  destruct c, v; cbn [struct.fits struct.pack_code];
    try done; intros _; apply length_be_encode.
Qed.

Lemma unpack_pack_code c v :
  struct.fits c v → struct.unpack_code c (struct.pack_code c v) = v.
Proof.
  destruct c, v; cbn [struct.fits struct.pack_code struct.unpack_code];
    try done; intros Hv; f_equal; by apply be_decode_encode.
Qed.

Lemma length_pack_codes cs vs :
  Forall2 struct.fits cs vs →
  length (struct.pack_codes cs vs) = struct.calcsize_codes cs.
Proof.
  induction 1 as [|c v cs vs Hv _ IH]; simpl; [done|].
  by rewrite length_app, length_pack_code, IH.
Qed.

Lemma unpack_pack_codes cs vs :
  Forall2 struct.fits cs vs →
  struct.unpack_codes cs (struct.pack_codes cs vs) = vs.
Proof.
  induction 1 as [|c v cs vs Hv _ IH]; simpl; [done|].
  rewrite take_app_length', drop_app_length' by (symmetry; by apply length_pack_code).
  by rewrite unpack_pack_code, IH.
Qed.

Lemma unpack_pack fmt cs vs :
  struct.parse fmt = Some cs →
  Forall2 struct.fits cs vs →
  struct.unpack fmt (struct.pack_codes cs vs) = Ok vs.
Proof.
  intros Hp Hvs. unfold struct.unpack. rewrite Hp.
  rewrite bool_decide_eq_true_2 by by apply length_pack_codes.
  by rewrite unpack_pack_codes.
Qed.

Lemma DECODERS_unknown record_type :
  ¬ recognized record_type → DECODERS !! record_type = None.
Proof.
  unfold recognized, DECODERS. rewrite !elem_of_cons, elem_of_nil. intros Hn.
  rewrite !lookup_insert_ne by (intros <-; naive_solver).
  apply lookup_empty.
Qed.

(** C8.  A record type outside the recognized set decodes, whatever the
    buffer, to an [Unknown] holding that type and that buffer unchanged;
    nothing is raised. *)
Theorem decode_record_unknown (record_type : Z) (buf : list byte) :
  ¬ recognized record_type →
  decode_record record_type buf = Ok (Unknown record_type buf).
Proof.
  intros Hn. unfold decode_record. by rewrite DECODERS_unknown.
Qed.

Lemma decode_record_unknown_witness :
  ¬ recognized 3 ∧ decode_record 3 [x00; xff; x10] = Ok (Unknown 3 [x00; xff; x10]).
Proof.
  assert (Hn : ¬ recognized 3) by compute_done.
  split; [exact Hn|]. apply (decode_record_unknown 3 [x00; xff; x10] Hn).
Defined.

(** ** Decoding hand-built payloads *)

Lemma Forall2_fits_cons_inv c cs vs :
  Forall2 struct.fits (c :: cs) vs →
  ∃ v vs', vs = v :: vs' ∧ struct.fits c v ∧ Forall2 struct.fits cs vs'.
Proof. intros H. inversion H; subst. eauto. Qed.

Lemma fits_int c v :
  struct.fits c v → (∀ n, c ≠ struct.s n) → ∃ z, v = VInt z.
Proof. destruct c, v; simpl; try done; eauto. intros _ Hc. by destruct (Hc n). Qed.

Lemma fits_bytes n v :
  struct.fits (struct.s n) v → ∃ bs, v = VBytes bs ∧ length bs = n.
Proof. destruct v; simpl; try done; eauto. Qed.

Ltac eval_codes H :=
  match type of H with
  | Forall2 _ ?cs _ => let cs' := eval vm_compute in cs in change cs with cs' in H
  end.

Ltac invert_fits :=
  repeat match goal with
  | H : Forall2 struct.fits (_ :: _) _ |- _ =>
      apply Forall2_fits_cons_inv in H as (? & ? & -> & ? & H)
  | H : Forall2 struct.fits [] _ |- _ => apply Forall2_nil_inv_l in H as ->
  end;
  repeat match goal with
  | H : struct.fits (struct.s _) _ |- _ => apply fits_bytes in H as (? & -> & H)
  | H : struct.fits _ _ |- _ => apply fits_int in H as [? ->]; [|done]
  end.

Lemma decode_event_build record_type fields cs vals :
  DECODERS !! record_type = Some (AbstractDecoder.__init__ EventDecoder fields) →
  struct.parse (AbstractDecoder.format (AbstractDecoder.__init__ EventDecoder fields))
  = Some cs →
  Forall2 struct.fits cs vals →
  decode_record record_type (struct.pack_codes cs vals)
  = Ok (Event__init__ (zip fields vals)).
Proof.
  intros Hd Hp Hvals. unfold decode_record. rewrite Hd.
  unfold AbstractDecoder.decode. cbn [AbstractDecoder.class AbstractDecoder.__init__].
  by erewrite unpack_pack.
Qed.

Lemma decode_rest_build record_type class fields cs vals trailing :
  DECODERS !! record_type = Some (AbstractDecoder.__init__ class fields) →
  class ≠ EventDecoder →
  struct.parse (AbstractDecoder.format (AbstractDecoder.__init__ class fields))
  = Some cs →
  struct.calcsize_codes cs
  = AbstractDecoder.fixed_len (AbstractDecoder.__init__ class fields) →
  Forall2 struct.fits cs vals →
  decode_record record_type (struct.pack_codes cs vals ++ trailing)
  = Ok (match class with
        | ExtraDataDecoder => ExtraData__init__ vals {["data" := VBytes trailing]}
        | _ => Packet__init__ vals {["data" := VBytes trailing]}
        end).
Proof.
  intros Hd Hc Hp Hlen Hvals. unfold decode_record. rewrite Hd.
  unfold AbstractDecoder.decode.
  rewrite <- Hlen, <- (length_pack_codes cs vals) by done.
  rewrite take_app_length, drop_app_length.
  destruct class; [done|..];
    cbn [AbstractDecoder.class AbstractDecoder.__init__];
    by erewrite unpack_pack.
Qed.

Lemma dom_set_fields pairs d :
  dom (set_fields pairs d) = list_to_set (names pairs) ∪ dom d.
Proof.
  revert d. induction pairs as [|[f v] pairs IH]; intros d.
  - simpl. set_solver.
  - unfold set_fields. cbn [fold_left]. fold (set_fields pairs (<[Field.name f := v]> d)).
    rewrite IH, dom_insert_L. unfold names. rewrite fmap_cons. set_solver.
Qed.

Lemma dom_Event__init__ pairs :
  dom (dict_of (Event__init__ pairs)) = list_to_set (names pairs) ∪ EVENT_KEYS.
Proof.
  unfold Event__init__. cbn [dict_of].
  rewrite dom_set_fields, !dom_insert_L, dom_empty_L. unfold EVENT_KEYS. set_solver.
Qed.

Lemma dom_Packet__init__ vals kwargs :
  dom (dict_of (Packet__init__ vals kwargs))
  = dom kwargs ∪ list_to_set (names (zip PACKET_FIELDS vals)).
Proof.
  unfold Packet__init__, update. cbn [dict_of].
  rewrite dom_union_L, dom_set_fields, dom_empty_L. set_solver.
Qed.

Lemma dom_ExtraData__init__ vals kwargs :
  dom (dict_of (ExtraData__init__ vals kwargs))
  = dom kwargs ∪ list_to_set (names (zip EXTRA_DATA_FIELDS vals)).
Proof.
  unfold ExtraData__init__, update. cbn [dict_of].
  rewrite dom_union_L, dom_set_fields, dom_empty_L. set_solver.
Qed.

Ltac solve_field_lookups i Hf Hv :=
  repeat first
    [ exfalso; vm_compute in Hf; discriminate
    | destruct i as [|i];
      [vm_compute in Hf, Hv; simplify_eq; vm_compute; reflexivity|] ].

Ltac solve_names_eq :=
  apply set_eq; intros ?;
  rewrite ?elem_of_union, ?elem_of_list_to_set, ?elem_of_singleton;
  repeat match goal with
  | |- context [names ?l] =>
      let l' := eval vm_compute in (names l) in change (names l) with l'
  | |- context [Field.name <$> ?l] =>
      let l' := eval vm_compute in (Field.name <$> l) in
      change (Field.name <$> l) with l'
  end;
  rewrite !elem_of_cons, !elem_of_nil; tauto.

Ltac absurd_type H :=
  exfalso; revert H; unfold is_event_type, is_v2_type;
  rewrite ?elem_of_cons, ?elem_of_nil; vm_compute; naive_solver.

(** Decoding a payload packed by the codes of the format of the decoder
    itself. *)
Lemma decode_build_payload (record_type : Z) (vals : list value) (trailing : list byte) :
  recognized record_type →
  Forall2 struct.fits (codes_of record_type) vals →
  (is_event_type record_type → trailing = []) →
  ∃ r, decode_record record_type (build_payload record_type vals trailing) = Ok r ∧
       class_of record_type r ∧
       (∀ i f v, fields_of record_type !! i = Some f → vals !! i = Some v →
                 dict_of r !! Field.name f = Some v) ∧
       (¬ is_event_type record_type →
          dict_of r !! "data" = Some (VBytes trailing) ∧
          dom (dict_of r) = list_to_set (Field.name <$> fields_of record_type)) ∧
       (is_event_type record_type →
          dict_of r !! "packets" = Some (VList []) ∧
          dict_of r !! "extra-data" = Some (VList []) ∧
          dom (dict_of r)
          = list_to_set (Field.name <$> fields_of record_type) ∪ EVENT_KEYS ∧
          ∃ src dst,
            dict_of r !! "ip-source" = Some (VBytes src) ∧
            dict_of r !! "ip-destination" = Some (VBytes dst) ∧
            length src = addr_len record_type ∧
            length dst = addr_len record_type) ∧
       (is_event_type record_type → ¬ is_v2_type record_type →
          dict_of r !! "mpls-label" = Some VNone ∧
          dict_of r !! "vlan-id" = Some VNone) ∧
       (is_v2_type record_type →
          ∃ mpls vlan,
            vals !! 17%nat = Some (VInt mpls) ∧ vals !! 18%nat = Some (VInt vlan) ∧
            dict_of r !! "mpls-label" = Some (VInt mpls) ∧
            dict_of r !! "vlan-id" = Some (VInt vlan)).
Proof.
  unfold recognized. rewrite !elem_of_cons, !elem_of_nil.
  intros [->|[->|[->|[->|[->|[->|[]]]]]]] Hvals Htr.
  1-4: rewrite Htr by (unfold is_event_type; rewrite !elem_of_cons; auto);
       unfold build_payload; rewrite app_nil_r.
  1-4: eexists; split; [by eapply decode_event_build|].
  5: eexists; split;
       [by eapply (decode_rest_build PACKET PacketDecoder PACKET_FIELDS)|].
  6: eexists; split;
       [by eapply (decode_rest_build EXTRA_DATA ExtraDataDecoder EXTRA_DATA_FIELDS)|].
  all: eval_codes Hvals; invert_fits.
  all: split; [done|].
  all: split; [intros i f v Hf Hv; solve_field_lookups i Hf Hv|].
  (* the events *)
  1-4: split; [intros Hn; absurd_type Hn|].
  1-4: split;
    [intros _; split; [vm_compute; reflexivity|];
               split; [vm_compute; reflexivity|];
               split; [rewrite dom_Event__init__; do 2 f_equal;
                       vm_compute; reflexivity|];
               eexists _, _; split; [reflexivity|]; split; [reflexivity|];
               split; assumption|].
  1-2: split; [intros _ _; split; vm_compute; reflexivity|intros Hn; absurd_type Hn].
  1-2: split; [intros _ Hn; absurd_type Hn|].
  1-2: intros _; eexists _, _; split; [reflexivity|]; split; [reflexivity|];
       split; vm_compute; reflexivity.
  (* the packet and the extra data *)
  1: split; [intros _; split; [vm_compute; reflexivity|];
             rewrite dom_Packet__init__, dom_singleton_L;
             solve_names_eq|].
  2: split; [intros _; split; [vm_compute; reflexivity|];
             rewrite dom_ExtraData__init__, dom_singleton_L;
             solve_names_eq|].
  all: split; [intros Hn; absurd_type Hn|].
  all: split; [intros Hn; absurd_type Hn|].
  all: intros Hn; absurd_type Hn.
Qed.

(** The layouts on the wire against the formats of the decoders. *)
Lemma wire_pack layout codes vals :
  mapM wire_code layout = Some codes →
  Forall2 wire_fits layout vals →
  Forall2 struct.fits codes vals ∧
  concat (zip_with wire_bytes layout vals) = struct.pack_codes codes vals.
Proof.
  intros Hcodes Hvals. revert codes Hcodes.
  induction Hvals as [|w v layout vals Hfit _ IH]; intros codes Hcodes.
  - injection Hcodes as <-. by split; [constructor|].
  - rewrite mapM_Some in Hcodes. apply Forall2_cons_inv_l in Hcodes
      as (c & codes' & Hc & Hcodes & ->).
    rewrite <- mapM_Some in Hcodes. destruct (IH codes' Hcodes) as [Hfits Hpack].
    assert (Hone : struct.fits c v ∧ wire_bytes w v = struct.pack_code c v).
    { destruct w as [name [|[|[|[|[|width]]]]]|name width]; simplify_eq/=;
        destruct v; try done. }
    destruct Hone as [Hfitc Hbytes]. split; [by constructor|].
    cbn [zip_with concat struct.pack_codes]. by rewrite Hbytes, Hpack.
Qed.

Lemma wire_length layout vals :
  Forall2 wire_fits layout vals →
  length (concat (zip_with wire_bytes layout vals))
  = foldr (λ w n, wire_width w + n)%nat 0%nat layout.
Proof.
  induction 1 as [|w v layout vals Hfit _ IH]; [done|].
  cbn [zip_with concat foldr]. rewrite length_app, IH. f_equal.
  destruct w, v; cbn [wire_bytes wire_width wire_fits] in *; try done.
  apply length_be_encode.
Qed.

Lemma wire_lookup record_type extra i w :
  Field.name <$> fields_of record_type = (wire_name <$> wire_layout record_type) ++ extra →
  wire_layout record_type !! i = Some w →
  ∃ f, fields_of record_type !! i = Some f ∧ Field.name f = wire_name w.
Proof.
  intros Hnames Hw.
  assert (Hi : (Field.name <$> fields_of record_type) !! i = Some (wire_name w)).
  { rewrite Hnames. apply lookup_app_l_Some. by rewrite list_lookup_fmap, Hw. }
  rewrite list_lookup_fmap in Hi.
  destruct (fields_of record_type !! i) as [f|]; [|done].
  injection Hi as Hi. by exists f.
Qed.

Example be_encode_big_endian :
  be_encode 4 16909060 = [x01; x02; x03; x04] ∧ be_decode [x01; x02; x03; x04] = 16909060.
Proof. split; reflexivity. Qed.


(** ** The aggregator *)

Lemma packets_of_wf d : Event_wf d → d !! "packets" = Some (VList (packets_of d)).
Proof. intros [[l Hl] _]. unfold packets_of. by rewrite Hl. Qed.

Lemma extra_data_of_wf d : Event_wf d → d !! "extra-data" = Some (VList (extra_data_of d)).
Proof. intros [_ [l Hl]]. unfold extra_data_of. by rewrite Hl. Qed.

Lemma completed_nil d : Event_wf d → completed d [] = d.
Proof.
  intros Hd. unfold completed. rewrite !filter_nil, !app_nil_r.
  rewrite (insert_id d "packets") by by apply packets_of_wf.
  apply insert_id. by apply extra_data_of_wf.
Qed.

Lemma completed_wf d rest : Event_wf (completed d rest).
Proof.
  unfold completed. split; eexists.
  - rewrite lookup_insert_ne by done. apply lookup_insert_eq.
  - apply lookup_insert_eq.
Qed.

Lemma append_packet_wf d r :
  Event_wf d →
  ∃ d', list_append "packets" r d = Ok d' ∧ Event_wf d' ∧
        packets_of d' = packets_of d ++ [r] ∧ extra_data_of d' = extra_data_of d ∧
        ∀ l, <["packets" := l]> d' = <["packets" := l]> d.
Proof.
  intros Hd. unfold list_append. rewrite (packets_of_wf d Hd). eexists. split; [done|].
  split; [|split; [|split]].
  - destruct Hd as [_ [l Hl]].
    split; eexists; [apply lookup_insert_eq|by rewrite lookup_insert_ne].
  - unfold packets_of at 1. by rewrite lookup_insert_eq.
  - unfold extra_data_of. by rewrite lookup_insert_ne.
  - intros l. apply insert_insert_eq.
Qed.

Lemma append_extra_data_wf d r :
  Event_wf d →
  ∃ d', list_append "extra-data" r d = Ok d' ∧ Event_wf d' ∧
        packets_of d' = packets_of d ∧ extra_data_of d' = extra_data_of d ++ [r] ∧
        ∀ l1 l2, <["extra-data" := l1]> (<["packets" := l2]> d')
                 = <["extra-data" := l1]> (<["packets" := l2]> d).
Proof.
  intros Hd. unfold list_append. rewrite (extra_data_of_wf d Hd). eexists. split; [done|].
  split; [|split; [|split]].
  - destruct Hd as [[l Hl] _].
    split; eexists; [by rewrite lookup_insert_ne|apply lookup_insert_eq].
  - unfold packets_of. by rewrite lookup_insert_ne.
  - unfold extra_data_of at 1. by rewrite lookup_insert_eq.
  - intros l1 l2. rewrite (insert_insert_ne _ "packets" "extra-data") by done.
    by rewrite insert_insert_eq.
Qed.

(** On a well-formed event followed by records that are not events, the
    loop of [flush] empties the queue and returns the completed event. *)
Lemma flush_loop_completed d rest :
  Event_wf d → Forall (λ r, isinstance_Event r = false) rest →
  Aggregator.flush_loop d rest = (Ok (Event (completed d rest)), []).
Proof.
  intros Hd Hrest. revert d Hd.
  induction Hrest as [|r rest Hr _ IH]; intros d Hd.
  - simpl. by rewrite completed_nil.
  - cbn [Aggregator.flush_loop]. rewrite Hr.
    destruct r as [e|p|x|t b]; [done|..]; cbn [isinstance_Packet isinstance_ExtraData].
    + destruct (append_packet_wf d (Packet p) Hd) as (d' & -> & Hd' & Hp & Hx & Hi).
      rewrite IH by done. unfold completed.
      rewrite Hp, Hx, Hi, !filter_cons. repeat case_decide; try done.
      by rewrite <- app_assoc.
    + destruct (append_extra_data_wf d (ExtraData x) Hd) as (d' & -> & Hd' & Hp & Hx & Hi).
      rewrite IH by done. unfold completed.
      rewrite Hp, Hx, Hi, !filter_cons. repeat case_decide; try done.
      by rewrite <- app_assoc.
    + rewrite IH by done. unfold completed.
      rewrite !filter_cons. by repeat case_decide.
Qed.

Lemma flush_completed d rest :
  Event_wf d → Forall (λ r, isinstance_Event r = false) rest →
  Aggregator.flush (Event d :: rest) = (Ok (Some (Event (completed d rest))), []).
Proof.
  intros Hd Hrest. unfold Aggregator.flush. by rewrite flush_loop_completed.
Qed.

(** The loop of [flush] skips a record of unknown type. *)
Lemma flush_loop_unknown d pre t b post :
  (Aggregator.flush_loop d (pre ++ Unknown t b :: post)).1
  = (Aggregator.flush_loop d (pre ++ post)).1.
Proof.
  revert d. induction pre as [|r pre IH]; intros d; [done|].
  cbn [app Aggregator.flush_loop].
  destruct (isinstance_Event r); [done|].
  destruct (isinstance_Packet r); [by destruct (list_append _ _ _)|].
  destruct (isinstance_ExtraData r); [by destruct (list_append _ _ _)|].
  apply IH.
Qed.

(** [flush] never fails an assertion on a queue that satisfies the
    invariant. *)
Lemma flush_loop_no_assert d rest :
  Forall (λ r, isinstance_Event r = false) rest →
  (Aggregator.flush_loop d rest).1 ≠ Raise AssertionError.
Proof.
  intros Hrest. revert d. induction Hrest as [|r rest Hr _ IH]; intros d; [done|].
  cbn [Aggregator.flush_loop]. rewrite Hr.
  destruct (isinstance_Packet r).
  { unfold list_append. destruct (d !! "packets") as [[]|]; first [apply IH|done]. }
  destruct (isinstance_ExtraData r).
  { unfold list_append. destruct (d !! "extra-data") as [[]|]; first [apply IH|done]. }
  apply IH.
Qed.

Lemma flush_no_assert queue :
  queue_inv queue → (Aggregator.flush queue).1 ≠ Raise AssertionError.
Proof.
  destruct queue as [|head rest]; [done|]. intros [Hhead Hrest].
  destruct head as [d| | |]; try done.
  unfold Aggregator.flush.
  pose proof (flush_loop_no_assert d rest Hrest) as Hn.
  destruct (Aggregator.flush_loop d rest) as [[ev|e] q]; simpl in *; [done|].
  by intros [= ->].
Qed.

(** A raise leaves the loop of [flush] with what was behind the record at
    fault, a return with the empty queue. *)
Lemma flush_loop_queue d rest :
  match Aggregator.flush_loop d rest with
  | (Ok _, queue) => queue = []
  | (Raise _, queue) => ∃ pre, rest = pre ++ queue
  end.
Proof.
  revert d. induction rest as [|r rest IH]; intros d; [done|].
  cbn [Aggregator.flush_loop].
  assert (Hstep : ∀ d', match Aggregator.flush_loop d' rest with
                        | (Ok _, queue) => queue = []
                        | (Raise _, queue) => ∃ pre, r :: rest = pre ++ queue
                        end).
  { intros d'. specialize (IH d').
    destruct (Aggregator.flush_loop d' rest) as [[] queue]; [done|].
    destruct IH as [pre ->]. by exists (r :: pre). }
  destruct (isinstance_Event r); [by exists [r]|].
  destruct (isinstance_Packet r).
  { destruct (list_append _ _ _); [apply Hstep|by exists [r]]. }
  destruct (isinstance_ExtraData r).
  { destruct (list_append _ _ _); [apply Hstep|by exists [r]]. }
  apply Hstep.
Qed.

Lemma flush_ok_queue queue event queue' :
  Aggregator.flush queue = (Ok event, queue') → queue' = [].
Proof.
  destruct queue as [|[d| | |] rest]; simpl; try congruence.
  pose proof (flush_loop_queue d rest) as Hq.
  destruct (Aggregator.flush_loop d rest) as [[] ?]; congruence.
Qed.

(** [add] keeps the queue invariant whenever it returns. *)
Lemma add_queue_inv rcd queue event queue' log :
  queue_inv queue →
  Aggregator.add rcd queue = (Ok event, queue', log) →
  queue_inv queue'.
Proof.
  intros Hinv. unfold Aggregator.add.
  destruct (isinstance_Event rcd) eqn:Hr.
  - destruct queue as [|head rest].
    + intros [= <- <- <-]. by split.
    + destruct (Aggregator.flush (head :: rest)) as [[ev|e] q] eqn:Hf; [|done].
      intros [= <- <- <-]. apply flush_ok_queue in Hf as ->. by split.
  - destruct queue as [|head rest]; intros [= <- <- <-]; [done|].
    destruct Hinv as [Hhead Hrest]. split; [done|].
    apply Forall_app. split; [done|]. by apply Forall_singleton.
Qed.

Lemma add_no_assert rcd queue :
  queue_inv queue → (Aggregator.add rcd queue).1.1 ≠ Raise AssertionError.
Proof.
  intros Hinv. unfold Aggregator.add.
  destruct (isinstance_Event rcd); destruct queue as [|head rest]; try done.
  pose proof (flush_no_assert (head :: rest) Hinv) as Hn.
  destruct (Aggregator.flush (head :: rest)) as [[ev|e] q]; simpl in *; [done|exact Hn].
Qed.

Lemma add_all_queue_inv records queue events queue' :
  queue_inv queue →
  Aggregator.add_all records queue = Some (events, queue') →
  queue_inv queue'.
Proof.
  revert queue events. induction records as [|r records IH]; intros queue events Hinv.
  - by intros [= <- <-].
  - cbn [Aggregator.add_all].
    destruct (Aggregator.add r queue) as [[[ev|e] q] log] eqn:Ha; [|done].
    destruct (Aggregator.add_all records q) as [[evs q']|] eqn:Hall; [|done].
    intros [= <- <-]. eapply IH; [|done]. by eapply add_queue_inv.
Qed.

(** With well-formed events nothing is ever raised. *)
Lemma add_wf rcd queue :
  queue_inv queue → Forall record_wf queue → record_wf rcd →
  ∃ event queue' log,
    Aggregator.add rcd queue = (Ok event, queue', log) ∧ Forall record_wf queue'.
Proof.
  intros Hinv Hwf Hr. unfold Aggregator.add.
  destruct (isinstance_Event rcd) eqn:Hev.
  - destruct queue as [|[d| | |] rest]; try (by destruct Hinv).
    + do 3 eexists. split; [done|]. by apply Forall_singleton.
    + destruct Hinv as [_ Hrest]. apply Forall_cons in Hwf as [Hd _].
      rewrite flush_completed by done.
      do 3 eexists. split; [done|]. by apply Forall_singleton.
  - destruct queue as [|head rest]; do 3 eexists; (split; [done|]); [done|].
    apply Forall_app. split; [done|]. by apply Forall_singleton.
Qed.

Lemma add_all_wf records queue :
  queue_inv queue → Forall record_wf queue → Forall record_wf records →
  is_Some (Aggregator.add_all records queue).
Proof.
  intros Hinv Hwf Hrs. revert queue Hinv Hwf.
  induction Hrs as [|r records Hr _ IH]; intros queue Hinv Hwf; [done|].
  cbn [Aggregator.add_all].
  destruct (add_wf r queue Hinv Hwf Hr) as (ev & q & log & Ha & Hq). rewrite Ha.
  destruct (IH q) as [[evs q'] ->]; [by eapply add_queue_inv|done|done].
Qed.

Lemma packets_of_completed d rest :
  packets_of (completed d rest)
  = packets_of d ++ filter (λ r, isinstance_Packet r = true) rest.
Proof.
  unfold completed, packets_of at 1.
  rewrite lookup_insert_ne by done. by rewrite lookup_insert_eq.
Qed.

Lemma extra_data_of_completed d rest :
  extra_data_of (completed d rest)
  = extra_data_of d ++ filter (λ r, isinstance_ExtraData r = true) rest.
Proof. unfold completed, extra_data_of at 1. by rewrite lookup_insert_eq. Qed.

Lemma completed_lookup_ne d rest k :
  k ≠ "packets" → k ≠ "extra-data" → completed d rest !! k = d !! k.
Proof. intros Hp Hx. unfold completed. by rewrite !lookup_insert_ne. Qed.

(** C5.  [Aggregator.add]: an event arriving at a non-empty queue returns
    the completed previous event and starts a new queue headed by the new
    event; an event arriving at an empty queue is enqueued and nothing is
    returned; a record that is not an event is appended to a non-empty
    queue, and discarded with a warning at an empty queue, nothing being
    returned either way.  [Aggregator.flush] appends the queued packets to
    the ["packets"] list and the queued extra data to the ["extra-data"]
    list of the head event, each in arrival order, and changes no other
    key.  Feeding [Event A; Packet p1; ExtraData e1; Packet p2; Event B]
    returns, at the last call, A with packets [p1; p2] and extra data
    [e1], and leaves B queued. *)
Theorem Aggregator_add_flush :
  (∀ e d rest,
     Event_wf d → Forall (λ r, isinstance_Event r = false) rest →
     Aggregator.add (Event e) (Event d :: rest)
     = (Ok (Some (Event (completed d rest))), [Event e], [])) ∧
  (∀ e, Aggregator.add (Event e) [] = (Ok None, [Event e], [])) ∧
  (∀ r head rest,
     isinstance_Event r = false →
     Aggregator.add r (head :: rest) = (Ok None, head :: rest ++ [r], [])) ∧
  (∀ r,
     isinstance_Event r = false →
     Aggregator.add r [] = (Ok None, [], [Aggregator.DISCARD_WARNING])) ∧
  (∀ d rest,
     Event_wf d → Forall (λ r, isinstance_Event r = false) rest →
     Aggregator.flush (Event d :: rest) = (Ok (Some (Event (completed d rest))), []) ∧
     packets_of (completed d rest)
     = packets_of d ++ filter (λ r, isinstance_Packet r = true) rest ∧
     extra_data_of (completed d rest)
     = extra_data_of d ++ filter (λ r, isinstance_ExtraData r = true) rest ∧
     ∀ k, k ≠ "packets" → k ≠ "extra-data" → completed d rest !! k = d !! k) ∧
  (∀ a p1 e1 p2 b,
     a !! "packets" = Some (VList []) → a !! "extra-data" = Some (VList []) →
     Aggregator.add_all [Event a; Packet p1; ExtraData e1; Packet p2; Event b] []
     = Some ([None; None; None; None;
              Some (Event (<["extra-data" := VList [ExtraData e1]]> (
                           <["packets" := VList [Packet p1; Packet p2]]> a)))],
             [Event b])).
Proof.
  split; [|split; [|split; [|split; [|split]]]].
  - intros e d rest Hd Hrest. unfold Aggregator.add. cbn [isinstance_Event].
    by rewrite flush_completed.
  - done.
  - intros r head rest Hr. unfold Aggregator.add. by rewrite Hr.
  - intros r Hr. unfold Aggregator.add. by rewrite Hr.
  - intros d rest Hd Hrest. split; [by apply flush_completed|].
    split; [apply packets_of_completed|].
    split; [apply extra_data_of_completed|].
    intros k. apply completed_lookup_ne.
  - intros a p1 e1 p2 b Hp Hx.
    assert (Hwf : Event_wf a) by (split; eauto).
    cbn [Aggregator.add_all Aggregator.add isinstance_Event app].
    rewrite flush_completed; [|done|by repeat constructor].
    unfold completed, packets_of, extra_data_of. rewrite Hp, Hx.
    rewrite !filter_cons, filter_nil. by repeat case_decide.
Qed.

Lemma Aggregator_add_flush_witness :
  let a : gmap string value := dict_of (Event__init__ []) in
  let b : gmap string value := <["event-id" := VInt 2]> a in
  let p1 : gmap string value := {["data" := VBytes [x01]]} in
  let e1 : gmap string value := {["data" := VBytes [x02]]} in
  let p2 : gmap string value := {["data" := VBytes [x03]]} in
  Aggregator.add_all [Event a; Packet p1; ExtraData e1; Packet p2; Event b] []
  = Some ([None; None; None; None;
           Some (Event (<["extra-data" := VList [ExtraData e1]]> (
                        <["packets" := VList [Packet p1; Packet p2]]> a)))],
          [Event b]).
Proof.
  intros a b p1 e1 p2.
  apply (proj2 (proj2 (proj2 (proj2 (proj2 Aggregator_add_flush))))); reflexivity.
Defined.

(** C9, amended.  Whenever the calls of a sequence of [Aggregator.add]
    calls, started on the empty queue, have all returned, the queue is
    empty or is an event followed by records that are not events; on such
    a queue neither [flush] nor a further [add] fails an assertion.  When
    the events fed are well formed (their ["packets"] and ["extra-data"]
    keys hold lists, as [Event.__init__] leaves them), no call raises at
    all, so that this holds after every call. *)
Theorem Aggregator_queue_invariant (records : list record) :
  (∀ events queue,
     Aggregator.add_all records Aggregator.__init__ = Some (events, queue) →
     queue_inv queue ∧
     (Aggregator.flush queue).1 ≠ Raise AssertionError ∧
     ∀ r, (Aggregator.add r queue).1.1 ≠ Raise AssertionError) ∧
  (Forall record_wf records →
     is_Some (Aggregator.add_all records Aggregator.__init__)).
Proof.
  split.
  - intros events queue Hall.
    assert (Hinv : queue_inv queue)
      by (eapply add_all_queue_inv; [|exact Hall]; exact I).
    split; [done|]. split; [by apply flush_no_assert|].
    intros r. by apply add_no_assert.
  - intros Hwf. apply add_all_wf; [exact I|apply Forall_nil_2|exact Hwf].
Qed.

Lemma Aggregator_queue_invariant_witness :
  let a : gmap string value := dict_of (Event__init__ []) in
  let p : gmap string value := {["data" := VBytes [x01]]} in
  let records := [Packet p; Event a; Packet p; Unknown 1 []; Event a; ExtraData p] in
  Aggregator.add_all records Aggregator.__init__
  = Some ([None; None; None; None;
           Some (Event (<["packets" := VList [Packet p]]> a)); None],
          [Event a; ExtraData p]) ∧
  queue_inv [Event a; ExtraData p] ∧
  (Aggregator.flush [Event a; ExtraData p]).1 ≠ Raise AssertionError.
Proof.
  intros a p records.
  assert (Hall : Aggregator.add_all records Aggregator.__init__
                 = Some ([None; None; None; None;
                          Some (Event (<["packets" := VList [Packet p]]> a)); None],
                         [Event a; ExtraData p])) by (vm_compute; reflexivity).
  split; [exact Hall|].
  destruct (proj1 (Aggregator_queue_invariant records) _ _ Hall) as (Hinv & Hflush & _).
  split; [exact Hinv|exact Hflush].
Defined.

(** The claim C9 as it is stated fails once a call of [add] has raised.
    An event whose dictionary has lost its ["packets"] key is added, then
    two packets: the three calls return.  A further event is added: [add]
    calls [flush], which takes the event and the first packet off the
    queue and raises [KeyError] on appending the packet.  The queue is
    left with the second packet at its head, and the assertions of
    [flush] fail in the next [flush] and in the next [add] of an event. *)
Lemma Aggregator_queue_invariant_counterexample :
  let p : gmap string value := {["data" := VBytes [x01]]} in
  let b : gmap string value := dict_of (Event__init__ []) in
  Aggregator.add_all [Event ∅; Packet p; Packet p] Aggregator.__init__
  = Some ([None; None; None], [Event ∅; Packet p; Packet p]) ∧
  Aggregator.add (Event b) [Event ∅; Packet p; Packet p]
  = (Raise KeyError, [Packet p], []) ∧
  ¬ queue_inv [Packet p] ∧
  Aggregator.flush [Packet p] = (Raise AssertionError, []) ∧
  Aggregator.add (Event b) [Packet p] = (Raise AssertionError, [], []).
Proof.
  intros p b. split; [reflexivity|]. split; [reflexivity|].
  split; [by intros [? _]|]. split; reflexivity.
Qed.

(** C10.  [Aggregator.flush] drops a queued record of unknown type: the
    queue of an event followed by one such record yields the event
    unchanged, and anywhere in a queue the record leaves the result of
    [flush] as it would be without it; yet [add] enqueues such a record
    behind an event. *)
Theorem Aggregator_flush_drops_unknown :
  (∀ d t b,
     Aggregator.flush [Event d; Unknown t b] = (Ok (Some (Event d)), [])) ∧
  (∀ d pre t b post,
     (Aggregator.flush (Event d :: pre ++ Unknown t b :: post)).1
     = (Aggregator.flush (Event d :: pre ++ post)).1) ∧
  (∀ head rest t b,
     Aggregator.add (Unknown t b) (head :: rest)
     = (Ok None, head :: rest ++ [Unknown t b], [])).
Proof.
  split; [done|]. split; [|done].
  intros d pre t b post. unfold Aggregator.flush.
  pose proof (flush_loop_unknown d pre t b post) as Hu.
  destruct (Aggregator.flush_loop d (pre ++ Unknown t b :: post)) as [[ev1|x1] q1],
           (Aggregator.flush_loop d (pre ++ post)) as [[ev2|x2] q2];
    simpl in *; congruence.
Qed.

(** ** [read_record] *)

Lemma be_decode_nonneg bs : 0 ≤ be_decode bs.
Proof.
  induction bs as [|b bs IH] using rev_ind; [done|].
  rewrite be_decode_snoc. pose proof (byte_to_Z_range b). lia.
Qed.

Lemma set_pos_id f : File.set_pos (File.pos f) f = f.
Proof. by destruct f. Qed.

Lemma set_pos_set_pos n m f : File.set_pos n (File.set_pos m f) = File.set_pos n f.
Proof. done. Qed.

Lemma unpack_header buf :
  length buf = HDR_LEN →
  struct.unpack ">LL" buf
  = Ok [VInt (be_decode (take 4 buf)); VInt (be_decode (take 4 (drop 4 buf)))].
Proof.
  intros Hlen. unfold struct.unpack.
  change (struct.parse ">LL") with (Some [struct.L; struct.L]).
  cbn match. by rewrite bool_decide_eq_true_2 by done.
Qed.

Lemma decode_record_not_EOFError record_type buf :
  decode_record record_type buf ≠ Raise EOFError.
Proof.
  unfold decode_record. destruct (DECODERS !! record_type) as [decoder|]; [|done].
  unfold AbstractDecoder.decode, struct.unpack.
  destruct (AbstractDecoder.class decoder);
    destruct (struct.parse _); try done; by case_bool_decide.
Qed.

Lemma header_take (avail : list byte) :
  take 4 (take HDR_LEN avail) = take 4 avail ∧
  take 4 (drop 4 (take HDR_LEN avail)) = take 4 (drop 4 avail).
Proof.
  split; [by rewrite take_take|].
  change HDR_LEN with (4 + 4)%nat.
  by rewrite <- take_drop_commute, take_take.
Qed.

(** [read_record] on an open file is [read_record_spec]. *)
Lemma read_record_open f :
  File.closed f = false → read_record f = read_record_spec f.
Proof.
  intros Hopen. unfold read_record, read_record_spec, read_record_try.
  unfold File.tell, File.read, File.seek, File.available. rewrite Hopen.
  set (avail := drop (File.pos f) (File.data f)).
  destruct (decide (avail = [])) as [Hnil|Hnil].
  { rewrite Hnil, take_nil. rewrite !bool_decide_eq_true_2 by done.
    simpl. by rewrite Nat.add_0_r, set_pos_id. }
  assert (Hbuf : take HDR_LEN avail ≠ []) by by destruct avail.
  rewrite (bool_decide_eq_false_2 (avail = [])) by done.
  rewrite (bool_decide_eq_false_2 (take HDR_LEN avail = [])) by done.
  rewrite length_take.
  destruct (decide (length avail < HDR_LEN)%nat) as [Hshort|Hlong].
  { rewrite !bool_decide_eq_true_2 by lia.
    cbn [File.closed File.set_pos]. rewrite Hopen.
    by rewrite set_pos_set_pos, set_pos_id. }
  rewrite (bool_decide_eq_false_2 (_ `min` _ < _)%nat) by lia.
  rewrite (bool_decide_eq_false_2 (length avail < _)%nat) by lia.
  rewrite unpack_header by (rewrite length_take; lia).
  cbn [File.closed File.set_pos File.pos File.data]. rewrite Hopen.
  replace (HDR_LEN `min` length avail)%nat with HDR_LEN by lia.
  rewrite (proj1 (header_take avail)), !(proj2 (header_take avail)).
  fold (header_type avail).
  set (rlen := be_decode (take 4 (drop 4 avail))).
  assert (Hrlen : 0 ≤ rlen) by apply be_decode_nonneg.
  change (Z.to_nat rlen) with (header_length avail).
  replace (drop (File.pos f + HDR_LEN) (File.data f)) with (drop HDR_LEN avail)
    by (unfold avail; by rewrite drop_drop).
  set (payload := take (header_length avail) (drop HDR_LEN avail)).
  destruct (decide (length payload < header_length avail)%nat) as [Htrunc|Hfull].
  { rewrite bool_decide_eq_true_2 by (unfold header_length in Htrunc; fold rlen in Htrunc; lia).
    rewrite bool_decide_eq_true_2 by done.
    cbn [File.closed File.set_pos]. rewrite Hopen.
    by rewrite !set_pos_set_pos, set_pos_id. }
  rewrite bool_decide_eq_false_2
    by (unfold header_length in Hfull; fold rlen in Hfull; lia).
  rewrite bool_decide_eq_false_2 by done.
  assert (Hlen : length payload = header_length avail).
  { unfold payload in *. rewrite length_take in *. lia. }
  rewrite Hlen, set_pos_set_pos.
  pose proof (decode_record_not_EOFError (header_type avail) payload) as Hne.
  destruct (decode_record (header_type avail) payload) as [r|[]]; done.
Qed.

Lemma read_record_closed f :
  File.closed f = true → read_record f = (Raise ValueError, f).
Proof. intros Hc. unfold read_record, File.tell. by rewrite Hc. Qed.

(** A record is returned only with the file moved past it, the end of
    the stream and [EOFError] only with the file as it was. *)
Lemma read_record_unchanged f outcome f' :
  read_record f = (outcome, f') →
  outcome = Ok None ∨ outcome = Raise EOFError → f' = f.
Proof.
  destruct (File.closed f) eqn:Hc.
  { rewrite read_record_closed by done. by intros [= <- <-]. }
  rewrite read_record_open by done. unfold read_record_spec.
  repeat case_bool_decide; try (by intros [= <- <-]).
  pose proof (decode_record_not_EOFError
    (header_type (File.available f))
    (take (header_length (File.available f)) (drop HDR_LEN (File.available f)))) as Hne.
  destruct (decode_record _ _) as [r|e]; intros [= <- <-]; intros [|]; try done.
  simplify_eq.
Qed.

Lemma darwin_next_default f :
  RecordReader._darwin_next f = RecordReader._default_next f.
Proof.
  unfold RecordReader._darwin_next, RecordReader._default_next.
  destruct (read_record f) as [[[r|]|e] f'] eqn:Hr; try done.
  assert (f' = f) as -> by (eapply read_record_unchanged; eauto).
  destruct (File.closed f) eqn:Hc.
  { rewrite read_record_closed in Hr by done. done. }
  unfold File.tell, File.seek. rewrite Hc. by rewrite set_pos_id.
Qed.

(** C1.  On an open file: with no byte available [read_record] returns
    [None] and leaves the file as it is; with at least one and fewer than
    8 bytes available, or with a whole header and fewer bytes behind it
    than the length the header declares, it raises [EOFError] (which is
    not the [None] of the end of the stream) with the file back at the
    position it had before the call.  Hence a second attempt starts at
    the same position and raises [EOFError] again.  [RecordReader.next] is
    [read_record], on either platform. *)
Theorem read_record_end_of_stream (f : File.t) :
  File.closed f = false →
  (File.available f = [] → read_record f = (Ok None, f)) ∧
  ((0 < length (File.available f) < HDR_LEN)%nat →
     read_record f = (Raise EOFError, f)) ∧
  ((HDR_LEN ≤ length (File.available f))%nat →
   (length (File.available f) - HDR_LEN < header_length (File.available f))%nat →
     read_record f = (Raise EOFError, f)) ∧
  (∀ f', read_record f = (Raise EOFError, f') →
     f' = f ∧ File.tell f' = File.tell f ∧
     read_record f' = (Raise EOFError, f') ∧
     (Raise EOFError : result (option record)) ≠ Ok None) ∧
  (∀ darwin_py2, RecordReader.next darwin_py2 f = read_record f).
Proof.
  intros Hopen. rewrite read_record_open by done. unfold read_record_spec.
  split; [|split; [|split; [|split]]].
  - intros Hnil. by rewrite bool_decide_eq_true_2.
  - intros Hlen. rewrite bool_decide_eq_false_2 by (intros Hnil; rewrite Hnil in Hlen; simpl in Hlen; lia).
    by rewrite bool_decide_eq_true_2 by lia.
  - intros Hhdr Hlen.
    rewrite bool_decide_eq_false_2
      by (intros Hnil; rewrite Hnil in Hhdr; unfold HDR_LEN in Hhdr; simpl in Hhdr; lia).
    rewrite bool_decide_eq_false_2 by lia.
    by rewrite bool_decide_eq_true_2 by (rewrite length_take, length_drop; lia).
  - intros f' Hr.
    assert (f' = f) as ->.
    { eapply read_record_unchanged; [|by right].
      rewrite read_record_open by done. exact Hr. }
    split; [done|]. split; [done|].
    split; [by rewrite read_record_open|]. intros [=].
  - intros [|]; unfold RecordReader.next;
      [rewrite darwin_next_default|]; unfold RecordReader._default_next;
      by rewrite read_record_open.
Qed.

Lemma read_record_end_of_stream_witness :
  let f := File.mk "snort.log"
             (build_record 7 [x01; x02; x03] ++ take 10 (build_record 2 [x01; x02; x03]))
             11 false in
  File.closed f = false ∧
  (HDR_LEN ≤ length (File.available f))%nat ∧
  (length (File.available f) - HDR_LEN < header_length (File.available f))%nat ∧
  read_record f = (Raise EOFError, f).
Proof.
  intros f.
  assert (Hopen : File.closed f = false) by reflexivity.
  assert (Hhdr : (HDR_LEN ≤ length (File.available f))%nat) by (vm_compute; lia).
  assert (Hlen : (length (File.available f) - HDR_LEN
                  < header_length (File.available f))%nat) by (vm_compute; lia).
  split; [exact Hopen|]. split; [exact Hhdr|]. split; [exact Hlen|].
  exact (proj1 (proj2 (proj2 (read_record_end_of_stream f Hopen))) Hhdr Hlen).
Defined.

(** ** Decoded records *)

Lemma set_fields_is_Some pairs (d : gmap string value) k :
  is_Some (d !! k) → is_Some (set_fields pairs d !! k).
Proof.
  revert d. induction pairs as [|[f v] pairs IH]; intros d Hk; [done|].
  unfold set_fields. cbn [fold_left fst snd].
  fold (set_fields pairs (<[Field.name f := v]> d)).
  apply IH. rewrite lookup_insert_is_Some. destruct (decide (Field.name f = k)); auto.
Qed.

Lemma truthy_lookup (d : gmap string value) k : is_Some (d !! k) → negb (bool_decide (d = ∅)) = true.
Proof.
  intros [v Hv]. rewrite bool_decide_eq_false_2; [done|].
  intros ->. by rewrite lookup_empty in Hv.
Qed.

Lemma Event__init__truthy pairs : truthy (Event__init__ pairs) = true.
Proof.
  unfold Event__init__. cbn [truthy]. apply (truthy_lookup _ "packets").
  apply set_fields_is_Some. by eexists.
Qed.

Lemma update_data_truthy data d :
  negb (bool_decide (update {["data" := data]} d = ∅)) = true.
Proof.
  apply (truthy_lookup _ "data"). unfold update. exists data.
  apply lookup_union_Some_l, lookup_singleton_eq.
Qed.

(** Whatever [decode_record] returns is true in a condition. *)
Lemma decode_record_truthy record_type buf rcd :
  decode_record record_type buf = Ok rcd → truthy rcd = true.
Proof.
  unfold decode_record. destruct (DECODERS !! record_type) as [decoder|].
  - unfold AbstractDecoder.decode.
    destruct (AbstractDecoder.class decoder);
      destruct (struct.unpack _ _) as [parts|]; simpl; intros [= <-].
    + apply Event__init__truthy.
    + apply update_data_truthy.
    + apply update_data_truthy.
  - by intros [= <-].
Qed.

Lemma set_fields_wf pairs d :
  Event_wf d →
  Forall (λ fv, not_a_list_key (Field.name fv.1)) pairs →
  Event_wf (set_fields pairs d).
Proof.
  intros Hd Hpairs. revert d Hd.
  induction Hpairs as [|[f v] pairs [Hnp Hnx] _ IH]; intros d Hd; [done|].
  unfold set_fields. cbn [fold_left fst snd].
  fold (set_fields pairs (<[Field.name f := v]> d)).
  apply IH. destruct Hd as [[lp Hp] [lx Hx]]. simpl in Hnp, Hnx.
  split; eexists; rewrite lookup_insert_ne by done; eauto.
Qed.

Lemma Forall_zip_fields (P : string → Prop) fields (parts : list value) :
  Forall (λ f, P (Field.name f)) fields →
  Forall (λ fv, P (Field.name fv.1)) (zip fields parts).
Proof.
  intros Hf. revert parts.
  induction Hf as [|f fields Hf _ IH]; intros [|v parts]; simpl; try done.
  by constructor.
Qed.

Lemma Event__init__wf fields parts d :
  Forall (λ f, not_a_list_key (Field.name f)) fields →
  Event__init__ (zip fields parts) = Event d → Event_wf d.
Proof.
  intros Hf [= <-]. apply set_fields_wf; [|by apply Forall_zip_fields].
  split; eexists; [by rewrite !lookup_insert_ne by done|].
  by rewrite !lookup_insert_ne by done.
Qed.

Lemma decode_wf class fields buf rcd :
  Forall (λ f, not_a_list_key (Field.name f)) fields →
  AbstractDecoder.decode (AbstractDecoder.__init__ class fields) buf = Ok rcd →
  record_wf rcd.
Proof.
  intros Hf. unfold AbstractDecoder.decode.
  cbn [AbstractDecoder.class AbstractDecoder.fields AbstractDecoder.__init__].
  destruct class; destruct (struct.unpack _ _) as [parts|];
    cbv [mbind result_bind]; intros Hr; simplify_eq; try done.
  cbn [record_wf Event__init__]. by eapply Event__init__wf.
Qed.

(** The events [decode_record] returns are well formed. *)
Lemma decode_record_wf record_type buf rcd :
  decode_record record_type buf = Ok rcd → record_wf rcd.
Proof.
  destruct (decide (recognized record_type)) as [Hr|Hr].
  - unfold recognized in Hr. rewrite !elem_of_cons, elem_of_nil in Hr.
    unfold decode_record.
    destruct Hr as [->|[->|[->|[->|[->|[->|[]]]]]]].
    + change (DECODERS !! EVENT)
        with (Some (AbstractDecoder.__init__ EventDecoder EVENT_FIELDS)).
      apply decode_wf. repeat constructor; done.
    + change (DECODERS !! EVENT_IP6)
        with (Some (AbstractDecoder.__init__ EventDecoder EVENT_IP6_FIELDS)).
      apply decode_wf. repeat constructor; done.
    + change (DECODERS !! EVENT_V2)
        with (Some (AbstractDecoder.__init__ EventDecoder EVENT_V2_FIELDS)).
      apply decode_wf. repeat constructor; done.
    + change (DECODERS !! EVENT_IP6_V2)
        with (Some (AbstractDecoder.__init__ EventDecoder EVENT_IP6_V2_FIELDS)).
      apply decode_wf. repeat constructor; done.
    + change (DECODERS !! PACKET)
        with (Some (AbstractDecoder.__init__ PacketDecoder PACKET_FIELDS)).
      apply decode_wf. repeat constructor; done.
    + change (DECODERS !! EXTRA_DATA)
        with (Some (AbstractDecoder.__init__ ExtraDataDecoder EXTRA_DATA_FIELDS)).
      apply decode_wf. repeat constructor; done.
  - unfold decode_record. rewrite DECODERS_unknown by done. by intros [= <-].
Qed.

(** ** Reading records off the wire *)

Lemma build_record_header record_type payload rest :
  0 ≤ record_type < 2 ^ 32 → Z.of_nat (length payload) < 2 ^ 32 →
  let avail := build_record record_type payload ++ rest in
  (HDR_LEN ≤ length avail)%nat ∧
  header_type avail = record_type ∧
  header_length avail = length payload ∧
  drop HDR_LEN avail = payload ++ rest.
Proof.
  intros Ht Hl avail. unfold avail, build_record, header_type, header_length.
  rewrite <- !app_assoc.
  split; [rewrite !length_app, !length_be_encode; unfold HDR_LEN; lia|].
  split; [|split].
  - rewrite take_app_length' by (symmetry; apply length_be_encode).
    by apply be_decode_encode.
  - rewrite drop_app_length' by (symmetry; apply length_be_encode).
    rewrite take_app_length' by (symmetry; apply length_be_encode).
    rewrite be_decode_encode by (change (256 ^ Z.of_nat 4) with (2 ^ 32); lia).
    apply Nat2Z.id.
  - change HDR_LEN with (4 + 4)%nat. rewrite <- drop_drop.
    by rewrite !drop_app_length' by (symmetry; apply length_be_encode).
Qed.

(** Reading a whole record: the record is returned and the file is left
    behind it. *)
Lemma read_record_parsed f record_type payload rest rcd :
  File.closed f = false →
  File.available f = build_record record_type payload ++ rest →
  0 ≤ record_type < 2 ^ 32 → Z.of_nat (length payload) < 2 ^ 32 →
  decode_record record_type payload = Ok rcd →
  ∃ f', read_record f = (Ok (Some rcd), f') ∧
        File.closed f' = false ∧ File.available f' = rest ∧
        File.name f' = File.name f ∧ File.data f' = File.data f.
Proof.
  intros Hopen Havail Ht Hl Hdec.
  destruct (build_record_header record_type payload rest Ht Hl)
    as (Hlen & Htype & Hplen & Hdrop).
  rewrite <- Havail in Hlen, Htype, Hplen, Hdrop.
  rewrite read_record_open by done. unfold read_record_spec.
  rewrite bool_decide_eq_false_2
    by (intros Hnil; rewrite Hnil in Hlen; unfold HDR_LEN in Hlen; simpl in Hlen; lia).
  rewrite bool_decide_eq_false_2 by lia.
  rewrite Htype, Hplen, Hdrop, take_app_length.
  rewrite bool_decide_eq_false_2 by lia. rewrite Hdec.
  eexists. split; [done|]. split; [done|]. split; [|done].
  unfold File.available in *. cbn [File.pos File.data File.set_pos].
  by rewrite <- Nat.add_assoc, <- drop_drop, <- drop_drop, Hdrop, drop_app_length.
Qed.

Lemma read_record_at_end f :
  File.closed f = false → File.available f = [] → read_record f = (Ok None, f).
Proof.
  intros Hopen Hnil. rewrite read_record_open by done.
  unfold read_record_spec. by rewrite bool_decide_eq_true_2.
Qed.

Lemma read_record_truncated f :
  File.closed f = false → truncated (File.available f) →
  read_record f = (Raise EOFError, f).
Proof.
  intros Hopen Htr. rewrite read_record_open by done. unfold read_record_spec.
  rewrite bool_decide_eq_false_2
    by (intros Hnil; rewrite Hnil in Htr; unfold truncated, HDR_LEN in Htr;
        simpl in Htr; lia).
  destruct Htr as [Hhdr|[Hhdr Hlen]].
  - by rewrite bool_decide_eq_true_2 by lia.
  - rewrite bool_decide_eq_false_2 by lia.
    by rewrite bool_decide_eq_true_2 by (rewrite length_take, length_drop; lia).
Qed.

(** ** [FileRecordReader] *)

Section FileReaders.
Context (darwin_py2 : bool) (fs : gmap string (list byte)).

Lemma RecordReader_next f : RecordReader.next darwin_py2 f = read_record f.
Proof.
  unfold RecordReader.next. destruct darwin_py2; [apply darwin_next_default|done].
Qed.

Lemma next_loop_unfold files f :
  FileRecordReader.next_loop darwin_py2 fs files f
  = match read_record f with
    | (Raise e, f') => (Raise e, FileRecordReader.mk files f')
    | (Ok rcd, f') =>
        if truthy_opt rcd then (Ok rcd, FileRecordReader.mk files f')
        else
          match files with
          | [] => (Ok None, FileRecordReader.mk [] f')
          | path :: files =>
              match open fs path with
              | Ok f2 => FileRecordReader.next_loop darwin_py2 fs files f2
              | Raise e => (Raise e, FileRecordReader.mk files (File.close f'))
              end
          end
    end.
Proof. destruct files; simpl; by rewrite RecordReader_next. Qed.

(** A truncated record surfaces as [EOFError]: the reader does not move
    to the next file, and is left as it was. *)
Lemma next_truncated self :
  File.closed (FileRecordReader.fileobj self) = false →
  truncated (File.available (FileRecordReader.fileobj self)) →
  FileRecordReader.next darwin_py2 fs self = (Raise EOFError, self).
Proof.
  intros Hopen Htr. unfold FileRecordReader.next.
  rewrite next_loop_unfold, read_record_truncated by done. by destruct self.
Qed.

Lemma reader_parses_intro files f records0 recordss records :
  File.closed f = false →
  parses (File.available f) records0 →
  files_parse fs files recordss →
  records = records0 ++ concat recordss →
  reader_parses fs (FileRecordReader.mk files f) records.
Proof. intros. by exists records0, recordss. Qed.

(** One call on a reader whose files parse: the first record, or [None]
    when there is none left. *)
Lemma next_parses self records :
  reader_parses fs self records →
  ∃ self',
    FileRecordReader.next darwin_py2 fs self = (Ok (head records), self') ∧
    reader_parses fs self' (tail records).
Proof.
  destruct self as [files f].
  intros (records0 & recordss & Hopen & Hp & Hfiles & ->).
  unfold FileRecordReader.next. cbn [FileRecordReader.files FileRecordReader.fileobj] in *.
  revert f records0 Hopen Hp.
  induction Hfiles as [|path records1 files recordss (data & Hdata & Hp1) Hfiles IH];
    intros f records0 Hopen Hp.
  - inversion Hp as [Havail|record_type payload rcd rest records0' Ht Hl Hdec Hrest Havail];
      subst.
    + rewrite next_loop_unfold, read_record_at_end by done. simpl.
      eexists. split; [done|].
      apply (reader_parses_intro _ _ [] []);
        [done|rewrite <- Havail; constructor|constructor|done].
    + destruct (read_record_parsed f record_type payload rest rcd)
        as (f' & Hread & Hopen' & Havail' & _); [done..|].
      rewrite next_loop_unfold, Hread. cbn [truthy_opt].
      rewrite (decode_record_truthy _ _ _ Hdec).
      eexists. split; [done|].
      apply (reader_parses_intro _ _ records0' []);
        [done|by rewrite Havail'|constructor|done].
  - inversion Hp as [Havail|record_type payload rcd rest records0' Ht Hl Hdec Hrest Havail];
      subst.
    + rewrite next_loop_unfold, read_record_at_end by done. cbn [truthy_opt].
      unfold open. rewrite Hdata.
      destruct (IH (File.mk path data 0 false) records1) as (self' & Hnext & Hself');
        [done|done|].
      exists self'. split; [|done]. by rewrite Hnext.
    + destruct (read_record_parsed f record_type payload rest rcd)
        as (f' & Hread & Hopen' & Havail' & _); [done..|].
      rewrite next_loop_unfold, Hread. cbn [truthy_opt].
      rewrite (decode_record_truthy _ _ _ Hdec).
      eexists. split; [done|].
      apply (reader_parses_intro _ _ records0' (records1 :: recordss));
        [done|by rewrite Havail'|constructor; [by exists data|done]|done].
Qed.

(** The files read as one stream: call after call returns the records of
    the files in order, then [None] for ever. *)
Lemma run_parses n self records :
  reader_parses fs self records →
  (FileRecordReader.run darwin_py2 fs n self).1 = stream n records.
Proof.
  revert self records. induction n as [|n IH]; intros self records Hself; [done|].
  destruct (next_parses self records Hself) as (self' & Hnext & Hself').
  cbn [FileRecordReader.run]. rewrite Hnext.
  specialize (IH self' (tail records) Hself').
  destruct (FileRecordReader.run darwin_py2 fs n self') as [outcomes self''].
  cbn [fst] in *. rewrite IH. unfold stream.
  destruct records as [|rcd records]; cbn [head tail fmap list_fmap length]; [|done].
  by rewrite !take_nil, !Nat.sub_0_r.
Qed.

End FileReaders.

(** ** [FileEventReader] *)

Section FileEventReaders.
Context (darwin_py2 : bool) (fs : gmap string (list byte)).

(** On files that parse, [next] returns with one turn of fuel per record
    left and one more, and does what [next_event] does on the records. *)
Lemma event_next_parses fuel self records :
  reader_parses fs (FileEventReader.reader self) records →
  (length records < fuel)%nat →
  ∃ reader',
    FileEventReader.next darwin_py2 fs fuel self
    = Some ((next_event records (FileEventReader.aggregator self)).1.1,
            FileEventReader.mk reader'
              (next_event records (FileEventReader.aggregator self)).2) ∧
    reader_parses fs reader' (next_event records (FileEventReader.aggregator self)).1.2.
Proof.
  revert self records. induction fuel as [|fuel IH]; intros [reader queue] records Hr Hfuel;
    [lia|].
  cbn [FileEventReader.reader FileEventReader.aggregator] in *.
  destruct (next_parses darwin_py2 fs reader records Hr) as (reader' & Hnext & Hr').
  cbn [FileEventReader.next FileEventReader.reader FileEventReader.aggregator].
  rewrite Hnext. destruct records as [|rcd records]; cbn [head tail next_event] in *.
  - destruct (Aggregator.flush queue) as [outcome queue']. by exists reader'.
  - assert (Htruthy : truthy rcd = true).
    { destruct Hr as (records0 & recordss & _ & Hp & Hfiles & Heq).
      clear -Hp Hfiles Heq. revert Heq.
      destruct Hp as [|? ? ? ? ? ? ? Hdec]; simpl.
      - induction Hfiles as [|path records1 files recordss (data & _ & Hp1) _ IHf];
          [done|].
        simpl. destruct Hp1 as [|? ? ? ? ? ? ? Hdec]; simpl; [done|].
        intros [= -> _]. by eapply decode_record_truthy.
      - intros [= -> _]. by eapply decode_record_truthy. }
    rewrite Htruthy.
    destruct (Aggregator.add rcd queue) as [[[event|e] queue'] log]; [|by exists reader'].
    destruct (truthy_opt event); [by exists reader'|].
    apply (IH (FileEventReader.mk reader' queue') records); [done|].
    cbn [length] in Hfuel. lia.
Qed.

(** Once the files are exhausted and the queue is empty, every call
    returns [None]. *)
Lemma event_run_exhausted fuel n reader :
  reader_parses fs reader [] → (0 < fuel)%nat →
  ∃ self', FileEventReader.run darwin_py2 fs fuel n (FileEventReader.mk reader [])
           = Some (replicate n (Ok None), self').
Proof.
  intros Hr Hfuel. revert reader Hr. induction n as [|n IH]; intros reader Hr.
  - by eexists.
  - destruct (event_next_parses fuel (FileEventReader.mk reader []) [] Hr)
      as (reader' & Hnext & Hr'); [simpl; lia|].
    cbn [next_event Aggregator.flush FileEventReader.aggregator fst snd] in Hnext, Hr'.
    destruct (IH reader' Hr') as (self' & Hrun).
    exists self'. cbn [FileEventReader.run]. rewrite Hnext. simpl. by rewrite Hrun.
Qed.

(** At the end of the files [next] flushes the queue: the event in flight
    is returned, and every later call returns [None]. *)
Lemma event_next_final_flush fuel self d rest :
  reader_parses fs (FileEventReader.reader self) [] →
  FileEventReader.aggregator self = Event d :: rest →
  Event_wf d → Forall (λ r, isinstance_Event r = false) rest →
  (0 < fuel)%nat →
  ∃ reader',
    FileEventReader.next darwin_py2 fs fuel self
    = Some (Ok (Some (Event (completed d rest))), FileEventReader.mk reader' []) ∧
    ∀ n, ∃ self', FileEventReader.run darwin_py2 fs fuel n (FileEventReader.mk reader' [])
                  = Some (replicate n (Ok None), self').
Proof.
  intros Hr Hq Hd Hrest Hfuel.
  destruct (event_next_parses fuel self [] Hr) as (reader' & Hnext & Hr'); [simpl; lia|].
  rewrite Hq in Hnext, Hr'. cbn [next_event] in Hnext, Hr'.
  rewrite flush_completed in Hnext, Hr' by done.
  exists reader'. split; [exact Hnext|].
  intros n. by apply event_run_exhausted.
Qed.

(** Two files of one event each: the two events in the order of the
    files, then [None]. *)
Lemma event_run_two_files fuel n f1 f2 t1 p1 d1 t2 p2 d2 :
  fs !! f1 = Some (build_record t1 p1) → fs !! f2 = Some (build_record t2 p2) →
  0 ≤ t1 < 2 ^ 32 → Z.of_nat (length p1) < 2 ^ 32 →
  0 ≤ t2 < 2 ^ 32 → Z.of_nat (length p2) < 2 ^ 32 →
  decode_record t1 p1 = Ok (Event d1) → decode_record t2 p2 = Ok (Event d2) →
  (3 ≤ fuel)%nat →
  ∃ self self',
    FileEventReader.__init__ fs [f1; f2] = Ok self ∧
    FileEventReader.run darwin_py2 fs fuel (2 + n) self
    = Some ([Ok (Some (Event d1)); Ok (Some (Event d2))] ++ replicate n (Ok None), self').
Proof.
  intros Hf1 Hf2 Ht1 Hl1 Ht2 Hl2 Hd1 Hd2 Hfuel.
  unfold FileEventReader.__init__, FileRecordReader.__init__, open. rewrite Hf1.
  cbv [mbind result_bind].
  set (reader := FileRecordReader.mk [f2] (File.mk f1 (build_record t1 p1) 0 false)).
  assert (Hr : reader_parses fs reader [Event d1; Event d2]).
  { apply (reader_parses_intro _ _ _ [Event d1] [[Event d2]]); [done| | |done].
    - unfold File.available. cbn [File.pos File.data]. rewrite drop_0.
      rewrite <- (app_nil_r (build_record t1 p1)).
      apply parses_cons; [done..|apply parses_nil].
    - constructor; [|constructor]. exists (build_record t2 p2). split; [done|].
      rewrite <- (app_nil_r (build_record t2 p2)).
      apply parses_cons; [done..|apply parses_nil]. }
  pose proof (decode_record_wf _ _ _ Hd1) as Hwf1.
  pose proof (decode_record_wf _ _ _ Hd2) as Hwf2.
  pose proof (decode_record_truthy _ _ _ Hd1) as Htr1.
  cbn [record_wf] in Hwf1, Hwf2.
  destruct (event_next_parses fuel (FileEventReader.mk reader Aggregator.__init__)
              [Event d1; Event d2] Hr) as (reader1 & Hnext1 & Hr1); [simpl; lia|].
  cbn [next_event Aggregator.add Aggregator.__init__ isinstance_Event truthy_opt app
       FileEventReader.aggregator] in Hnext1, Hr1.
  rewrite flush_completed, completed_nil in Hnext1, Hr1 by done.
  cbn [truthy_opt] in Hnext1, Hr1. rewrite Htr1 in Hnext1, Hr1.
  cbn [fst snd] in Hnext1, Hr1.
  destruct (event_next_final_flush fuel (FileEventReader.mk reader1 [Event d2]) d2 [])
    as (reader2 & Hnext2 & Hrun); [done..|lia|].
  rewrite completed_nil in Hnext2 by done.
  destruct (Hrun n) as (self' & Hrun').
  do 2 eexists. split; [done|].
  cbn [FileEventReader.run Nat.add]. rewrite Hnext1. simpl. rewrite Hnext2. simpl.
  by rewrite Hrun'.
Qed.

(** C6.  [FileRecordReader.next] reads its files as one stream: on files
    that hold whole records, call after call returns the records of the
    files in order, then [None] for ever.  A truncated record raises
    [EOFError] to the caller and the reader stays where it was, also when
    files are left to open.  [FileEventReader.next] flushes the aggregator
    at the end of the files, so that the event in flight is returned, and
    returns [None] from then on; with two files of one event each it
    returns the two events in the order of the files, then [None]. *)
Theorem FileReader_stream :
  (∀ self records n,
     reader_parses fs self records →
     (FileRecordReader.run darwin_py2 fs n self).1 = stream n records) ∧
  (∀ self,
     File.closed (FileRecordReader.fileobj self) = false →
     truncated (File.available (FileRecordReader.fileobj self)) →
     FileRecordReader.next darwin_py2 fs self = (Raise EOFError, self)) ∧
  (∀ fuel self d rest,
     reader_parses fs (FileEventReader.reader self) [] →
     FileEventReader.aggregator self = Event d :: rest →
     Event_wf d → Forall (λ r, isinstance_Event r = false) rest →
     (0 < fuel)%nat →
     ∃ reader',
       FileEventReader.next darwin_py2 fs fuel self
       = Some (Ok (Some (Event (completed d rest))), FileEventReader.mk reader' []) ∧
       ∀ n, ∃ self',
         FileEventReader.run darwin_py2 fs fuel n (FileEventReader.mk reader' [])
         = Some (replicate n (Ok None), self')) ∧
  (∀ fuel n f1 f2 t1 p1 d1 t2 p2 d2,
     fs !! f1 = Some (build_record t1 p1) → fs !! f2 = Some (build_record t2 p2) →
     0 ≤ t1 < 2 ^ 32 → Z.of_nat (length p1) < 2 ^ 32 →
     0 ≤ t2 < 2 ^ 32 → Z.of_nat (length p2) < 2 ^ 32 →
     decode_record t1 p1 = Ok (Event d1) → decode_record t2 p2 = Ok (Event d2) →
     (3 ≤ fuel)%nat →
     ∃ self self',
       FileEventReader.__init__ fs [f1; f2] = Ok self ∧
       FileEventReader.run darwin_py2 fs fuel (2 + n) self
       = Some ([Ok (Some (Event d1)); Ok (Some (Event d2))] ++ replicate n (Ok None),
               self')).
Proof.
  split; [|split; [|split]].
  - intros self records n. apply run_parses.
  - apply next_truncated.
  - apply event_next_final_flush.
  - apply event_run_two_files.
Qed.

End FileEventReaders.

Lemma FileReader_stream_witness :
  let p1 := replicate 52 x01 in
  let p2 := replicate 52 x02 in
  let fs : gmap string (list byte) :=
    {[ "a.log" := build_record 7 p1; "b.log" := build_record 7 p2 ]} in
  ∃ d1 d2 self self',
    decode_record 7 p1 = Ok (Event d1) ∧
    decode_record 7 p2 = Ok (Event d2) ∧
    FileEventReader.__init__ fs ["a.log"; "b.log"] = Ok self ∧
    FileEventReader.run false fs 3 4 self
    = Some ([Ok (Some (Event d1)); Ok (Some (Event d2)); Ok None; Ok None], self').
Proof.
  intros p1 p2 fs.
  destruct (decode_record 7 p1) as [[d1| | |]|] eqn:Hd1;
    try (vm_compute in Hd1; discriminate).
  destruct (decode_record 7 p2) as [[d2| | |]|] eqn:Hd2;
    try (vm_compute in Hd2; discriminate).
  destruct (proj2 (proj2 (proj2 (FileReader_stream false fs)))
              3%nat 2%nat "a.log" "b.log" 7 p1 d1 7 p2 d2)
    as (self & self' & Hinit & Hrun);
    [reflexivity|reflexivity|lia|vm_compute; reflexivity|lia|vm_compute; reflexivity
    |exact Hd1|exact Hd2|lia|].
  exists d1, d2, self, self'. repeat split; [exact Hinit|exact Hrun].
Defined.

(** ** Decoding hand-built records *)

(** C7.  For each of the six recognized type codes, take a payload built
    by hand to the layout of the type on the wire: the values of the
    fields in order, unsigned integers of 4, 2 and 1 bytes laid down
    big-endian and addresses of 4 bytes (types 7 and 104) or 16 bytes
    (types 72 and 105), then trailing bytes (none for an event).  The
    payload has the length of the layout and of the trailing bytes;
    [decode_record] returns, and so does [read_record] on a file that
    stands at the header of the type and the length followed by the
    payload, a record of the class of the type whose dictionary maps the
    name of every field to the value laid down for it.  A packet or extra
    data holds the trailing bytes raw under ["data"] and has no other
    key.  An event has empty ["packets"] and ["extra-data"] lists and
    byte-string addresses of 4 or 16 bytes; ["mpls-label"] and
    ["vlan-id"] are [None] for types 7 and 72 and the integers laid down
    for types 104 and 105. *)
Theorem decode_record_roundtrip (record_type : Z) (vals : list value) (trailing : list byte) :
  record_type ∈ [7; 72; 104; 105; 2; 110] →
  Forall2 wire_fits (wire_layout record_type) vals →
  (record_type ∈ [7; 72; 104; 105] → trailing = []) →
  let payload := hand_built record_type vals trailing in
  length payload
  = (foldr (λ w n, wire_width w + n) 0 (wire_layout record_type) + length trailing)%nat ∧
  ∃ r, decode_record record_type payload = Ok r ∧
       (∀ f rest,
          File.closed f = false →
          File.available f = build_record record_type payload ++ rest →
          Z.of_nat (length payload) < 2 ^ 32 →
          (read_record f).1 = Ok (Some r)) ∧
       (if bool_decide (record_type = 2) then isinstance_Packet r = true
        else if bool_decide (record_type = 110) then isinstance_ExtraData r = true
        else isinstance_Event r = true) ∧
       (∀ i w v, wire_layout record_type !! i = Some w → vals !! i = Some v →
                 dict_of r !! wire_name w = Some v) ∧
       (record_type ∈ [2; 110] →
          dict_of r !! "data" = Some (VBytes trailing) ∧
          dom (dict_of r)
          = list_to_set (wire_name <$> wire_layout record_type) ∪ {["data"]}) ∧
       (record_type ∈ [7; 72; 104; 105] →
          dict_of r !! "packets" = Some (VList []) ∧
          dict_of r !! "extra-data" = Some (VList []) ∧
          dom (dict_of r)
          = list_to_set (wire_name <$> wire_layout record_type)
            ∪ {[ "extra-data"; "packets"; "mpls-label"; "vlan-id" ]} ∧
          ∃ src dst,
            dict_of r !! "ip-source" = Some (VBytes src) ∧
            dict_of r !! "ip-destination" = Some (VBytes dst) ∧
            length src = (if bool_decide (record_type ∈ [72; 105]) then 16%nat else 4%nat) ∧
            length dst = (if bool_decide (record_type ∈ [72; 105]) then 16%nat else 4%nat)) ∧
       (record_type ∈ [7; 72] →
          dict_of r !! "mpls-label" = Some VNone ∧
          dict_of r !! "vlan-id" = Some VNone) ∧
       (record_type ∈ [104; 105] →
          ∃ mpls vlan,
            vals !! 17%nat = Some (VInt mpls) ∧ vals !! 18%nat = Some (VInt vlan) ∧
            dict_of r !! "mpls-label" = Some (VInt mpls) ∧
            dict_of r !! "vlan-id" = Some (VInt vlan)).
Proof.
  intros Htype Hvals Htrailing payload.
  split; [unfold payload, hand_built; by rewrite length_app, wire_length|].
  assert (Hbridge : ∃ extra,
            recognized record_type ∧
            mapM wire_code (wire_layout record_type) = Some (codes_of record_type) ∧
            Field.name <$> fields_of record_type
            = (wire_name <$> wire_layout record_type) ++ extra ∧
            (is_event_type record_type ↔ record_type ∈ [7; 72; 104; 105]) ∧
            (is_v2_type record_type ↔ record_type ∈ [104; 105]) ∧
            (is_event_type record_type → extra = []) ∧
            (¬ is_event_type record_type → extra = ["data"]) ∧
            (0 ≤ record_type < 2 ^ 32)).
  { revert Htype. rewrite !elem_of_cons, elem_of_nil.
    intros [->|[->|[->|[->|[->|[->|[]]]]]]];
      [exists []|exists []|exists []|exists []|exists ["data"]|exists ["data"]];
      unfold recognized, is_event_type, is_v2_type;
      (split; [compute_done|]); (split; [vm_compute; reflexivity|]);
      (split; [vm_compute; reflexivity|]);
      (split; [compute_done|]); (split; [compute_done|]);
      (split; [compute_done|]); (split; [compute_done|]); lia. }
  destruct Hbridge as (extra & Hrec & Hcodes & Hnames & Hevent & Hv2 & Hextra & Hextra' & Hrange).
  destruct (wire_pack _ _ vals Hcodes Hvals) as [Hfits Hpack].
  assert (Hpayload : payload = build_payload record_type vals trailing)
    by (unfold payload, hand_built, build_payload; by rewrite Hpack).
  destruct (decode_build_payload record_type vals trailing Hrec Hfits)
    as (r & Hdec & Hclass & Hfields & Hrest & Hev & Hv1 & Hv2');
    [by rewrite Hevent|].
  exists r. rewrite Hpayload. split; [done|].
  split; [|split; [|split; [|split; [|split; [|split]]]]].
  - intros f rest Hopen Havail Hlen.
    destruct (read_record_parsed f record_type (build_payload record_type vals trailing)
                rest r Hopen Havail Hrange Hlen Hdec) as (f' & -> & _). done.
  - revert Hclass. unfold class_of, PACKET, EXTRA_DATA. done.
  - intros i w v Hw Hv.
    destruct (wire_lookup record_type extra i w Hnames Hw) as (f & Hf & <-).
    by apply (Hfields i f v).
  - intros Hpe.
    assert (Hne : ¬ is_event_type record_type).
    { rewrite Hevent. revert Hpe. rewrite !elem_of_cons, !elem_of_nil.
      intros [->|[->|[]]]; compute_done. }
    destruct (Hrest Hne) as [Hdata Hdom]. split; [done|].
    rewrite Hdom, Hnames, (Hextra' Hne), list_to_set_app_L. f_equal.
  - intros He. apply Hevent in He.
    destruct (Hev He) as (Hp & Hx & Hdom & src & dst & Hsrc & Hdst & Hls & Hld).
    split; [done|]. split; [done|]. split.
    + rewrite Hdom, Hnames, (Hextra He), app_nil_r. done.
    + exists src, dst. split; [done|]. split; [done|].
      assert (Haddr : addr_len record_type
                      = (if bool_decide (record_type ∈ [72; 105]) then 16%nat else 4%nat)).
      { unfold addr_len, is_ip6_type, EVENT_IP6, EVENT_IP6_V2. done. }
      by rewrite <- Haddr.
  - intros H1. apply Hv1.
    + apply Hevent. revert H1. rewrite !elem_of_cons, !elem_of_nil. tauto.
    + rewrite Hv2. revert H1. rewrite !elem_of_cons, !elem_of_nil.
      intros [->|[->|[]]]; intros [|[|[]]]; done.
  - intros H2. apply Hv2'. by apply Hv2.
Qed.

Lemma decode_record_roundtrip_witness :
  let vals := [VInt 1; VInt 2; VInt 3; VInt 4; VInt 5; VInt 1; VInt 2] in
  (2 : Z) ∈ [7; 72; 104; 105; 2; 110] ∧
  Forall2 wire_fits (wire_layout 2) vals ∧
  length (hand_built 2 vals [xde; xad]) = 30%nat ∧
  ∃ r, decode_record 2 (hand_built 2 vals [xde; xad]) = Ok r ∧
       dict_of r !! "linktype" = Some (VInt 1) ∧
       dict_of r !! "data" = Some (VBytes [xde; xad]).
Proof.
  intros vals.
  assert (Hr : (2 : Z) ∈ [7; 72; 104; 105; 2; 110]) by compute_done.
  assert (Hv : Forall2 wire_fits (wire_layout 2) vals)
    by (repeat constructor; simpl; lia).
  assert (Ht : (2 : Z) ∈ [7; 72; 104; 105] → [xde; xad] = []).
  { intros He. exfalso. revert He. compute_done. }
  split; [exact Hr|]. split; [exact Hv|].
  destruct (decode_record_roundtrip 2 vals [xde; xad] Hr Hv Ht)
    as (Hlen & r & Hdec & _ & _ & Hfields & Hdata & _).
  split; [exact Hlen|].
  exists r. split; [exact Hdec|]. split.
  - apply (Hfields 5%nat (UInt "linktype" 4)); reflexivity.
  - apply Hdata. compute_done.
Defined.

(** ** Paths *)

Lemma append_cons c s1 s2 : String c s1 +:+ s2 = String c (s1 +:+ s2).
Proof. done. Qed.

Lemma append_nil_r s : s +:+ "" = s.
Proof. induction s as [|c s IH]; [done|]. by rewrite append_cons, IH. Qed.

Lemma append_assoc s1 s2 s3 : (s1 +:+ s2) +:+ s3 = s1 +:+ (s2 +:+ s3).
Proof. induction s1 as [|c s1 IH]; [done|]. by rewrite !append_cons, IH. Qed.

Lemma after_last_slash_no_slash name candidate :
  no_slash name = true → after_last_slash name candidate = candidate.
Proof.
  revert candidate. induction name as [|c rest IH]; intros candidate; [done|].
  cbn [no_slash after_last_slash]. case_bool_decide; [done|]. apply IH.
Qed.

Lemma basename_no_slash name : no_slash name = true → basename name = name.
Proof. apply after_last_slash_no_slash. Qed.

Lemma after_last_slash_app head name candidate :
  after_last_slash (head +:+ String "/" name) candidate = basename name.
Proof.
  revert candidate. induction head as [|c rest IH]; intros candidate.
  - change ("" +:+ String "/" name) with (String "/" name).
    cbn [after_last_slash]. by rewrite bool_decide_eq_true_2.
  - rewrite append_cons. cbn [after_last_slash]. case_bool_decide; apply IH.
Qed.

Lemma basename_join directory name : basename (join directory name) = basename name.
Proof. apply after_last_slash_app. Qed.

Lemma no_slash_app s1 s2 :
  no_slash s1 = true → no_slash s2 = true → no_slash (s1 +:+ s2) = true.
Proof.
  intros H1 H2. induction s1 as [|c rest IH]; [done|].
  rewrite append_cons. cbn [no_slash] in *. apply andb_true_iff in H1 as [Hc Hrest].
  rewrite Hc. by apply IH.
Qed.

Lemma no_slash_after_last_slash path seen :
  no_slash seen = true → no_slash (after_last_slash path (seen +:+ path)) = true.
Proof.
  revert seen. induction path as [|c rest IH]; intros seen Hseen.
  - cbn [after_last_slash]. by rewrite append_nil_r.
  - cbn [after_last_slash]. case_bool_decide as Hc.
    + apply (IH ""). done.
    + replace (seen +:+ String c rest) with ((seen +:+ String c "") +:+ rest)
        by (by rewrite append_assoc).
      apply IH. apply no_slash_app; [done|].
      cbn [no_slash]. by rewrite bool_decide_eq_false_2.
Qed.

Lemma no_slash_basename path : no_slash (basename path) = true.
Proof. apply (no_slash_after_last_slash path ""). done. Qed.

Lemma basename_basename path : basename (basename path) = basename path.
Proof. apply basename_no_slash, no_slash_basename. Qed.

(** ** The listing of the spool directory *)

Lemma index_Some x l i : index x l = Some i → l !! i = Some x.
Proof.
  revert i. induction l as [|y l IH]; intros i; [done|].
  cbn [index]. case_bool_decide as Hy.
  - intros [= <-]. by subst.
  - destruct (index x l) as [j|]; [|done]. intros [= <-]. by apply IH.
Qed.

Lemma index_None x l : index x l = None ↔ x ∉ l.
Proof.
  induction l as [|y l IH]; [split; [intros _; apply not_elem_of_nil|done]|].
  cbn [index]. rewrite not_elem_of_cons. case_bool_decide as Hy.
  - split; [done|]. intros [Hn _]. by destruct Hn.
  - destruct (index x l) as [j|].
    + split; [done|]. intros [_ Hn]. by apply IH in Hn.
    + split; [|done]. intros _. split; [done|]. by apply IH.
Qed.

Lemma index_lookup x l i : NoDup l → l !! i = Some x → index x l = Some i.
Proof.
  intros Hnd Hi. destruct (index x l) as [j|] eqn:Hj.
  - apply index_Some in Hj. f_equal. by eapply NoDup_lookup.
  - apply index_None in Hj. destruct Hj. by eapply list_elem_of_lookup_2.
Qed.

Section Spool.
Context (darwin_py2 : bool) (fnmatch : string → string → bool).
Context (fs : gmap string (list byte)).

Local Abbreviation get_filenames := (SpoolRecordReader.get_filenames fnmatch fs).
Local Abbreviation open_next := (SpoolRecordReader.open_next fnmatch fs).
Local Abbreviation open_file := (SpoolRecordReader.open_file fs).
Local Abbreviation set_fileobj := SpoolRecordReader.set_fileobj.

Lemma elem_of_get_filenames self name :
  name ∈ get_filenames self
  ↔ is_Some (fs !! name) ∧ fnmatch name (SpoolRecordReader.fnfilter self) = true.
Proof.
  unfold SpoolRecordReader.get_filenames.
  rewrite merge_sort_Permutation, list_elem_of_filter, list_elem_of_fmap.
  split.
  - intros [Hm ([name' data] & -> & Hin)]. split; [|done].
    apply elem_of_map_to_list in Hin. by eexists.
  - intros [[data Hdata] Hm]. split; [done|].
    exists (name, data). split; [done|]. by apply elem_of_map_to_list.
Qed.

Lemma NoDup_get_filenames self : NoDup (get_filenames self).
Proof.
  unfold SpoolRecordReader.get_filenames. rewrite merge_sort_Permutation.
  apply NoDup_filter, NoDup_fst_map_to_list.
Qed.

Lemma Sorted_get_filenames self : StronglySorted String.le (get_filenames self).
Proof. apply StronglySorted_merge_sort; apply _. Qed.

(** The first name of the listing is the least, and a name is followed
    by the least of the greater ones. *)
Lemma get_filenames_first self first rest name :
  get_filenames self = first :: rest → name ∈ get_filenames self →
  String.le first name.
Proof.
  intros Hl Hin. pose proof (Sorted_get_filenames self) as Hs.
  rewrite Hl in Hs, Hin. apply StronglySorted_inv in Hs as [_ Hall].
  apply elem_of_cons in Hin as [->|Hin]; [done|].
  by eapply Forall_forall in Hall.
Qed.

Lemma StronglySorted_lookup_le (l : list string) i j x y :
  StronglySorted String.le l → l !! i = Some x → l !! j = Some y → (i ≤ j)%nat →
  String.le x y.
Proof.
  intros Hs. revert i j. induction Hs as [|z l Hs IH Hall]; intros i j Hi Hj Hij; [done|].
  destruct i as [|i], j as [|j]; simpl in *; simplify_eq; try lia.
  - done.
  - eapply Forall_forall in Hall; [done|]. by eapply list_elem_of_lookup_2.
  - eapply IH; [done..|lia].
Qed.

Lemma get_filenames_following self i current following name :
  get_filenames self !! i = Some current →
  get_filenames self !! S i = Some following →
  name ∈ get_filenames self → String.le current name → name ≠ current →
  String.le following name.
Proof.
  intros Hi HSi [j Hj]%list_elem_of_lookup_1 Hle Hne.
  pose proof (Sorted_get_filenames self) as Hs.
  destruct (decide (S i ≤ j)%nat) as [Hij|Hij].
  { by eapply (StronglySorted_lookup_le _ (S i) j). }
  assert (String.le name current)
    by (eapply (StronglySorted_lookup_le _ j i); [done..|lia]).
  destruct Hne. by apply (anti_symm String.le).
Qed.

(** ** [open_file] and [open_next] *)

Lemma open_file_entry self name :
  wf_dir fs → is_Some (fs !! name) →
  open_file name self
  = (Ok (),
     set_fileobj (Some (fresh_file fs (SpoolRecordReader.directory self) name)) self,
     transition 1 (SpoolRecordReader.fileobj self)
       (fresh_file fs (SpoolRecordReader.directory self) name)
       (SpoolRecordReader.rollover_hook self)).
Proof.
  intros Hwf [data Hdata]. destruct (Hwf name) as [Hslash _]; [by eexists|].
  unfold SpoolRecordReader.open_file, SpoolRecordReader.open_in, fresh_file, transition.
  rewrite basename_no_slash by done.
  cbn [SpoolRecordReader.directory SpoolRecordReader.set_fileobj
       SpoolRecordReader.rollover_hook].
  rewrite Hdata. cbn [default File.name].
  by destruct (SpoolRecordReader.fileobj self).
Qed.

Lemma open_return_entry self name :
  wf_dir fs → is_Some (fs !! name) →
  SpoolRecordReader.open_return fs name self
  = (Ok (Some name),
     set_fileobj (Some (fresh_file fs (SpoolRecordReader.directory self) name)) self,
     transition 1 (SpoolRecordReader.fileobj self)
       (fresh_file fs (SpoolRecordReader.directory self) name)
       (SpoolRecordReader.rollover_hook self)).
Proof.
  intros Hwf Hname. destruct (Hwf name Hname) as [Hslash _].
  unfold SpoolRecordReader.open_return. rewrite open_file_entry by done.
  cbn [SpoolRecordReader.fileobj SpoolRecordReader.set_fileobj fmap option_fmap option_map
       fresh_file File.name].
  by rewrite basename_join, basename_no_slash.
Qed.

Lemma get_filenames_set_fileobj fileobj self :
  get_filenames (set_fileobj fileobj self) = get_filenames self.
Proof. done. Qed.

Lemma rollovers_transition closes previous opened hook :
  rollovers (transition closes previous opened hook)
  = if hook then [(File.name <$> previous, File.name opened)] else [].
Proof.
  unfold transition, rollovers. rewrite !omap_app.
  assert (Hclosed : ∀ name,
    omap (λ e, match e with Rollover c o => Some (c, o) | _ => None end)
         (replicate closes (Closed name)) = []).
  { intros name. induction closes as [|n IH]; [done|]. simpl. apply IH. }
  destruct previous as [f|]; cbn [from_option]; [rewrite Hclosed|]; by destruct hook.
Qed.

Lemma open_next_empty self :
  get_filenames self = [] → open_next self = (Ok None, self, []).
Proof. intros Hnil. unfold SpoolRecordReader.open_next. by rewrite Hnil. Qed.

Lemma open_next_none self first rest :
  wf_dir fs → get_filenames self = first :: rest →
  SpoolRecordReader.fileobj self = None →
  open_next self
  = (Ok (Some first),
     set_fileobj (Some (fresh_file fs (SpoolRecordReader.directory self) first)) self,
     transition 1 None (fresh_file fs (SpoolRecordReader.directory self) first)
       (SpoolRecordReader.rollover_hook self)).
Proof.
  intros Hwf Hl Hnone.
  assert (Hfirst : is_Some (fs !! first)).
  { eapply proj1, elem_of_get_filenames. rewrite Hl. left. }
  unfold SpoolRecordReader.open_next.
  rewrite Hl, Hnone, open_return_entry by done. by rewrite Hnone.
Qed.

Lemma open_next_unlisted self first rest f :
  wf_dir fs → get_filenames self = first :: rest →
  SpoolRecordReader.fileobj self = Some f →
  index (basename (File.name f)) (get_filenames self) = None →
  open_next self
  = (Ok (Some first),
     set_fileobj (Some (fresh_file fs (SpoolRecordReader.directory self) first)) self,
     transition 1 (Some f) (fresh_file fs (SpoolRecordReader.directory self) first)
       (SpoolRecordReader.rollover_hook self)).
Proof.
  intros Hwf Hl Hf Hidx.
  assert (Hfirst : is_Some (fs !! first)).
  { eapply proj1, elem_of_get_filenames. rewrite Hl. left. }
  unfold SpoolRecordReader.open_next. rewrite Hf. cbv beta iota zeta.
  rewrite Hidx, Hl, open_return_entry by done. by rewrite Hf.
Qed.

Lemma open_next_following self f i following :
  wf_dir fs → SpoolRecordReader.fileobj self = Some f →
  index (basename (File.name f)) (get_filenames self) = Some i →
  get_filenames self !! S i = Some following →
  open_next self
  = (Ok (Some following),
     set_fileobj (Some (fresh_file fs (SpoolRecordReader.directory self) following)) self,
     transition 2 (Some f) (fresh_file fs (SpoolRecordReader.directory self) following)
       (SpoolRecordReader.rollover_hook self)).
Proof.
  intros Hwf Hf Hidx HSi.
  assert (Hfollowing : is_Some (fs !! following)).
  { eapply proj1, elem_of_get_filenames. by eapply list_elem_of_lookup_2. }
  unfold SpoolRecordReader.open_next. rewrite Hf. cbv beta iota zeta. rewrite Hidx.
  destruct (get_filenames self) as [|first rest]; [done|].
  replace (i + 1)%nat with (S i) by lia. rewrite HSi.
  by rewrite open_return_entry by done.
Qed.

Lemma open_next_last self f i :
  SpoolRecordReader.fileobj self = Some f →
  index (basename (File.name f)) (get_filenames self) = Some i →
  get_filenames self !! S i = None →
  open_next self = (Ok None, self, []).
Proof.
  intros Hf Hidx HSi. unfold SpoolRecordReader.open_next.
  rewrite Hf. cbv beta iota zeta. rewrite Hidx.
  destruct (get_filenames self) as [|first rest]; [done|].
  replace (i + 1)%nat with (S i) by lia. by rewrite HSi.
Qed.

(** C4.  The listing [get_filenames] is sorted, without repetition, and
    holds the entries of the directory that match the filter.  In a
    directory whose entries are proper names, [open_next] does nothing
    when the listing is empty; opens the first name of the listing (the
    least one) when no file is open, or when the name of the open file is
    not in the listing; otherwise opens the name that follows the name of
    the open file in the listing (the least of the greater ones), or does
    nothing when that name is the last.  A transition closes the previous
    file, if any, opens the new one and, when a hook was given, calls it
    once, with the name of the file closed (or [None]) and the name of
    the file opened; without a transition nothing is closed, opened or
    called. *)
Theorem open_next_transitions (self : SpoolRecordReader.t) :
  wf_dir fs →
  let filenames := get_filenames self in
  let opened name := fresh_file fs (SpoolRecordReader.directory self) name in
  let hook := SpoolRecordReader.rollover_hook self in
  (StronglySorted String.le filenames ∧ NoDup filenames ∧
   ∀ name, name ∈ filenames
     ↔ is_Some (fs !! name) ∧ fnmatch name (SpoolRecordReader.fnfilter self) = true) ∧
  (filenames = [] → open_next self = (Ok None, self, [])) ∧
  (∀ first rest,
     filenames = first :: rest →
     (∀ name, name ∈ filenames → String.le first name) ∧
     (SpoolRecordReader.fileobj self = None →
        open_next self
        = (Ok (Some first), set_fileobj (Some (opened first)) self,
           transition 1 None (opened first) hook)) ∧
     (∀ f, SpoolRecordReader.fileobj self = Some f →
        basename (File.name f) ∉ filenames →
        open_next self
        = (Ok (Some first), set_fileobj (Some (opened first)) self,
           transition 1 (Some f) (opened first) hook))) ∧
  (∀ f i following,
     SpoolRecordReader.fileobj self = Some f →
     filenames !! i = Some (basename (File.name f)) →
     filenames !! S i = Some following →
     (∀ name, name ∈ filenames → String.le (basename (File.name f)) name →
        name ≠ basename (File.name f) → String.le following name) ∧
     open_next self
     = (Ok (Some following), set_fileobj (Some (opened following)) self,
        transition 2 (Some f) (opened following) hook)) ∧
  (∀ f i,
     SpoolRecordReader.fileobj self = Some f →
     filenames !! i = Some (basename (File.name f)) →
     filenames !! S i = None →
     open_next self = (Ok None, self, [])) ∧
  (∀ closes previous file,
     rollovers (transition closes previous file true)
     = [(File.name <$> previous, File.name file)] ∧
     rollovers (transition closes previous file false) = []).
Proof.
  intros Hwf filenames opened hook.
  split; [|split; [|split; [|split; [|split]]]].
  - split; [apply Sorted_get_filenames|]. split; [apply NoDup_get_filenames|].
    intros name. apply elem_of_get_filenames.
  - apply open_next_empty.
  - intros first rest Hl.
    split; [intros name; by eapply get_filenames_first|]. split.
    + intros Hnone. by eapply open_next_none.
    + intros f Hf Hnotin. eapply open_next_unlisted; [done..|].
      by apply index_None.
  - intros f i following Hf Hi HSi.
    split; [intros name; by eapply get_filenames_following|].
    eapply open_next_following; [done..| |done].
    apply index_lookup; [apply NoDup_get_filenames|done].
  - intros f i Hf Hi HSi. eapply open_next_last; [done| |done].
    apply index_lookup; [apply NoDup_get_filenames|done].
  - intros closes previous file. by rewrite !rollovers_transition.
Qed.

(** ** [_next] *)

Local Abbreviation _next_loop := (SpoolRecordReader._next_loop darwin_py2 fnmatch fs).
Local Abbreviation _next := (SpoolRecordReader._next darwin_py2 fnmatch fs).
Local Abbreviation read := (SpoolRecordReader.read darwin_py2).

Lemma read_file self f :
  SpoolRecordReader.fileobj self = Some f →
  read self = ((read_record f).1, set_fileobj (Some (read_record f).2) self).
Proof.
  intros Hf. unfold SpoolRecordReader.read. rewrite Hf, RecordReader_next.
  by destruct (read_record f).
Qed.

Lemma set_fileobj_id self f :
  SpoolRecordReader.fileobj self = Some f → set_fileobj (Some f) self = self.
Proof. destruct self. simpl. by intros ->. Qed.

(** [open_file] raises nothing but [IOError]. *)
Lemma open_return_raise filename self e self' trace :
  SpoolRecordReader.open_return fs filename self = (Raise e, self', trace) → e = IOError.
Proof.
  unfold SpoolRecordReader.open_return, SpoolRecordReader.open_file,
    SpoolRecordReader.open_in.
  destruct (fs !! basename filename); [done|]. by intros [= <- _ _].
Qed.

Lemma open_next_raise self e self' trace :
  open_next self = (Raise e, self', trace) → e = IOError.
Proof.
  unfold SpoolRecordReader.open_next.
  destruct (get_filenames self) as [|first rest]; [done|].
  destruct (SpoolRecordReader.fileobj self) as [f|]; [|apply open_return_raise].
  destruct (index _ _) as [i|]; [|apply open_return_raise].
  destruct (_ !! _) as [following|]; [|done].
  destruct (SpoolRecordReader.open_return _ _ _) as [[outcome self''] trace''] eqn:Ho.
  intros [= -> _ _]. by eapply open_return_raise.
Qed.

Lemma prepend_Some trace outcome r :
  SpoolRecordReader.prepend trace outcome = Some r →
  ∃ trace', outcome = Some (r.1.1, r.1.2, trace') ∧ r.2 = trace ++ trace'.
Proof.
  destruct outcome as [[[o s] t]|]; [|done]. intros [= <-]. by eexists.
Qed.

Lemma on_read_no_EOFError outcome continue r :
  (∀ self r, continue self = Some r → r.1.1 ≠ Raise EOFError) →
  SpoolRecordReader.on_read outcome continue = Some r → r.1.1 ≠ Raise EOFError.
Proof.
  intros Hc. unfold SpoolRecordReader.on_read.
  destruct outcome as [[rcd|e] self].
  - destruct (truthy_opt rcd); [by intros [= <-]|apply Hc].
  - destruct e; by intros [= <-].
Qed.

(** [_next] never raises [EOFError]. *)
Lemma _next_loop_no_EOFError fuel self r :
  _next_loop fuel self = Some r → r.1.1 ≠ Raise EOFError.
Proof.
  revert self r. induction fuel as [|fuel IH]; intros self r; [done|].
  cbn [SpoolRecordReader._next_loop].
  destruct (open_next self) as [[[name|e] self'] trace] eqn:Ho.
  - destruct (from_option truthy_str false name); [|by intros [= <-]].
    intros (trace' & Hr & _)%prepend_Some.
    eapply on_read_no_EOFError in Hr; [done|]. apply IH.
  - apply open_next_raise in Ho as ->. by intros [= <-].
Qed.

Lemma _next_no_EOFError fuel self r :
  _next fuel self = Some r → r.1.1 ≠ Raise EOFError.
Proof.
  unfold SpoolRecordReader._next.
  destruct (SpoolRecordReader.fileobj self) as [f|].
  - apply on_read_no_EOFError. intros self' r'. apply _next_loop_no_EOFError.
  - destruct (open_next self) as [[[name|e] self'] trace] eqn:Ho.
    + destruct (from_option truthy_str false name); [|by intros [= <-]].
      intros (trace' & Hr & _)%prepend_Some.
      eapply on_read_no_EOFError in Hr; [done|].
      intros self'' r'. apply _next_loop_no_EOFError.
    + apply open_next_raise in Ho as ->. by intros [= <-].
Qed.

(** A truncated record in the file being read: [None] is returned and the
    reader is left as it was. *)
Lemma _next_truncated fuel self f :
  SpoolRecordReader.fileobj self = Some f →
  File.closed f = false → truncated (File.available f) →
  _next fuel self = Some (Ok None, self, []).
Proof.
  intros Hf Hopen Htr. unfold SpoolRecordReader._next. rewrite Hf.
  rewrite (read_file self f Hf), read_record_truncated by done.
  cbn [fst snd SpoolRecordReader.on_read]. by rewrite set_fileobj_id.
Qed.

(** ** [_next] over a directory that does not change *)

Local Abbreviation pending_of := (pending fnmatch fs).

Lemma pending_le self : (length (pending_of self) ≤ length (get_filenames self))%nat.
Proof.
  unfold pending. destruct (SpoolRecordReader.fileobj self) as [f|]; [|done].
  destruct (index _ _) as [i|]; [|done]. rewrite length_drop. lia.
Qed.

Lemma index_fresh_file self name :
  no_slash name = true →
  index (basename (File.name (fresh_file fs (SpoolRecordReader.directory self) name)))
        (get_filenames self)
  = index name (get_filenames self).
Proof.
  intros Hname. cbn [fresh_file File.name]. by rewrite basename_join, basename_no_slash.
Qed.

(** [open_next] opens the first of the pending names, the others staying
    pending, and opens nothing when no name is pending. *)
Lemma open_next_pending self :
  wf_dir fs →
  match pending_of self with
  | [] => open_next self = (Ok None, self, [])
  | name :: names =>
      name ≠ "" ∧ no_slash name = true ∧ is_Some (fs !! name) ∧
      ∃ trace,
        open_next self
        = (Ok (Some name),
           set_fileobj (Some (fresh_file fs (SpoolRecordReader.directory self) name))
             self,
           trace) ∧
        pending_of
          (set_fileobj (Some (fresh_file fs (SpoolRecordReader.directory self) name))
             self)
        = names
  end.
Proof.
  intros Hwf. pose proof (NoDup_get_filenames self) as Hnd.
  assert (Hentry : ∀ name, name ∈ get_filenames self →
                           no_slash name = true ∧ name ≠ "").
  { intros name Hin. apply Hwf. by apply elem_of_get_filenames in Hin as [? _]. }
  assert (Hall : ∀ name, name ∈ get_filenames self →
                         name ≠ "" ∧ no_slash name = true ∧ is_Some (fs !! name)).
  { intros name Hin. destruct (Hentry name Hin) as [? ?].
    by apply elem_of_get_filenames in Hin as [? _]. }
  assert (Hpending : ∀ name j,
    get_filenames self !! j = Some name →
    pending_of (set_fileobj (Some (fresh_file fs (SpoolRecordReader.directory self) name))
               self)
    = drop (S j) (get_filenames self)).
  { intros name j Hj. unfold pending.
    cbn [SpoolRecordReader.fileobj SpoolRecordReader.set_fileobj].
    rewrite get_filenames_set_fileobj.
    rewrite index_fresh_file by (by eapply Hentry, list_elem_of_lookup_2).
    by rewrite (index_lookup _ _ j). }
  unfold pending at 1.
  destruct (SpoolRecordReader.fileobj self) as [f|] eqn:Hf.
  - destruct (index _ _) as [i|] eqn:Hidx.
    + destruct (drop (S i) (get_filenames self)) as [|name names] eqn:Hdrop.
      * eapply open_next_last; [done..|].
        apply lookup_ge_None. apply (f_equal length) in Hdrop.
        rewrite length_drop in Hdrop. simpl in Hdrop. lia.
      * assert (HSi : get_filenames self !! S i = Some name).
        { pose proof (lookup_drop (get_filenames self) (S i) 0) as Hl.
          rewrite Hdrop, Nat.add_0_r in Hl. done. }
        destruct (Hall name) as (? & ? & ?); [by eapply list_elem_of_lookup_2|].
        do 3 (split; [done|]).
        eexists. split; [by eapply open_next_following|].
        rewrite (Hpending name (S i)) by done.
        replace (S (S i)) with (S i + 1)%nat by lia.
        by rewrite <- drop_drop, Hdrop.
    + destruct (get_filenames self) as [|first rest] eqn:Hl.
      * by apply open_next_empty.
      * destruct (Hall first) as (? & ? & ?); [left|].
        do 3 (split; [done|]).
        eexists. split.
        { apply (open_next_unlisted self first rest f Hwf Hl Hf).
          rewrite ?Hl. exact Hidx. }
        rewrite (Hpending first 0%nat) by (rewrite ?Hl; done).
        by rewrite ?Hl.
  - destruct (get_filenames self) as [|first rest] eqn:Hl.
    + by apply open_next_empty.
    + destruct (Hall first) as (? & ? & ?); [left|].
      do 3 (split; [done|]).
      eexists. split; [by eapply open_next_none|].
      rewrite (Hpending first 0%nat) by (rewrite ?Hl; done).
      by rewrite ?Hl.
Qed.

Lemma read_record_truthy f rcd f' :
  read_record f = (Ok (Some rcd), f') → truthy rcd = true.
Proof.
  destruct (File.closed f) eqn:Hc.
  { by rewrite read_record_closed. }
  rewrite read_record_open by done. unfold read_record_spec.
  repeat case_bool_decide; try done.
  destruct (decode_record _ _) as [r|e] eqn:Hdec; [|done].
  intros [= <- _]. by eapply decode_record_truthy.
Qed.

Lemma scan_unfold names f self :
  scan fs names f self
  = match read_record f with
    | (Raise EOFError, f) => (Ok None, set_fileobj (Some f) self)
    | (Raise e, f) => (Raise e, set_fileobj (Some f) self)
    | (Ok (Some rcd), f) => (Ok (Some rcd), set_fileobj (Some f) self)
    | (Ok None, f) => scan_rest fs names f self
    end.
Proof. by destruct names. Qed.

Lemma scan_set_fileobj names f fileobj self :
  scan fs names f (set_fileobj fileobj self) = scan fs names f self.
Proof.
  revert f. induction names as [|name names IH]; intros f; cbn [scan];
    destruct (read_record f) as [[[rcd|]|[]] f']; done.
Qed.

Lemma scan_rest_set_fileobj names f fileobj self :
  scan_rest fs names f (set_fileobj fileobj self) = scan_rest fs names f self.
Proof.
  destruct names as [|name names]; [done|]. cbn [scan_rest].
  change (SpoolRecordReader.directory (set_fileobj fileobj self))
    with (SpoolRecordReader.directory self).
  apply scan_set_fileobj.
Qed.

(** The loop of [_next] is [scan_rest] on the pending names, and returns
    with one turn of fuel a pending name and one more. *)
Lemma _next_loop_scan fuel self f :
  wf_dir fs → SpoolRecordReader.fileobj self = Some f →
  (length (pending_of self) < fuel)%nat →
  ∃ trace, _next_loop fuel self = Some (scan_rest fs (pending_of self) f self, trace).
Proof.
  intros Hwf. revert self f.
  induction fuel as [|fuel IH]; intros self f Hf Hfuel; [lia|].
  cbn [SpoolRecordReader._next_loop].
  pose proof (open_next_pending self Hwf) as Hopen.
  destruct (pending_of self) as [|name names].
  { rewrite Hopen. cbn [from_option scan_rest]. rewrite set_fileobj_id by done.
    by eexists. }
  destruct Hopen as (Hname & Hslash & Hentry & trace & -> & Hpending).
  cbn [from_option scan_rest]. unfold truthy_str.
  rewrite bool_decide_eq_false_2 by done. cbn [negb].
  set (fresh := fresh_file fs (SpoolRecordReader.directory self) name) in *.
  set (self' := set_fileobj (Some fresh) self) in *.
  rewrite (read_file self' fresh) by done. rewrite scan_unfold.
  destruct (read_record fresh) as [[[rcd|]|e] f'] eqn:Hread; cbn [fst snd].
  - cbn [SpoolRecordReader.on_read truthy_opt].
    rewrite (read_record_truthy _ _ _ Hread). by eexists.
  - assert (f' = fresh) as -> by (eapply read_record_unchanged; eauto).
    cbn [SpoolRecordReader.on_read truthy_opt].
    destruct (IH self' fresh) as (trace' & Hloop); [done| |].
    { rewrite Hpending. cbn [length] in Hfuel. lia. }
    change (set_fileobj (Some fresh) self') with self'.
    rewrite Hloop, Hpending. cbn [SpoolRecordReader.prepend mbind option_bind].
    unfold self'. rewrite scan_rest_set_fileobj.
    destruct (scan_rest fs names fresh self) as [outcome self'']. by eexists.
  - cbn [SpoolRecordReader.on_read]. destruct e; by eexists.
Qed.

(** [_next] is [_next_spec], and returns when given more fuel than there
    are names in the listing. *)
Lemma _next_scan fuel self :
  wf_dir fs → (length (get_filenames self) < fuel)%nat →
  ∃ trace, _next fuel self = Some (_next_spec fnmatch fs self, trace).
Proof.
  intros Hwf Hfuel. pose proof (pending_le self) as Hle.
  unfold SpoolRecordReader._next, _next_spec.
  destruct (SpoolRecordReader.fileobj self) as [f|] eqn:Hf.
  - rewrite (read_file self f Hf), scan_unfold.
    destruct (read_record f) as [[[rcd|]|e] f'] eqn:Hread; cbn [fst snd].
    + cbn [SpoolRecordReader.on_read truthy_opt].
      rewrite (read_record_truthy _ _ _ Hread). by eexists.
    + assert (f' = f) as -> by (eapply read_record_unchanged; eauto).
      cbn [SpoolRecordReader.on_read truthy_opt]. rewrite set_fileobj_id by done.
      apply _next_loop_scan; [done..|lia].
    + cbn [SpoolRecordReader.on_read]. destruct e; by eexists.
  - pose proof (open_next_pending self Hwf) as Hopen.
    destruct (pending_of self) as [|name names] eqn:Hp.
    { rewrite Hopen. by eexists. }
    destruct Hopen as (Hname & Hslash & Hentry & trace & -> & Hpending).
    cbn [from_option]. unfold truthy_str.
    rewrite bool_decide_eq_false_2 by done. cbn [negb].
    set (fresh := fresh_file fs (SpoolRecordReader.directory self) name) in *.
    set (self' := set_fileobj (Some fresh) self) in *.
    rewrite (read_file self' fresh) by done. rewrite scan_unfold.
    destruct (read_record fresh) as [[[rcd|]|e] f'] eqn:Hread; cbn [fst snd].
    + cbn [SpoolRecordReader.on_read truthy_opt].
      rewrite (read_record_truthy _ _ _ Hread). by eexists.
    + assert (f' = fresh) as -> by (eapply read_record_unchanged; eauto).
      cbn [SpoolRecordReader.on_read truthy_opt].
      destruct (_next_loop_scan fuel self' fresh) as (trace' & Hloop); [done..| |].
      { rewrite Hpending. cbn [length] in Hle. lia. }
      change (set_fileobj (Some fresh) self') with self'.
      rewrite Hloop, Hpending. cbn [SpoolRecordReader.prepend mbind option_bind].
      unfold self'. rewrite scan_rest_set_fileobj.
      destruct (scan_rest fs names fresh self) as [outcome self'']. by eexists.
    + cbn [SpoolRecordReader.on_read]. destruct e; by eexists.
Qed.

(** C2.  [_next] never raises [EOFError].  When the record at the
    position of the file being read is truncated, the reader raises
    [EOFError], [_next] returns [None], and the reader is left as it was,
    at the same position of the same file: a later call tries the same
    bytes again.  Over a directory that does not change, [_next] returns
    (given more fuel than the listing has names) what [_next_spec] says:
    when the file being read is at its end, the files that follow it in
    the listing are opened one after the other until one yields a record,
    which is returned, or holds a truncated record, or none is left, when
    [None] is returned. *)
Theorem _next_end_of_stream (self : SpoolRecordReader.t) :
  (∀ fuel outcome self' trace,
     _next fuel self = Some (outcome, self', trace) → outcome ≠ Raise EOFError) ∧
  (∀ fuel f,
     SpoolRecordReader.fileobj self = Some f →
     File.closed f = false → truncated (File.available f) →
     read self = (Raise EOFError, self) ∧
     _next fuel self = Some (Ok None, self, []) ∧
     SpoolRecordReader.tell self = Ok (Some (File.name f), Some (File.pos f))) ∧
  (wf_dir fs →
   ∀ fuel, (length (get_filenames self) < fuel)%nat →
     ∃ trace, _next fuel self = Some (_next_spec fnmatch fs self, trace)) ∧
  (∀ f, SpoolRecordReader.fileobj self = Some f →
     (∀ i, get_filenames self !! i = Some (basename (File.name f)) →
           pending_of self = drop (S i) (get_filenames self)) ∧
     (read_record f = (Ok None, f) →
        _next_spec fnmatch fs self = scan_rest fs (pending_of self) f self)) ∧
  (∀ f, scan_rest fs [] f self = (Ok None, set_fileobj (Some f) self)) ∧
  (∀ f name names,
     let file := fresh_file fs (SpoolRecordReader.directory self) name in
     (∀ rcd file',
        read_record file = (Ok (Some rcd), file') →
        scan_rest fs (name :: names) f self
        = (Ok (Some rcd), set_fileobj (Some file') self)) ∧
     (∀ file',
        read_record file = (Ok None, file') →
        scan_rest fs (name :: names) f self = scan_rest fs names file' self) ∧
     (∀ file',
        read_record file = (Raise EOFError, file') →
        scan_rest fs (name :: names) f self
        = (Ok None, set_fileobj (Some file') self))).
Proof.
  split; [|split; [|split; [|split; [|split]]]].
  - intros fuel outcome self' trace Hnext.
    apply (_next_no_EOFError fuel self _ Hnext).
  - intros fuel f Hf Hopen Htr. split; [|split].
    + rewrite (read_file self f Hf), read_record_truncated by done.
      cbn [fst snd]. by rewrite set_fileobj_id.
    + by eapply _next_truncated.
    + unfold SpoolRecordReader.tell, File.tell. by rewrite Hf, Hopen.
  - intros Hwf fuel Hfuel. by apply _next_scan.
  - intros f Hf. split.
    + intros i Hi. unfold pending. rewrite Hf.
      by rewrite (index_lookup _ _ i) by (done || apply NoDup_get_filenames).
    + intros Hread. unfold _next_spec. by rewrite Hf, scan_unfold, Hread.
  - done.
  - intros f name names file. cbn [scan_rest]. fold file.
    split; [|split]; intros; rewrite scan_unfold; by rewrite H.
Qed.

(** ** The cursor *)

Lemma read_record_preserves f :
  File.name (read_record f).2 = File.name f ∧
  File.data (read_record f).2 = File.data f ∧
  File.closed (read_record f).2 = File.closed f.
Proof.
  destruct (File.closed f) eqn:Hc.
  { by rewrite read_record_closed. }
  rewrite read_record_open by done. unfold read_record_spec.
  by repeat case_bool_decide.
Qed.

Lemma join_truthy directory name : truthy_str (join directory name) = true.
Proof.
  unfold truthy_str, join. rewrite bool_decide_eq_false_2; [done|].
  by destruct directory.
Qed.

Lemma spool_inv_set_fileobj self f name :
  File.closed f = false →
  File.name f = join (SpoolRecordReader.directory self) name →
  no_slash name = true → fs !! name = Some (File.data f) →
  spool_inv fs (set_fileobj (Some f) self).
Proof. intros Hc Hn Hs Hd f' [= <-]. split; [done|]. by exists name. Qed.

Lemma spool_inv_fresh self name :
  no_slash name = true → is_Some (fs !! name) →
  spool_inv fs
    (set_fileobj (Some (fresh_file fs (SpoolRecordReader.directory self) name)) self).
Proof.
  intros Hs [data Hd]. apply (spool_inv_set_fileobj _ _ name); try done.
  cbn [fresh_file File.data]. by rewrite Hd.
Qed.

Lemma spool_inv_init directory prefix init_filename init_offset tail hook self trace :
  SpoolRecordReader.__init__ fs directory prefix init_filename init_offset tail hook
  = (Ok self, trace) →
  spool_inv fs self.
Proof.
  unfold SpoolRecordReader.__init__.
  destruct init_filename as [filename|]; [|by intros [= <- _] f].
  destruct (truthy_str filename && SpoolRecordReader.exists_in _ _); [|by intros [= <- _] f].
  unfold SpoolRecordReader.open_file, SpoolRecordReader.open_in.
  cbn [SpoolRecordReader.fileobj SpoolRecordReader.set_fileobj SpoolRecordReader.directory
       fmap option_fmap option_map].
  destruct (fs !! basename filename) as [data|] eqn:Hdata; [|done].
  cbn [SpoolRecordReader.fileobj].
  destruct init_offset as [offset|]; [|done].
  unfold File.seek. cbn [File.closed]. intros [= <- _].
  apply (spool_inv_set_fileobj _ _ (basename filename)); try done.
  apply no_slash_basename.
Qed.

Lemma spool_inv_open_next self outcome self' trace :
  wf_dir fs → spool_inv fs self →
  open_next self = (outcome, self', trace) → spool_inv fs self'.
Proof.
  intros Hwf Hinv. pose proof (open_next_pending self Hwf) as Hopen.
  destruct (pending_of self) as [|name names].
  - rewrite Hopen. by intros [= _ <- _].
  - destruct Hopen as (_ & Hslash & Hentry & trace' & -> & _).
    intros [= _ <- _]. by apply spool_inv_fresh.
Qed.

Lemma spool_inv_read self :
  spool_inv fs self → spool_inv fs (read self).2.
Proof.
  intros Hinv. destruct (SpoolRecordReader.fileobj self) as [f|] eqn:Hf.
  - rewrite (read_file self f Hf). cbn [snd].
    destruct (Hinv f Hf) as (Hc & name & Hn & Hs & Hd).
    destruct (read_record_preserves f) as (Hn' & Hd' & Hc').
    apply (spool_inv_set_fileobj _ _ name); congruence.
  - unfold SpoolRecordReader.read. by rewrite Hf.
Qed.

Lemma spool_inv_on_read outcome continue r :
  (∀ self r, spool_inv fs self → continue self = Some r → spool_inv fs r.1.2) →
  spool_inv fs outcome.2 →
  SpoolRecordReader.on_read outcome continue = Some r → spool_inv fs r.1.2.
Proof.
  intros Hc Hinv. unfold SpoolRecordReader.on_read.
  destruct outcome as [[rcd|e] self]; cbn [snd] in Hinv.
  - destruct (truthy_opt rcd); [by intros [= <-]|by apply Hc].
  - destruct e; by intros [= <-].
Qed.

Lemma spool_inv__next_loop fuel self r :
  wf_dir fs → spool_inv fs self → _next_loop fuel self = Some r → spool_inv fs r.1.2.
Proof.
  intros Hwf. revert self r. induction fuel as [|fuel IH]; intros self r Hinv; [done|].
  cbn [SpoolRecordReader._next_loop].
  destruct (open_next self) as [[outcome self'] trace] eqn:Ho.
  assert (Hinv' : spool_inv fs self') by by eapply spool_inv_open_next.
  destruct outcome as [name|e]; [|by intros [= <-]].
  destruct (from_option truthy_str false name); [|by intros [= <-]].
  intros (trace' & Hr & _)%prepend_Some.
  eapply spool_inv_on_read in Hr; [done|by apply IH|by apply spool_inv_read].
Qed.

Lemma spool_inv__next fuel self r :
  wf_dir fs → spool_inv fs self → _next fuel self = Some r → spool_inv fs r.1.2.
Proof.
  intros Hwf Hinv. unfold SpoolRecordReader._next.
  assert (Hloop : ∀ self r, spool_inv fs self → _next_loop fuel self = Some r →
                            spool_inv fs r.1.2)
    by (intros; by eapply spool_inv__next_loop).
  destruct (SpoolRecordReader.fileobj self) as [f|].
  - intros Hr. eapply spool_inv_on_read in Hr; [done|done|by apply spool_inv_read].
  - destruct (open_next self) as [[outcome self'] trace] eqn:Ho.
    assert (Hinv' : spool_inv fs self') by by eapply spool_inv_open_next.
    destruct outcome as [name|e]; [|by intros [= <-]].
    destruct (from_option truthy_str false name); [|by intros [= <-]].
    intros (trace' & Hr & _)%prepend_Some.
    eapply spool_inv_on_read in Hr; [done|done|by apply spool_inv_read].
Qed.

(** The file held stays an entry of the directory, also when a call
    raises and leaves it closed. *)
Lemma spool_inv_entry self : spool_inv fs self → spool_entry fs self.
Proof. intros Hinv f Hf. by destruct (Hinv f Hf) as (_ & Hentry). Qed.

Lemma spool_inv_intro self : holds_open self → spool_entry fs self → spool_inv fs self.
Proof. intros Hopen Hentry f Hf. split; [by apply Hopen|by apply Hentry]. Qed.

Lemma spool_entry_set_fileobj self f name :
  File.name f = join (SpoolRecordReader.directory self) name →
  no_slash name = true → fs !! name = Some (File.data f) →
  spool_entry fs (set_fileobj (Some f) self).
Proof. intros Hn Hs Hd f' [= <-]. by exists name. Qed.

Lemma spool_entry_open_file filename self :
  spool_entry fs self → spool_entry fs (open_file filename self).1.2.
Proof.
  intros Hentry. unfold SpoolRecordReader.open_file, SpoolRecordReader.open_in.
  cbn [SpoolRecordReader.directory SpoolRecordReader.set_fileobj].
  destruct (fs !! basename filename) as [data|] eqn:Hdata; cbn [fst snd].
  - apply (spool_entry_set_fileobj _ _ (basename filename)); [done| |done].
    apply no_slash_basename.
  - intros f' Hf'. cbn [SpoolRecordReader.fileobj SpoolRecordReader.set_fileobj] in Hf'.
    destruct (SpoolRecordReader.fileobj self) as [f|] eqn:Hf; [|done].
    injection Hf' as <-. by destruct (Hentry f Hf) as (name & Hn & Hs & Hd); exists name.
Qed.

Lemma spool_entry_open_next self outcome self' trace :
  wf_dir fs → spool_entry fs self →
  open_next self = (outcome, self', trace) → spool_entry fs self'.
Proof.
  intros Hwf Hentry. pose proof (open_next_pending self Hwf) as Hopen.
  destruct (pending_of self) as [|name names].
  - rewrite Hopen. by intros [= _ <- _].
  - destruct Hopen as (_ & Hslash & Hfile & trace' & -> & _).
    intros [= _ <- _]. by apply spool_inv_entry, spool_inv_fresh.
Qed.

Lemma spool_entry_read self :
  spool_entry fs self → spool_entry fs (read self).2.
Proof.
  intros Hentry. destruct (SpoolRecordReader.fileobj self) as [f|] eqn:Hf.
  - rewrite (read_file self f Hf). cbn [snd].
    destruct (Hentry f Hf) as (name & Hn & Hs & Hd).
    destruct (read_record_preserves f) as (Hn' & Hd' & _).
    apply (spool_entry_set_fileobj _ _ name); congruence.
  - unfold SpoolRecordReader.read. by rewrite Hf.
Qed.

Lemma spool_entry_on_read outcome continue r :
  (∀ self r, spool_entry fs self → continue self = Some r → spool_entry fs r.1.2) →
  spool_entry fs outcome.2 →
  SpoolRecordReader.on_read outcome continue = Some r → spool_entry fs r.1.2.
Proof.
  intros Hc Hentry. unfold SpoolRecordReader.on_read.
  destruct outcome as [[rcd|e] self]; cbn [snd] in Hentry.
  - destruct (truthy_opt rcd); [by intros [= <-]|by apply Hc].
  - destruct e; by intros [= <-].
Qed.

Lemma spool_entry__next_loop fuel self r :
  wf_dir fs → spool_entry fs self → _next_loop fuel self = Some r →
  spool_entry fs r.1.2.
Proof.
  intros Hwf. revert self r. induction fuel as [|fuel IH]; intros self r Hentry; [done|].
  cbn [SpoolRecordReader._next_loop].
  destruct (open_next self) as [[outcome self'] trace] eqn:Ho.
  assert (Hentry' : spool_entry fs self') by by eapply spool_entry_open_next.
  destruct outcome as [name|e]; [|by intros [= <-]].
  destruct (from_option truthy_str false name); [|by intros [= <-]].
  intros (trace' & Hr & _)%prepend_Some.
  eapply spool_entry_on_read in Hr; [done|by apply IH|by apply spool_entry_read].
Qed.

Lemma spool_entry__next fuel self r :
  wf_dir fs → spool_entry fs self → _next fuel self = Some r → spool_entry fs r.1.2.
Proof.
  intros Hwf Hentry. unfold SpoolRecordReader._next.
  assert (Hloop : ∀ self r, spool_entry fs self → _next_loop fuel self = Some r →
                            spool_entry fs r.1.2)
    by (intros; by eapply spool_entry__next_loop).
  destruct (SpoolRecordReader.fileobj self) as [f|].
  - intros Hr. eapply spool_entry_on_read in Hr; [done|done|by apply spool_entry_read].
  - destruct (open_next self) as [[outcome self'] trace] eqn:Ho.
    assert (Hentry' : spool_entry fs self') by by eapply spool_entry_open_next.
    destruct outcome as [name|e]; [|by intros [= <-]].
    destruct (from_option truthy_str false name); [|by intros [= <-]].
    intros (trace' & Hr & _)%prepend_Some.
    eapply spool_entry_on_read in Hr; [done|done|by apply spool_entry_read].
Qed.

(** Every state a reader gets into holds, if any, a file of the
    directory. *)
Lemma reachable_entry self :
  wf_dir fs → reachable darwin_py2 fnmatch fs self → spool_entry fs self.
Proof.
  intros Hwf. induction 1 as [? ? ? ? ? ? self trace Hinit
                             |fuel self outcome self' trace _ IH Hnext
                             |self outcome self' trace _ IH Hopen
                             |filename self outcome self' trace _ IH Hopen].
  - by eapply spool_inv_entry, spool_inv_init.
  - by apply (spool_entry__next fuel self _ Hwf IH Hnext).
  - by eapply spool_entry_open_next.
  - pose proof (spool_entry_open_file filename self IH) as Hentry.
    by rewrite Hopen in Hentry.
Qed.

(** A reader made from the cursor of a reader is that reader. *)
Lemma init_tell self :
  spool_inv fs self →
  ∃ filename offset trace,
    SpoolRecordReader.tell self = Ok (filename, offset) ∧
    SpoolRecordReader.__init__ fs (SpoolRecordReader.directory self)
      (SpoolRecordReader.prefix self) filename offset (SpoolRecordReader.tail self)
      (SpoolRecordReader.rollover_hook self)
    = (Ok self, trace).
Proof.
  intros Hinv. unfold SpoolRecordReader.tell, SpoolRecordReader.__init__.
  destruct self as [directory prefix tail hook [f|]];
    cbn [SpoolRecordReader.directory SpoolRecordReader.prefix SpoolRecordReader.tail
         SpoolRecordReader.rollover_hook SpoolRecordReader.fileobj] in *.
  - destruct (Hinv f eq_refl) as (Hc & name & Hn & Hs & Hd).
    unfold File.tell. rewrite Hc. cbv [mbind result_bind].
    do 3 eexists. split; [done|].
    rewrite Hn, join_truthy, basename_join, basename_no_slash by done.
    unfold SpoolRecordReader.exists_in. rewrite Hd.
    rewrite bool_decide_eq_true_2 by by eexists. cbn [andb orb].
    unfold SpoolRecordReader.open_file, SpoolRecordReader.open_in.
    cbn [SpoolRecordReader.fileobj SpoolRecordReader.set_fileobj
         SpoolRecordReader.directory fmap option_fmap option_map].
    rewrite basename_join, basename_no_slash, Hd by done.
    cbn [SpoolRecordReader.fileobj File.seek File.closed File.set_pos File.name File.data
         SpoolRecordReader.set_fileobj SpoolRecordReader.directory SpoolRecordReader.prefix
         SpoolRecordReader.tail SpoolRecordReader.rollover_hook].
    do 3 f_equal. destruct f. cbn in *. by subst.
  - by do 3 eexists.
Qed.

(** C3, amended.  Over a directory that does not change and whose
    entries are proper names, in every state a reader gets into in which
    the file it holds, if any, is open, [tell] returns the name and the
    position of that file, or [(None, None)] when no file is held, and
    [__init__] with that name and that offset (and the directory, prefix,
    tail flag and hook of the reader) makes that very reader, so that
    whatever calls follow return from the new reader what they return
    from the old one. *)
Theorem tell_resumes (self : SpoolRecordReader.t) :
  wf_dir fs → reachable darwin_py2 fnmatch fs self → holds_open self →
  ∃ filename offset trace,
    SpoolRecordReader.tell self = Ok (filename, offset) ∧
    (SpoolRecordReader.fileobj self = None → filename = None ∧ offset = None) ∧
    (∀ f, SpoolRecordReader.fileobj self = Some f →
          filename = Some (File.name f) ∧ offset = Some (File.pos f)) ∧
    SpoolRecordReader.__init__ fs (SpoolRecordReader.directory self)
      (SpoolRecordReader.prefix self) filename offset (SpoolRecordReader.tail self)
      (SpoolRecordReader.rollover_hook self)
    = (Ok self, trace) ∧
    ∀ resumed trace',
      SpoolRecordReader.__init__ fs (SpoolRecordReader.directory self)
        (SpoolRecordReader.prefix self) filename offset (SpoolRecordReader.tail self)
        (SpoolRecordReader.rollover_hook self)
      = (Ok resumed, trace') →
      ∀ fuel polls n,
        SpoolRecordReader.run darwin_py2 fnmatch fs fuel polls n resumed
        = SpoolRecordReader.run darwin_py2 fnmatch fs fuel polls n self.
Proof.
  intros Hwf Hreach Hopen.
  assert (Hinv : spool_inv fs self)
    by (by apply spool_inv_intro; [|apply reachable_entry]).
  destruct (init_tell self Hinv) as (filename & offset & trace & Htell & Hinit).
  exists filename, offset, trace. split; [done|].
  split; [|split; [|split; [done|]]].
  - intros Hnone. unfold SpoolRecordReader.tell in Htell. rewrite Hnone in Htell.
    by injection Htell as <- <-.
  - intros f Hf. destruct (Hinv f Hf) as (Hc & _).
    unfold SpoolRecordReader.tell, File.tell in Htell. rewrite Hf, Hc in Htell.
    by injection Htell as <- <-.
  - intros resumed trace' Hresumed. rewrite Hinit in Hresumed.
    by injection Hresumed as <- _.
Qed.

End Spool.

(** ** A sample spool directory *)

Lemma wf_dir_Forall fs :
  map_Forall (λ name _, no_slash name = true ∧ name ≠ "") fs → wf_dir fs.
Proof. intros Hall name [data Hdata]. by apply (Hall name data). Defined.

Lemma wf_sample_spool : wf_dir sample_spool.
Proof. apply wf_dir_Forall. compute_done. Defined.

Lemma open_next_transitions_witness :
  let f := fresh_file sample_spool "spool" "u2.1" in
  let self := SpoolRecordReader.mk "spool" "u2." false true (Some f) in
  wf_dir sample_spool ∧
  SpoolRecordReader.open_next fnmatch_prefix sample_spool self
  = (Ok (Some "u2.2"),
     SpoolRecordReader.set_fileobj (Some (fresh_file sample_spool "spool" "u2.2")) self,
     [Closed "spool/u2.1"; Closed "spool/u2.1"; Opened "spool/u2.2";
      Rollover (Some "spool/u2.1") "spool/u2.2"]).
Proof.
  intros f self. split; [exact wf_sample_spool|].
  apply (proj1 (proj2 (proj2 (proj2
           (open_next_transitions fnmatch_prefix sample_spool self wf_sample_spool))))
         f 0%nat "u2.2");
    vm_compute; reflexivity.
Defined.

Lemma _next_end_of_stream_witness :
  let f := File.set_pos 9 (fresh_file sample_spool "spool" "u2.1") in
  let self := SpoolRecordReader.mk "spool" "u2." false true (Some f) in
  let f' := File.set_pos 9 (fresh_file sample_spool "spool" "u2.3") in
  wf_dir sample_spool ∧
  (length (SpoolRecordReader.get_filenames fnmatch_prefix sample_spool self) < 4)%nat ∧
  (∃ trace,
     SpoolRecordReader._next false fnmatch_prefix sample_spool 4 self
     = Some (Ok (Some (Unknown 1 [x02])),
             SpoolRecordReader.set_fileobj (Some f') self, trace)) ∧
  truncated (File.available f') ∧
  SpoolRecordReader._next false fnmatch_prefix sample_spool 4
    (SpoolRecordReader.set_fileobj (Some f') self)
  = Some (Ok None, SpoolRecordReader.set_fileobj (Some f') self, []).
Proof.
  intros f self f'.
  assert (Hlen : (length (SpoolRecordReader.get_filenames fnmatch_prefix sample_spool self)
                  < 4)%nat) by (vm_compute; lia).
  assert (Htr : truncated (File.available f')) by (left; vm_compute; lia).
  split; [exact wf_sample_spool|]. split; [exact Hlen|]. split; [|split; [exact Htr|]].
  - destruct (proj1 (proj2 (proj2
                (_next_end_of_stream false fnmatch_prefix sample_spool self)))
              wf_sample_spool 4%nat Hlen) as (trace & Hnext).
    exists trace. exact Hnext.
  - apply (proj1 (proj2
             (_next_end_of_stream false fnmatch_prefix sample_spool
                (SpoolRecordReader.set_fileobj (Some f') self))) 4%nat f');
      [reflexivity|reflexivity|exact Htr].
Defined.

Lemma tell_resumes_witness :
  let start := SpoolRecordReader.mk "spool" "u2." false true None in
  let f := File.set_pos 9 (fresh_file sample_spool "spool" "u2.1") in
  let self := SpoolRecordReader.set_fileobj (Some f) start in
  wf_dir sample_spool ∧
  reachable false fnmatch_prefix sample_spool self ∧
  holds_open self ∧
  SpoolRecordReader.tell self = Ok (Some "spool/u2.1", Some 9%nat) ∧
  ∃ trace,
    SpoolRecordReader.__init__ sample_spool "spool" "u2."
      (Some "spool/u2.1") (Some 9%nat) false true
    = (Ok self, trace).
Proof.
  intros start f self.
  assert (Hreach : reachable false fnmatch_prefix sample_spool self).
  { apply (reachable_next false fnmatch_prefix sample_spool 4 start
             (Ok (Some (Unknown 1 [x01]))) self
             [Opened "spool/u2.1"; Rollover None "spool/u2.1"]).
    - by apply (reachable_init false fnmatch_prefix sample_spool
                  "spool" "u2." None None false true start []).
    - vm_compute. reflexivity. }
  assert (Hopen : holds_open self) by (by intros f' [= <-]).
  split; [exact wf_sample_spool|]. split; [exact Hreach|]. split; [exact Hopen|].
  split; [reflexivity|].
  destruct (tell_resumes false fnmatch_prefix sample_spool self wf_sample_spool
              Hreach Hopen)
    as (filename & offset & trace & Htell & _ & Hsome & Hinit & _).
  destruct (Hsome f eq_refl) as [-> ->].
  exists trace. exact Hinit.
Defined.

(** The claim C3 as it is stated fails in the state a call of [open_file]
    that raised leaves.  A reader over [sample_spool] returns the first
    record of ["u2.1"]; [open_file] is then called with ["u2.7"], which
    names no file of the directory: it closes ["u2.1"] and raises
    [IOError].  The reader now holds a closed file, over the directory as
    it was, and [tell] raises [ValueError] where the claim has it return
    the name and the offset. *)
Lemma tell_resumes_counterexample :
  let start := SpoolRecordReader.mk "spool" "u2." false false None in
  let f := File.set_pos 9 (fresh_file sample_spool "spool" "u2.1") in
  let self := SpoolRecordReader.set_fileobj (Some f) start in
  let self' := SpoolRecordReader.set_fileobj (Some (File.close f)) start in
  wf_dir sample_spool ∧
  SpoolRecordReader.__init__ sample_spool "spool" "u2." None None false false
  = (Ok start, []) ∧
  SpoolRecordReader._next false fnmatch_prefix sample_spool 4 start
  = Some (Ok (Some (Unknown 1 [x01])), self, [Opened "spool/u2.1"]) ∧
  SpoolRecordReader.open_file sample_spool "u2.7" self
  = (Raise IOError, self', [Closed "spool/u2.1"]) ∧
  reachable false fnmatch_prefix sample_spool self' ∧
  SpoolRecordReader.tell self' = Raise ValueError ∧
  ¬ ∃ filename offset, SpoolRecordReader.tell self' = Ok (filename, offset).
Proof.
  intros start f self self'.
  assert (Hinit : SpoolRecordReader.__init__ sample_spool "spool" "u2." None None
                    false false = (Ok start, [])) by reflexivity.
  assert (Hnext : SpoolRecordReader._next false fnmatch_prefix sample_spool 4 start
                  = Some (Ok (Some (Unknown 1 [x01])), self, [Opened "spool/u2.1"]))
    by (vm_compute; reflexivity).
  assert (Hopen : SpoolRecordReader.open_file sample_spool "u2.7" self
                  = (Raise IOError, self', [Closed "spool/u2.1"]))
    by (vm_compute; reflexivity).
  split; [exact wf_sample_spool|]. split; [exact Hinit|]. split; [exact Hnext|].
  split; [exact Hopen|]. split; [|split; [reflexivity|]].
  - eapply reachable_open_file; [|exact Hopen].
    eapply reachable_next; [|exact Hnext].
    eapply reachable_init. exact Hinit.
  - intros (filename & offset & Htell). discriminate Htell.
Qed.

(* ===================================================================== *)
(** * Further properties *)
(* ===================================================================== *)

(** ** The fixed length and the format of a decoder *)

Lemma concat_cons (x : string) (xs : list string) :
  String.concat "" (x :: xs) = x +:+ String.concat "" xs.
Proof. destruct xs as [|y xs]; [by rewrite append_nil_r|done]. Qed.

Lemma omap_cons_eq {A B} (g : A → option B) (x : A) (l : list A) :
  omap g (x :: l) = match g x with Some y => y :: omap g l | None => omap g l end.
Proof. done. Qed.

(** X1.  What [AbstractDecoder.__init__] computes from a field table.
    For fields that give no format of their own and whose lengths are 4,
    2, 1 or none, the format string has one code a field with a length,
    and the fixed length is the size of the format: the packet and extra
    data decoders cut the buffer where the format ends.  With formats
    given by the fields the two can differ: the IPv6 tables give their
    16-byte addresses the length 4, so that their fixed lengths, 52 and
    60, are 24 short of the sizes of their formats, 76 and 84; the event
    decoder does not use the fixed length. *)
Theorem AbstractDecoder_init_sizes :
  (∀ class fields,
     Forall (λ f, Field._fmt f = None ∧
                  Field.length f ∈ [None; Some 4; Some 2; Some 1]%nat) fields →
     ∃ cs,
       struct.parse (AbstractDecoder.format (AbstractDecoder.__init__ class fields))
       = Some cs ∧
       struct.calcsize_codes cs
       = AbstractDecoder.fixed_len (AbstractDecoder.__init__ class fields) ∧
       length cs = length (packed_fields fields)) ∧
  (∀ record_type decoder,
     DECODERS !! record_type = Some decoder →
     ∃ cs,
       struct.parse (AbstractDecoder.format decoder) = Some cs ∧
       struct.calcsize_codes cs
       = (AbstractDecoder.fixed_len decoder
          + if bool_decide (is_ip6_type record_type) then 24 else 0)%nat).
Proof.
  split.
  - intros class fields Hfields.
    unfold AbstractDecoder.__init__.
    cbn [AbstractDecoder.format AbstractDecoder.fixed_len].
    change (struct.parse (">" +:+ ?s)) with (struct.parse_codes s None).
    induction Hfields as [|f fields [Hfmt Hlen] _ (cs & Hparse & Hsize & Hcount)].
    { by exists []. }
    assert (Hcases :
      Field.fmt f = None ∧ Field.length f = None ∨
      ∃ c code n, Field.fmt f = Some (String c "") ∧ Field.length f = Some n ∧
                  struct.size code = n ∧
                  ∀ rest, struct.parse_codes (String c rest) None
                          = (λ cs, code :: cs) <$> struct.parse_codes rest None).
    { unfold Field.fmt. rewrite Hfmt.
      rewrite !elem_of_cons, elem_of_nil in Hlen.
      destruct Hlen as [Hl|[Hl|[Hl|[Hl|[]]]]]; rewrite Hl.
      - by left.
      - right. by exists "L"%char, struct.L, 4%nat.
      - right. by exists "H"%char, struct.H, 2%nat.
      - right. by exists "B"%char, struct.B, 1%nat. }
    unfold packed_fields. rewrite filter_cons.
    destruct Hcases as [[Hf Hl]|(c & code & n & Hf & Hl & Hn & Hc)].
    + exists cs. rewrite !omap_cons_eq, Hf, Hl.
      rewrite decide_False by (by intros []). done.
    + exists (code :: cs). rewrite !omap_cons_eq, Hf, Hl.
      rewrite concat_cons, append_cons. change ("" +:+ ?s) with s.
      rewrite Hc, Hparse. split; [done|].
      rewrite decide_True by (by eexists).
      cbn [struct.calcsize_codes foldr length]. fold (struct.calcsize_codes cs).
      rewrite Hsize, Hn. unfold packed_fields in Hcount. by rewrite Hcount.
  - intros record_type decoder.
    destruct (decide (recognized record_type)) as [Hr|Hr];
      [|by rewrite DECODERS_unknown].
    unfold recognized in Hr. rewrite !elem_of_cons, elem_of_nil in Hr.
    destruct Hr as [->|[->|[->|[->|[->|[->|[]]]]]]]; intros [= <-]; by eexists.
Qed.

Lemma AbstractDecoder_init_sizes_witness :
  ∃ cs,
    struct.parse (AbstractDecoder.format
                    (AbstractDecoder.__init__ PacketDecoder PACKET_FIELDS)) = Some cs ∧
    struct.calcsize_codes cs = 28%nat ∧ length cs = 7%nat.
Proof.
  destruct (proj1 AbstractDecoder_init_sizes PacketDecoder PACKET_FIELDS)
    as (cs & Hparse & Hsize & Hcount).
  - repeat constructor; cbn; rewrite ?elem_of_cons; auto.
  - exists cs. split; [exact Hparse|]. split; [exact Hsize|exact Hcount].
Defined.


(** ** Payload sizes *)

Lemma unpack_sized fmt cs buf :
  struct.parse fmt = Some cs →
  struct.unpack fmt buf
  = if bool_decide (length buf = struct.calcsize_codes cs)
    then Ok (struct.unpack_codes cs buf) else Raise StructError.
Proof. intros Hp. unfold struct.unpack. by rewrite Hp. Qed.

Lemma decode_event_sized record_type fields cs buf :
  DECODERS !! record_type = Some (AbstractDecoder.__init__ EventDecoder fields) →
  struct.parse (AbstractDecoder.format (AbstractDecoder.__init__ EventDecoder fields))
  = Some cs →
  decode_record record_type buf
  = if bool_decide (length buf = struct.calcsize_codes cs)
    then Ok (Event__init__ (zip fields (struct.unpack_codes cs buf)))
    else Raise StructError.
Proof.
  intros Hd Hp. unfold decode_record. rewrite Hd. unfold AbstractDecoder.decode.
  cbn [AbstractDecoder.class AbstractDecoder.__init__ AbstractDecoder.fields].
  rewrite (unpack_sized _ cs) by done. by case_bool_decide.
Qed.

Lemma decode_rest_sized record_type class fields cs buf :
  DECODERS !! record_type = Some (AbstractDecoder.__init__ class fields) →
  class ≠ EventDecoder →
  struct.parse (AbstractDecoder.format (AbstractDecoder.__init__ class fields))
  = Some cs →
  struct.calcsize_codes cs
  = AbstractDecoder.fixed_len (AbstractDecoder.__init__ class fields) →
  let n := struct.calcsize_codes cs in
  decode_record record_type buf
  = if bool_decide (n ≤ length buf)%nat
    then Ok (match class with
             | ExtraDataDecoder =>
                 ExtraData__init__ (struct.unpack_codes cs (take n buf))
                   {["data" := VBytes (drop n buf)]}
             | _ =>
                 Packet__init__ (struct.unpack_codes cs (take n buf))
                   {["data" := VBytes (drop n buf)]}
             end)
    else Raise StructError.
Proof.
  intros Hd Hc Hp Hlen n. unfold decode_record. rewrite Hd.
  unfold AbstractDecoder.decode. rewrite <- Hlen. fold n.
  destruct class; [done|..];
    cbn [AbstractDecoder.class AbstractDecoder.__init__];
    rewrite (unpack_sized _ cs) by done; fold n; rewrite length_take;
    repeat case_bool_decide; try done; lia.
Qed.

Ltac eval_size :=
  repeat match goal with
  | |- context [struct.calcsize_codes ?cs] =>
      let n := eval vm_compute in (struct.calcsize_codes cs) in
      change (struct.calcsize_codes cs) with n
  end.

(** X2.  The payload sizes [decode_record] takes.  An event payload must
    have the very size of its format: 52 bytes for [EVENT], 76 for
    [EVENT_IP6], 60 for [EVENT_V2] and 84 for [EVENT_IP6_V2]; a payload of
    any other size raises [struct.error].  A [PACKET] payload needs its 28
    fixed bytes and an [EXTRA_DATA] payload its 32: a shorter one raises
    [struct.error], and what is behind the fixed bytes is the ["data"] of
    the record, which may be empty. *)
Theorem decode_record_sizes (buf : list byte) :
  (∀ record_type n,
     (record_type, n) ∈ [(EVENT, 52); (EVENT_IP6, 76); (EVENT_V2, 60); (EVENT_IP6_V2, 84)]%nat →
     (length buf = n → ∃ d, decode_record record_type buf = Ok (Event d)) ∧
     (length buf ≠ n → decode_record record_type buf = Raise StructError)) ∧
  (∀ record_type n,
     (record_type, n) ∈ [(PACKET, 28); (EXTRA_DATA, 32)]%nat →
     ((n ≤ length buf)%nat →
        ∃ r, decode_record record_type buf = Ok r ∧
             class_of record_type r ∧
             dict_of r !! "data" = Some (VBytes (drop n buf))) ∧
     ((length buf < n)%nat → decode_record record_type buf = Raise StructError)).
Proof.
  split; intros record_type n; rewrite !elem_of_cons, elem_of_nil.
  - intros [[= -> ->]|[[= -> ->]|[[= -> ->]|[[= -> ->]|[]]]]];
      [rewrite (decode_event_sized EVENT EVENT_FIELDS _ buf eq_refl eq_refl)
      |rewrite (decode_event_sized EVENT_IP6 EVENT_IP6_FIELDS _ buf eq_refl eq_refl)
      |rewrite (decode_event_sized EVENT_V2 EVENT_V2_FIELDS _ buf eq_refl eq_refl)
      |rewrite (decode_event_sized EVENT_IP6_V2 EVENT_IP6_V2_FIELDS _ buf eq_refl eq_refl)];
      (eval_size; split; intros Hn;
       [rewrite bool_decide_eq_true_2 by done; by eexists
       |by rewrite bool_decide_eq_false_2 by done]).
  - intros [[= -> ->]|[[= -> ->]|[]]].
    + rewrite (decode_rest_sized PACKET PacketDecoder PACKET_FIELDS _ buf eq_refl)
        by done.
      eval_size. split; intros Hn.
      * rewrite bool_decide_eq_true_2 by done. eexists. split; [done|].
        split; [done|]. apply lookup_union_Some_l, lookup_singleton_eq.
      * by rewrite bool_decide_eq_false_2 by lia.
    + rewrite (decode_rest_sized EXTRA_DATA ExtraDataDecoder EXTRA_DATA_FIELDS _ buf eq_refl)
        by done.
      eval_size. split; intros Hn.
      * rewrite bool_decide_eq_true_2 by done. eexists. split; [done|].
        split; [done|]. apply lookup_union_Some_l, lookup_singleton_eq.
      * by rewrite bool_decide_eq_false_2 by lia.
Qed.

Lemma decode_record_sizes_witness :
  (PACKET, 28%nat) ∈ [(PACKET, 28%nat); (EXTRA_DATA, 32%nat)] ∧
  (length (replicate 27 x00) < 28)%nat ∧
  decode_record PACKET (replicate 27 x00) = Raise StructError.
Proof.
  assert (Hin : (PACKET, 28%nat) ∈ [(PACKET, 28%nat); (EXTRA_DATA, 32%nat)])
    by (apply list_elem_of_here).
  assert (Hlen : (length (replicate 27 x00) < 28)%nat) by (vm_compute; lia).
  split; [exact Hin|]. split; [exact Hlen|].
  exact (proj2 (proj2 (decode_record_sizes (replicate 27 x00)) PACKET 28%nat Hin) Hlen).
Defined.

(** ** Re-encoding a decoded record *)

Lemma byte_of_to_Z b : byte_of_Z (byte_to_Z b) = b.
Proof. by destruct b. Qed.

Lemma be_encode_decode n bs : length bs = n → be_encode n (be_decode bs) = bs.
Proof.
  revert n. induction bs as [|b bs IH] using rev_ind; intros n Hn.
  - by subst.
  - rewrite length_app in Hn. cbn [length] in Hn.
    destruct n as [|n]; [lia|]. rewrite be_decode_snoc. cbn [be_encode].
    pose proof (byte_to_Z_range b) as Hb.
    replace ((be_decode bs * 256 + byte_to_Z b) / 256) with (be_decode bs)
      by (symmetry; rewrite Z.add_comm, Z.div_add by lia;
          rewrite Z.div_small by lia; lia).
    rewrite IH by lia. f_equal. f_equal.
    unfold byte_of_Z.
    replace ((be_decode bs * 256 + byte_to_Z b) mod 256) with (byte_to_Z b mod 256)
      by (rewrite Z.add_comm, Z.mod_add by lia; done).
    apply byte_of_to_Z.
Qed.

Lemma pack_unpack_code c bs :
  length bs = struct.size c → struct.pack_code c (struct.unpack_code c bs) = bs.
Proof.
  destruct c; cbn [struct.pack_code struct.unpack_code struct.size]; intros Hn;
    try done; by apply be_encode_decode.
Qed.

Lemma length_unpack_codes cs buf : length (struct.unpack_codes cs buf) = length cs.
Proof. revert buf. induction cs as [|c cs IH]; intros buf; simpl; [done|]. by rewrite IH. Qed.

(** Packing what was unpacked from a buffer of the size of the format
    gives the buffer back. *)
Lemma pack_unpack_codes cs buf :
  length buf = struct.calcsize_codes cs →
  struct.pack_codes cs (struct.unpack_codes cs buf) = buf.
Proof.
  revert buf. induction cs as [|c cs IH]; intros buf Hlen.
  - by destruct buf.
  - cbn [struct.calcsize_codes foldr] in Hlen. fold (struct.calcsize_codes cs) in Hlen.
    cbn [struct.unpack_codes struct.pack_codes].
    rewrite pack_unpack_code by (rewrite length_take; lia).
    rewrite IH by (rewrite length_drop; lia).
    apply take_drop.
Qed.

Lemma set_fields_cons f v pairs d :
  set_fields ((f, v) :: pairs) d = set_fields pairs (<[Field.name f := v]> d).
Proof. done. Qed.

Lemma set_fields_lookup_notin pairs d k :
  k ∉ names pairs → set_fields pairs d !! k = d !! k.
Proof.
  revert d. induction pairs as [|[f v] pairs IH]; intros d Hk; [done|].
  unfold names in Hk. rewrite fmap_cons, not_elem_of_cons in Hk. destruct Hk as [Hf Hk].
  rewrite set_fields_cons, IH by done. by rewrite lookup_insert_ne.
Qed.

Lemma names_zip fields (parts : list value) :
  length fields = length parts → names (zip fields parts) = Field.name <$> fields.
Proof.
  revert parts. induction fields as [|f fields IH]; intros [|p parts] Hlen;
    simplify_eq/=; [done|]. unfold names in IH. by rewrite IH.
Qed.

(** With names that differ, the dictionary holds each value under the
    name of its field. *)
Lemma set_fields_values fields parts d :
  NoDup (Field.name <$> fields) → length fields = length parts →
  omap (λ f, set_fields (zip fields parts) d !! Field.name f) fields = parts.
Proof.
  revert parts d. induction fields as [|f fields IH]; intros [|p parts] d Hnd Hlen;
    try done.
  rewrite fmap_cons in Hnd. apply NoDup_cons in Hnd as [Hf Hnd].
  cbn [length] in Hlen. cbn [zip zip_with]. rewrite set_fields_cons.
  change (omap ?g (f :: fields))
    with (match g f with Some y => y :: omap g fields | None => omap g fields end).
  cbv beta.
  rewrite set_fields_lookup_notin by (rewrite names_zip by lia; done).
  rewrite lookup_insert_eq. f_equal. apply IH; [done|lia].
Qed.

Lemma zip_app_l {A B} (l1 l2 : list A) (k : list B) :
  length l1 = length k → zip (l1 ++ l2) k = zip l1 k.
Proof.
  revert k. induction l1 as [|x l1 IH]; intros [|y k] Hlen; simplify_eq/=.
  - by destruct l2.
  - by rewrite IH.
Qed.

Lemma omap_ext_in {A B} (f g : A → option B) (l : list A) :
  (∀ x, x ∈ l → f x = g x) → omap f l = omap g l.
Proof.
  induction l as [|x l IH]; intros Hfg; [done|]. cbn.
  rewrite Hfg by apply list_elem_of_here.
  rewrite IH; [done|]. intros y Hy. apply Hfg. by apply list_elem_of_further.
Qed.

(** An event: every field is packed, and no field is named ["data"]. *)
Lemma lossless_event record_type fields cs buf :
  DECODERS !! record_type = Some (AbstractDecoder.__init__ EventDecoder fields) →
  struct.parse (AbstractDecoder.format (AbstractDecoder.__init__ EventDecoder fields))
  = Some cs →
  packed_fields fields = fields → length fields = length cs →
  NoDup (Field.name <$> fields) → "data" ∉ Field.name <$> fields →
  ∀ r, decode_record record_type buf = Ok r →
       build_payload record_type (values_of record_type r) (data_of r) = buf.
Proof.
  intros Hd Hp Hpacked Hlen Hnd Hdata r.
  rewrite (decode_event_sized record_type fields cs buf Hd Hp).
  case_bool_decide as Hsize; [|done]. intros [= <-].
  unfold build_payload, values_of, data_of, codes_of, fields_of. rewrite Hd.
  cbn [AbstractDecoder.fields AbstractDecoder.__init__]. rewrite Hp. cbn [default].
  rewrite Hpacked. unfold Event__init__. cbn [dict_of].
  rewrite set_fields_values by (by rewrite ?length_unpack_codes).
  rewrite set_fields_lookup_notin
    by (by rewrite names_zip by (by rewrite length_unpack_codes)).
  rewrite !lookup_insert_ne by done. rewrite lookup_empty, app_nil_r.
  by apply pack_unpack_codes.
Qed.

(** A packet or extra data: the fields but the last are packed, and the
    last is ["data"]. *)
Lemma lossless_rest record_type class fields cs buf :
  DECODERS !! record_type = Some (AbstractDecoder.__init__ class fields) →
  (class = PacketDecoder ∧ fields = PACKET_FIELDS ∨
   class = ExtraDataDecoder ∧ fields = EXTRA_DATA_FIELDS) →
  struct.parse (AbstractDecoder.format (AbstractDecoder.__init__ class fields))
  = Some cs →
  struct.calcsize_codes cs
  = AbstractDecoder.fixed_len (AbstractDecoder.__init__ class fields) →
  fields = packed_fields fields ++ [field_rest "data"] →
  length (packed_fields fields) = length cs →
  NoDup (Field.name <$> packed_fields fields) →
  "data" ∉ Field.name <$> packed_fields fields →
  ∀ r, decode_record record_type buf = Ok r →
       build_payload record_type (values_of record_type r) (data_of r) = buf.
Proof.
  intros Hd Hclass Hp Hfixed Hfields Hlen Hnd Hdata r.
  assert (Hc : class ≠ EventDecoder) by (by destruct Hclass as [[-> _]|[-> _]]).
  rewrite (decode_rest_sized record_type class fields cs buf Hd Hc Hp Hfixed).
  case_bool_decide as Hsize; [|done]. intros [= <-].
  set (n := struct.calcsize_codes cs) in *.
  set (parts := struct.unpack_codes cs (take n buf)).
  assert (Hparts : length (packed_fields fields) = length parts)
    by (unfold parts; by rewrite length_unpack_codes).
  set (d := update {["data" := VBytes (drop n buf)]}
              (set_fields (zip fields parts) ∅)).
  assert (Hr : dict_of (match class with
                        | ExtraDataDecoder =>
                            ExtraData__init__ parts {["data" := VBytes (drop n buf)]}
                        | _ => Packet__init__ parts {["data" := VBytes (drop n buf)]}
                        end) = d)
    by (by destruct Hclass as [[-> ->]|[-> ->]]).
  unfold build_payload, values_of, data_of, codes_of, fields_of. rewrite Hd, Hr.
  cbn [AbstractDecoder.fields AbstractDecoder.__init__]. rewrite Hp. cbn [default].
  assert (Hvalues : omap (λ f, d !! Field.name f) (packed_fields fields) = parts).
  { etrans; [|by apply (set_fields_values (packed_fields fields) parts ∅)].
    apply omap_ext_in. intros f Hf. unfold d, update.
    rewrite lookup_union_r.
    - rewrite Hfields at 1. by rewrite zip_app_l.
    - apply lookup_singleton_ne. intros Heq. apply Hdata. rewrite Heq.
      by apply list_elem_of_fmap_2. }
  rewrite Hvalues. unfold d, update.
  rewrite (lookup_union_Some_l _ _ _ _ (lookup_singleton_eq _ _)).
  unfold parts. rewrite pack_unpack_codes by (rewrite length_take; lia).
  apply take_drop.
Qed.

(** X3.  Decoding loses nothing.  The values a decoded record holds under
    the fields of its type, packed again in the order of the field table
    and followed by the bytes under ["data"], are the buffer that was
    decoded; hence two buffers that decode to the same record under the
    same type are the same buffer. *)
Theorem decode_record_lossless (record_type : Z) (buf : list byte) (r : record) :
  decode_record record_type buf = Ok r →
  (recognized record_type →
     build_payload record_type (values_of record_type r) (data_of r) = buf) ∧
  (∀ buf', decode_record record_type buf' = Ok r → buf' = buf).
Proof.
  assert (Hbuild : recognized record_type → ∀ buf r,
            decode_record record_type buf = Ok r →
            build_payload record_type (values_of record_type r) (data_of r) = buf).
  { clear buf r. unfold recognized. rewrite !elem_of_cons, elem_of_nil.
    intros [->|[->|[->|[->|[->|[->|[]]]]]]] buf.
    - by apply (lossless_event EVENT EVENT_FIELDS _ buf eq_refl eq_refl);
        compute_done.
    - by apply (lossless_event EVENT_IP6 EVENT_IP6_FIELDS _ buf eq_refl eq_refl);
        compute_done.
    - by apply (lossless_event EVENT_V2 EVENT_V2_FIELDS _ buf eq_refl eq_refl);
        compute_done.
    - by apply (lossless_event EVENT_IP6_V2 EVENT_IP6_V2_FIELDS _ buf eq_refl eq_refl);
        compute_done.
    - eapply (lossless_rest PACKET PacketDecoder PACKET_FIELDS);
        [reflexivity|by left|reflexivity|reflexivity|reflexivity|reflexivity
        |compute_done..].
    - eapply (lossless_rest EXTRA_DATA ExtraDataDecoder EXTRA_DATA_FIELDS);
        [reflexivity|by right|reflexivity|reflexivity|reflexivity|reflexivity
        |compute_done..]. }
  intros Hdec. split; [intros Hr; by apply Hbuild|].
  intros buf' Hdec'. destruct (decide (recognized record_type)) as [Hr|Hr].
  - by rewrite <- (Hbuild Hr buf r Hdec), <- (Hbuild Hr buf' r Hdec').
  - unfold decode_record in Hdec, Hdec'. rewrite DECODERS_unknown in Hdec, Hdec' by done.
    congruence.
Qed.

Lemma decode_record_lossless_witness :
  let buf := replicate 28 x01 ++ [xde; xad] in
  ∃ r, decode_record PACKET buf = Ok r ∧
       build_payload PACKET (values_of PACKET r) (data_of r) = buf.
Proof.
  intros buf.
  destruct (decode_record PACKET buf) as [r|] eqn:Hdec;
    [|vm_compute in Hdec; discriminate].
  exists r. split; [reflexivity|].
  apply (proj1 (decode_record_lossless PACKET buf r Hdec)). compute_done.
Defined.

(** ** Decoded records and the aggregator *)

(** X4.  A record that [decode_record] returns, and so one that
    [read_record] returns, is true in a condition, whatever the type and
    the buffer: the tests [if record] of the readers take no record for
    the end of a file. *)
Theorem decoded_record_truthy :
  (∀ record_type buf r, decode_record record_type buf = Ok r → truthy r = true) ∧
  (∀ f r f', read_record f = (Ok (Some r), f') → truthy r = true) ∧
  (∀ darwin_py2 f r f',
     RecordReader.next darwin_py2 f = (Ok (Some r), f') → truthy_opt (Some r) = true).
Proof.
  split; [apply decode_record_truthy|]. split; [apply read_record_truthy|].
  intros darwin_py2 f r f'. rewrite RecordReader_next. apply read_record_truthy.
Qed.

Lemma decoded_record_truthy_witness :
  decode_record 1 [] = Ok (Unknown 1 []) ∧ truthy (Unknown 1 []) = true.
Proof.
  split; [reflexivity|].
  exact (proj1 decoded_record_truthy 1 [] (Unknown 1 []) eq_refl).
Defined.

Lemma add_all_wf_queue records queue events queue' :
  queue_inv queue → Forall record_wf queue → Forall record_wf records →
  Aggregator.add_all records queue = Some (events, queue') →
  queue_inv queue' ∧ Forall record_wf queue'.
Proof.
  intros Hinv Hq Hrecords. revert queue events Hinv Hq.
  induction Hrecords as [|rcd records Hrcd _ IH]; intros queue events Hinv Hq Hall.
  - by injection Hall as _ <-.
  - cbn [Aggregator.add_all] in Hall.
    destruct (add_wf rcd queue Hinv Hq Hrcd) as (event & queue1 & log & Hadd & Hq1).
    rewrite Hadd in Hall.
    destruct (Aggregator.add_all records queue1) as [[events1 queue2]|] eqn:Hall1;
      [|done].
    injection Hall as _ <-. eapply IH; [| |done]; [|done].
    by eapply add_queue_inv.
Qed.

(** X5.  The records that [decode_record] returns go through the
    aggregator without an exception: whatever the record types and the
    buffers they were decoded from, and in whatever order, no call of
    [add] raises, and neither does the [flush] that follows. *)
Theorem decoded_records_aggregate (records : list record) :
  Forall (λ r, ∃ record_type buf, decode_record record_type buf = Ok r) records →
  ∃ events queue event,
    Aggregator.add_all records Aggregator.__init__ = Some (events, queue) ∧
    length events = length records ∧
    Aggregator.flush queue = (Ok event, []).
Proof.
  intros Hdec.
  assert (Hwf : Forall record_wf records).
  { eapply Forall_impl; [exact Hdec|]. intros r (record_type & buf & Hr).
    by eapply decode_record_wf. }
  destruct (add_all_wf records Aggregator.__init__ I (Forall_nil_2 _) Hwf)
    as [[events queue] Hall].
  destruct (add_all_wf_queue records Aggregator.__init__ events queue I
              (Forall_nil_2 _) Hwf Hall) as [Hinv Hq].
  assert (Hlen : ∀ records queue events queue',
            Aggregator.add_all records queue = Some (events, queue') →
            length events = length records).
  { clear. induction records as [|rcd records IH]; intros queue events queue' Hall.
    - by injection Hall as <- _.
    - cbn [Aggregator.add_all] in Hall.
      destruct (Aggregator.add rcd queue) as [[[event|e] queue1] log]; [|done].
      destruct (Aggregator.add_all records queue1) as [[events1 queue2]|] eqn:Hall1;
        [|done].
      injection Hall as <- _. cbn [length]. f_equal. by eapply IH. }
  destruct queue as [|[d| | |] rest].
  - exists events, [], None. split; [done|]. split; [by eapply Hlen|done].
  - destruct Hinv as [_ Hrest]. apply Forall_cons in Hq as [Hd _].
    exists events, (Event d :: rest), (Some (Event (completed d rest))).
    split; [done|]. split; [by eapply Hlen|]. by apply flush_completed.
  - by destruct Hinv.
  - by destruct Hinv.
  - by destruct Hinv.
Qed.

Lemma decoded_records_aggregate_witness :
  let records := [Unknown 1 []; Unknown 200 [x01]] in
  Forall (λ r, ∃ record_type buf, decode_record record_type buf = Ok r) records ∧
  ∃ events queue event,
    Aggregator.add_all records Aggregator.__init__ = Some (events, queue) ∧
    length events = length records ∧
    Aggregator.flush queue = (Ok event, []).
Proof.
  intros records.
  assert (Hdec : Forall (λ r, ∃ record_type buf, decode_record record_type buf = Ok r)
                   records).
  { repeat constructor.
    - by exists 1, [].
    - by exists 200, [x01]. }
  split; [exact Hdec|]. exact (decoded_records_aggregate records Hdec).
Defined.

(** ** Aggregating a sequence of records *)

Lemma add_all_app l1 l2 queue :
  Aggregator.add_all (l1 ++ l2) queue
  = '(events1, queue1) ← Aggregator.add_all l1 queue;
    '(events2, queue2) ← Aggregator.add_all l2 queue1;
    Some (events1 ++ events2, queue2).
Proof.
  revert queue. induction l1 as [|rcd l1 IH]; intros queue.
  - cbn. by destruct (Aggregator.add_all l2 queue) as [[events2 queue2]|].
  - cbn [app Aggregator.add_all].
    destruct (Aggregator.add rcd queue) as [[[event|e] queue1] log]; [|done].
    rewrite IH. destruct (Aggregator.add_all l1 queue1) as [[events1 queue2]|]; [|done].
    cbn. by destruct (Aggregator.add_all l2 queue2) as [[events2 queue3]|].
Qed.

(** Records that are not events are dropped while the queue is empty. *)
Lemma add_all_orphans l :
  Forall (λ r, isinstance_Event r = false) l →
  Aggregator.add_all l [] = Some (replicate (length l) None, []).
Proof.
  induction 1 as [|rcd l Hrcd _ IH]; [done|].
  cbn [Aggregator.add_all]. unfold Aggregator.add. rewrite Hrcd, IH. done.
Qed.

(** Behind an event they are queued. *)
Lemma add_all_followers l head rest :
  Forall (λ r, isinstance_Event r = false) l →
  Aggregator.add_all l (head :: rest)
  = Some (replicate (length l) None, head :: rest ++ l).
Proof.
  intros Hl. revert rest. induction Hl as [|rcd l Hrcd _ IH]; intros rest.
  - by rewrite app_nil_r.
  - cbn [Aggregator.add_all]. unfold Aggregator.add. rewrite Hrcd.
    cbn [app]. rewrite IH. by rewrite <- app_assoc.
Qed.

Lemma queued_cons previous g groups :
  queued previous (g :: groups) = queued (Some g) groups.
Proof.
  unfold queued. destruct groups as [|g' groups]; [done|].
  change (last (g :: g' :: groups)) with (last (g' :: groups)).
  destruct (last (g' :: groups)) eqn:Hlast; [done|]. by apply last_None in Hlast.
Qed.

Lemma add_all_groups previous groups :
  from_option group_wf True previous → Forall group_wf groups →
  Aggregator.add_all (concat (group_records <$> groups))
    (from_option group_records [] previous)
  = Some (returned (group_event <$> previous) groups, queued previous groups).
Proof.
  intros Hprev Hgroups. revert previous Hprev.
  induction Hgroups as [|g groups [Hd Hrest] _ IH]; intros previous Hprev; [done|].
  rewrite fmap_cons, queued_cons. cbn [concat returned].
  unfold group_records at 1. rewrite <- app_comm_cons. cbn [Aggregator.add_all].
  assert (Hadd : Aggregator.add (Event g.1) (from_option group_records [] previous)
                 = (Ok (group_event <$> previous), [Event g.1], [])).
  { destruct previous as [p|]; [|done]. destruct Hprev as [Hp Hprest].
    cbn [from_option fmap option_fmap option_map]. unfold group_records, group_event.
    unfold Aggregator.add. cbn [isinstance_Event].
    by rewrite flush_completed. }
  rewrite Hadd, add_all_app, add_all_followers by done. cbn [mbind option_bind app].
  change (Event g.1 :: g.2) with (from_option group_records [] (Some g)).
  rewrite IH by done. done.
Qed.

(** X6.  The aggregator groups a sequence of records by event.  Let the
    sequence be records that are not events, then groups, each an event
    followed by records that are not events.  Fed through [add] from an
    empty queue, the records before the first event are dropped; the call
    that adds the event of a group returns the group before it as one
    event, which holds the packets and the extra data of that group in
    their order; every other call returns [None]; the last group is left
    in the queue, and [flush] returns it. *)
Theorem Aggregator_groups (orphans : list record) (groups : list group) :
  Forall (λ r, isinstance_Event r = false) orphans →
  Forall group_wf groups →
  Aggregator.add_all (orphans ++ concat (group_records <$> groups)) Aggregator.__init__
  = Some (replicate (length orphans) None ++ returned None groups, queued None groups) ∧
  Aggregator.flush (queued None groups) = (Ok (group_event <$> last groups), []) ∧
  omap id (returned None groups) ++ from_option (λ g, [group_event g]) [] (last groups)
  = group_event <$> groups ∧
  ∀ g, g ∈ groups →
    packets_of (dict_of (group_event g))
    = packets_of g.1 ++ filter (λ r, isinstance_Packet r = true) g.2 ∧
    extra_data_of (dict_of (group_event g))
    = extra_data_of g.1 ++ filter (λ r, isinstance_ExtraData r = true) g.2.
Proof.
  intros Horphans Hgroups. split; [|split; [|split]].
  - rewrite add_all_app, add_all_orphans by done. cbn [mbind option_bind].
    pose proof (add_all_groups None groups I Hgroups) as Hall.
    cbn [from_option fmap option_fmap option_map] in Hall.
    unfold Aggregator.__init__. by rewrite Hall.
  - unfold queued. destruct (last groups) as [g|] eqn:Hlast; [|done].
    cbn [from_option fmap option_fmap option_map].
    assert (Hg : group_wf g).
    { eapply Forall_forall; [exact Hgroups|]. by apply last_Some_elem_of. }
    destruct Hg as [Hd Hrest]. by apply flush_completed.
  - clear. assert (Hgen : ∀ previous : option record,
      omap id (returned previous groups)
      ++ from_option (λ g, [group_event g]) [] (last groups)
      = match groups with
        | [] => []
        | _ :: _ => from_option (λ r, [r]) [] previous ++ (group_event <$> groups)
        end).
    { induction groups as [|g groups IH]; intros previous; [done|].
      cbn [returned].
      assert (Hnone : ∀ n, omap id (replicate n (None : option record)) = [])
        by (induction n; done).
      assert (Hcons : ∀ l, omap id (previous :: l)
                           = from_option (λ r, [r]) [] previous ++ omap id l)
        by (by destruct previous).
      rewrite Hcons, omap_app, Hnone, app_nil_l, <- app_assoc. f_equal.
      destruct groups as [|g' groups]; [done|].
      change (last (g :: g' :: groups)) with (last (g' :: groups)). by rewrite IH. }
    rewrite Hgen. by destruct groups.
  - intros g _. unfold group_event. cbn [dict_of].
    by rewrite packets_of_completed, extra_data_of_completed.
Qed.

Lemma Aggregator_groups_witness :
  let a : gmap string value := dict_of (Event__init__ []) in
  let b : gmap string value := <["event-id" := VInt 2]> a in
  let p : gmap string value := {["data" := VBytes [x01]]} in
  let groups : list group := [(a, [Packet p; Unknown 9 []]); (b, [ExtraData p])] in
  Aggregator.add_all ([Packet p] ++ concat (group_records <$> groups)) Aggregator.__init__
  = Some ([None; None; None; None;
           Some (Event (<["packets" := VList [Packet p]]> a)); None],
          [Event b; ExtraData p]) ∧
  Aggregator.flush [Event b; ExtraData p]
  = (Ok (Some (Event (<["extra-data" := VList [ExtraData p]]> b))), []).
Proof.
  intros a b p groups.
  assert (Horphans : Forall (λ r, isinstance_Event r = false) [Packet p])
    by (by repeat constructor).
  assert (Hgroups : Forall group_wf groups).
  { repeat constructor; cbn; by eexists. }
  destruct (Aggregator_groups [Packet p] groups Horphans Hgroups)
    as (Hadd & Hflush & _).
  split.
  - rewrite Hadd. vm_compute. reflexivity.
  - etrans; [exact Hflush|]. vm_compute. reflexivity.
Defined.

(** ** Flushing *)

(** X7.  [flush] returns [None] when the queue is empty and only then.
    A [flush] that returns leaves the queue empty, so that a second
    [flush] returns [None]: an event is returned once.  A [flush] that
    raises has taken the records it went through off the queue: what is
    left is a proper end of the queue. *)
Theorem Aggregator_flush_empties (queue : Aggregator.t) :
  ((Aggregator.flush queue).1 = Ok None ↔ queue = []) ∧
  (∀ event queue',
     Aggregator.flush queue = (Ok event, queue') →
     queue' = [] ∧ Aggregator.flush queue' = (Ok None, [])) ∧
  (∀ e queue',
     Aggregator.flush queue = (Raise e, queue') →
     ∃ taken, taken ≠ [] ∧ queue = taken ++ queue').
Proof.
  split; [|split].
  - destruct queue as [|[d| | |] rest]; cbn [Aggregator.flush]; try done.
    pose proof (flush_loop_queue d rest) as Hq.
    destruct (Aggregator.flush_loop d rest) as [[event|e] queue']; done.
  - intros event queue' Hflush. apply flush_ok_queue in Hflush as ->. done.
  - intros e queue'. destruct queue as [|[d| | |] rest]; cbn [Aggregator.flush].
    + done.
    + pose proof (flush_loop_queue d rest) as Hq.
      destruct (Aggregator.flush_loop d rest) as [[event|e'] queue'']; [done|].
      intros [= -> ->]. destruct Hq as [pre ->]. by exists (Event d :: pre).
    + intros [= _ <-]. by eexists [_].
    + intros [= _ <-]. by eexists [_].
    + intros [= _ <-]. by eexists [_].
Qed.

Lemma Aggregator_flush_empties_witness :
  let a : gmap string value := dict_of (Event__init__ []) in
  Aggregator.flush [Event a] = (Ok (Some (Event a)), []) ∧
  Aggregator.flush [] = (Ok None, []).
Proof.
  intros a.
  assert (Hflush : Aggregator.flush [Event a] = (Ok (Some (Event a)), []))
    by reflexivity.
  split; [exact Hflush|].
  exact (proj2 (proj1 (proj2 (Aggregator_flush_empties [Event a])) _ _ Hflush)).
Defined.

(** ** Reading what was written *)

(** X8.  [read_record] on a file that stands at a record on the wire, an
    eight-byte header that gives the type and the length of the payload
    and then the payload, returns what [decode_record] returns on that
    type and payload, be it a record or [struct.error], and leaves the
    file behind the record either way: a payload that does not decode is
    not read again. *)
Theorem read_record_written (f : File.t) (record_type : Z) (payload rest : list byte) :
  File.closed f = false →
  File.available f = build_record record_type payload ++ rest →
  0 ≤ record_type < 2 ^ 32 → Z.of_nat (length payload) < 2 ^ 32 →
  let f' := File.set_pos (File.pos f + HDR_LEN + length payload) f in
  read_record f = (Some <$> decode_record record_type payload, f') ∧
  File.available f' = rest ∧
  (∀ darwin_py2, RecordReader.next darwin_py2 f = read_record f).
Proof.
  intros Hopen Havail Ht Hl f'.
  destruct (build_record_header record_type payload rest Ht Hl)
    as (Hlen & Htype & Hplen & Hdrop).
  rewrite <- Havail in Hlen, Htype, Hplen, Hdrop.
  split; [|split].
  - rewrite read_record_open by done. unfold read_record_spec.
    rewrite bool_decide_eq_false_2
      by (intros Hnil; rewrite Hnil in Hlen; unfold HDR_LEN in Hlen; simpl in Hlen; lia).
    rewrite bool_decide_eq_false_2 by lia.
    rewrite Htype, Hplen, Hdrop, take_app_length.
    by rewrite bool_decide_eq_false_2 by lia.
  - unfold f', File.available in *. cbn [File.pos File.data File.set_pos].
    by rewrite <- Nat.add_assoc, <- drop_drop, <- drop_drop, Hdrop, drop_app_length.
  - intros darwin_py2. apply RecordReader_next.
Qed.

Lemma read_record_written_witness :
  let f := File.mk "snort.log" (build_record 2 [x01; x02] ++ build_record 1 [x03]) 0 false in
  read_record f = (Raise StructError, File.set_pos 10 f) ∧
  read_record (File.set_pos 10 f) = (Ok (Some (Unknown 1 [x03])), File.set_pos 19 f).
Proof.
  intros f. split.
  - apply (proj1 (read_record_written f 2 [x01; x02] (build_record 1 [x03])
                    eq_refl eq_refl ltac:(lia) ltac:(vm_compute; reflexivity))).
  - vm_compute. reflexivity.
Defined.

(** ** [FileRecordReader]: a file that cannot be opened, and iteration *)

Section MoreFileReaders.
Context (darwin_py2 : bool) (fs : gmap string (list byte)).

Lemma next_closed files f :
  File.closed f = true →
  FileRecordReader.next darwin_py2 fs (FileRecordReader.mk files f)
  = (Raise ValueError, FileRecordReader.mk files f).
Proof.
  intros Hclosed. unfold FileRecordReader.next.
  cbn [FileRecordReader.files FileRecordReader.fileobj].
  by rewrite next_loop_unfold, read_record_closed.
Qed.

(** X9.  When the file being read is at its end and the next path names
    no file, [next] raises [IOError]; by then the file read is closed and
    the path is off the list.  The reader is of no use from then on: every
    later call raises [ValueError], the paths still on the list are never
    opened. *)
Theorem FileRecordReader_missing_file (self : FileRecordReader.t) (path : string)
    (rest : list string) :
  FileRecordReader.files self = path :: rest →
  File.closed (FileRecordReader.fileobj self) = false →
  File.available (FileRecordReader.fileobj self) = [] →
  fs !! path = None →
  let self' := FileRecordReader.mk rest (File.close (FileRecordReader.fileobj self)) in
  FileRecordReader.next darwin_py2 fs self = (Raise IOError, self') ∧
  ∀ n, FileRecordReader.run darwin_py2 fs n self'
       = (replicate n (Raise ValueError), self').
Proof.
  intros Hfiles Hopen Hend Hpath self'. split.
  - unfold FileRecordReader.next.
    rewrite next_loop_unfold, read_record_at_end, Hfiles by done.
    cbn [truthy_opt]. unfold open. by rewrite Hpath.
  - induction n as [|n IH]; [done|].
    cbn [FileRecordReader.run]. unfold self' at 1. rewrite next_closed by done.
    fold self'. by rewrite IH.
Qed.

(** X10.  Iterating a [FileRecordReader] whose files hold whole records
    yields the records of the files in the order of the files, and ends
    without an exception once the last file is at its end; the iteration
    takes one call of [next] a record and one more. *)
Theorem FileRecordReader_iter (self : FileRecordReader.t) (records : list record)
    (fuel : nat) :
  reader_parses fs self records →
  (length records < fuel)%nat →
  ∃ self',
    FileRecordReader__iter__ darwin_py2 fs fuel self = Some (records, None, self') ∧
    reader_parses fs self' [].
Proof.
  revert self records. induction fuel as [|fuel IH]; intros self records Hself Hfuel;
    [lia|].
  destruct (next_parses darwin_py2 fs self records Hself) as (self1 & Hnext & Hself1).
  unfold FileRecordReader__iter__ in *. cbn [iterate mbind option_bind]. rewrite Hnext.
  destruct records as [|rcd records]; cbn [head tail] in *.
  - by exists self1.
  - cbn [length] in Hfuel.
    destruct (IH self1 records Hself1) as (self' & Hiter & Hself'); [lia|].
    exists self'. by rewrite Hiter.
Qed.

End MoreFileReaders.

Lemma FileRecordReader_missing_file_witness :
  let fs : gmap string (list byte) := {[ "a.log" := []; "c.log" := build_record 1 [] ]} in
  let self := FileRecordReader.mk ["b.log"; "c.log"] (File.mk "a.log" [] 0 false) in
  let self' := FileRecordReader.mk ["c.log"] (File.mk "a.log" [] 0 true) in
  FileRecordReader.__init__ fs ["a.log"; "b.log"; "c.log"] = Ok self ∧
  FileRecordReader.next false fs self = (Raise IOError, self') ∧
  FileRecordReader.run false fs 2 self'
  = ([Raise ValueError; Raise ValueError], self').
Proof.
  intros fs self self'.
  destruct (FileRecordReader_missing_file false fs self "b.log" ["c.log"]
              eq_refl eq_refl eq_refl eq_refl) as [Hnext Hrun].
  split; [reflexivity|]. split; [exact Hnext|exact (Hrun 2%nat)].
Defined.

Lemma FileRecordReader_iter_witness :
  let fs : gmap string (list byte) :=
    {[ "a.log" := build_record 1 [x01]; "b.log" := [];
       "c.log" := build_record 1 [x02] ++ build_record 1 [x03] ]} in
  ∃ self self',
    FileRecordReader.__init__ fs ["a.log"; "b.log"; "c.log"] = Ok self ∧
    FileRecordReader__iter__ false fs 4 self
    = Some ([Unknown 1 [x01]; Unknown 1 [x02]; Unknown 1 [x03]], None, self').
Proof.
  intros fs.
  set (self := FileRecordReader.mk ["b.log"; "c.log"]
                 (File.mk "a.log" (build_record 1 [x01]) 0 false)).
  assert (Hone : ∀ b, parses (build_record 1 [b]) [Unknown 1 [b]]).
  { intros b. rewrite <- (app_nil_r (build_record 1 [b])).
    apply parses_cons; [lia|by vm_compute|done|apply parses_nil]. }
  assert (Hself : reader_parses fs self
                    [Unknown 1 [x01]; Unknown 1 [x02]; Unknown 1 [x03]]).
  { apply (reader_parses_intro fs _ _ [Unknown 1 [x01]]
             [[]; [Unknown 1 [x02]; Unknown 1 [x03]]]); [done|apply Hone| |done].
    constructor; [|constructor; [|constructor]].
    - exists []. split; [done|apply parses_nil].
    - exists (build_record 1 [x02] ++ build_record 1 [x03]). split; [done|].
      apply parses_cons; [lia|by vm_compute|done|apply Hone]. }
  destruct (FileRecordReader_iter false fs self _ 4 Hself) as (self' & Hiter & _);
    [simpl; lia|].
  exists self, self'. split; [reflexivity|exact Hiter].
Defined.

(** ** [FileEventReader]: the events of the files *)

Lemma next_event_followers post records head rest :
  Forall (λ r, isinstance_Event r = false) post →
  next_event (post ++ records) (head :: rest) = next_event records (head :: rest ++ post).
Proof.
  intros Hpost. revert rest. induction Hpost as [|rcd post Hrcd _ IH]; intros rest.
  - by rewrite app_nil_r.
  - cbn [app next_event]. unfold Aggregator.add. rewrite Hrcd. cbv beta iota.
    cbn [truthy_opt]. cbv iota. rewrite <- app_comm_cons, (IH (rest ++ [rcd])).
    by rewrite <- app_assoc.
Qed.

Lemma next_event_orphans orphans records :
  Forall (λ r, isinstance_Event r = false) orphans →
  next_event (orphans ++ records) [] = next_event records [].
Proof.
  induction 1 as [|rcd orphans Hrcd _ IH]; [done|].
  cbn [app next_event]. unfold Aggregator.add. by rewrite Hrcd.
Qed.

Lemma completed_truthy d rest : truthy (Event (completed d rest)) = true.
Proof.
  cbn [truthy]. apply (truthy_lookup _ "extra-data"). unfold completed.
  rewrite lookup_insert_eq. by eexists.
Qed.

(** What is left to read, and the queue, once the event before the
    groups [groups] has been returned. *)
Lemma next_event_inflight d pre post groups :
  Event_wf d → Forall (λ r, isinstance_Event r = false) (pre ++ post) →
  next_event (post ++ concat (group_records <$> groups)) (Event d :: pre)
  = (Ok (Some (group_event (d, pre ++ post))),
     match groups with [] => [] | g :: groups => g.2 ++ concat (group_records <$> groups) end,
     match groups with [] => [] | g :: _ => [Event g.1] end).
Proof.
  intros Hd Hrest. pose proof Hrest as Hrest'. apply Forall_app in Hrest' as [_ Hpost].
  rewrite next_event_followers by done. unfold group_event. cbn [fst snd].
  destruct groups as [|g groups].
  - cbn [fmap list_fmap concat next_event]. by rewrite flush_completed.
  - rewrite fmap_cons. cbn [concat]. unfold group_records at 1.
    rewrite <- app_comm_cons. cbn [next_event]. unfold Aggregator.add.
    cbn [isinstance_Event]. rewrite flush_completed by done.
    cbn [truthy_opt]. by rewrite completed_truthy.
Qed.

Lemma parses_wf data records : parses data records → Forall record_wf records.
Proof.
  induction 1 as [|record_type payload rcd data records _ _ Hdec _ IH]; [done|].
  constructor; [by eapply decode_record_wf|done].
Qed.

Lemma reader_parses_wf fs self records :
  reader_parses fs self records → Forall record_wf records.
Proof.
  intros (records0 & recordss & _ & Hp & Hfiles & ->).
  apply Forall_app. split; [by eapply parses_wf|].
  induction Hfiles as [|path records files recordss (data & _ & Hp1) _ IH]; [done|].
  cbn [concat]. apply Forall_app. split; [by eapply parses_wf|done].
Qed.

Section MoreFileEventReaders.
Context (darwin_py2 : bool) (fs : gmap string (list byte)).

Lemma event_iter_from fuel groups : ∀ n ev records self,
  reader_parses fs (FileEventReader.reader self) records →
  next_event records (FileEventReader.aggregator self)
  = (Ok (Some ev),
     match groups with [] => [] | g :: groups => g.2 ++ concat (group_records <$> groups) end,
     match groups with [] => [] | g :: _ => [Event g.1] end) →
  Forall group_wf groups →
  (length records < fuel)%nat →
  (length (concat (group_records <$> groups)) < fuel)%nat →
  (S (length groups) < n)%nat →
  ∃ self',
    FileEventReader__iter__ darwin_py2 fs fuel n self
    = Some (ev :: (group_event <$> groups), None, self') ∧
    reader_parses fs (FileEventReader.reader self') [] ∧
    FileEventReader.aggregator self' = [].
Proof.
  unfold FileEventReader__iter__.
  induction groups as [|g groups IH]; intros n ev records self Hr Hnext Hwf Hfuel Hfuel' Hn.
  - destruct n as [|[|n]]; [cbn in Hn; lia..|].
    destruct (event_next_parses darwin_py2 fs fuel self records Hr Hfuel)
      as (reader1 & Hnext1 & Hr1).
    rewrite Hnext in Hnext1, Hr1. cbn [fst snd] in Hnext1, Hr1.
    destruct (event_next_parses darwin_py2 fs fuel (FileEventReader.mk reader1 []) [] Hr1)
      as (reader2 & Hnext2 & Hr2); [simpl; lia|].
    cbn [next_event Aggregator.flush FileEventReader.aggregator fst snd] in Hnext2, Hr2.
    exists (FileEventReader.mk reader2 []). split; [|done].
    cbn [iterate mbind option_bind]. rewrite Hnext1.
    cbn [iterate mbind option_bind]. by rewrite Hnext2.
  - destruct n as [|n]; [cbn in Hn; lia|].
    destruct (event_next_parses darwin_py2 fs fuel self records Hr Hfuel)
      as (reader1 & Hnext1 & Hr1).
    rewrite Hnext in Hnext1, Hr1. cbn [fst snd] in Hnext1, Hr1.
    apply Forall_cons in Hwf as [[Hd Hrest] Hwf].
    rewrite fmap_cons in Hfuel'. cbn [concat] in Hfuel'. unfold group_records at 1 in Hfuel'.
    rewrite <- app_comm_cons in Hfuel'. cbn [length] in Hfuel'.
    destruct (IH n (group_event g) (g.2 ++ concat (group_records <$> groups))
                (FileEventReader.mk reader1 [Event g.1]))
      as (self' & Hiter & Hself'); [done| |done|lia| |cbn [length] in Hn; lia|].
    + cbn [FileEventReader.aggregator].
      rewrite (next_event_inflight g.1 [] g.2 groups) by done.
      by destruct g.
    + rewrite length_app in Hfuel'. lia.
    + exists self'. split; [|done].
      cbn [iterate mbind option_bind]. rewrite Hnext1.
      cbn [mbind option_bind]. by rewrite Hiter.
Qed.

(** X11.  Iterating a [FileEventReader] yields one event a group.  Let
    the files hold whole records, which are records that are not events,
    then groups, each an event followed by records that are not events.
    The iteration drops the records before the first event, yields each
    group as one event with the packets and the extra data of the group,
    the last group being flushed at the end of the files, and ends
    without an exception, leaving the queue empty. *)
Theorem FileEventReader_iter (self : FileEventReader.t) (orphans : list record)
    (groups : list group) (fuel n : nat) :
  reader_parses fs (FileEventReader.reader self)
    (orphans ++ concat (group_records <$> groups)) →
  FileEventReader.aggregator self = [] →
  Forall (λ r, isinstance_Event r = false) orphans →
  Forall (λ g, Forall (λ r, isinstance_Event r = false) g.2) groups →
  (length (orphans ++ concat (group_records <$> groups)) < fuel)%nat →
  (S (length groups) < n)%nat →
  ∃ self',
    FileEventReader__iter__ darwin_py2 fs fuel n self
    = Some (group_event <$> groups, None, self') ∧
    reader_parses fs (FileEventReader.reader self') [] ∧
    FileEventReader.aggregator self' = [].
Proof.
  intros Hr Hq Horphans Hrest Hfuel Hn.
  assert (Hwf : Forall group_wf groups).
  { pose proof (reader_parses_wf fs _ _ Hr) as Hrecords.
    apply Forall_app in Hrecords as [_ Hrecords].
    clear -Hrecords Hrest. induction Hrest as [|g groups Hg _ IH]; [done|].
    rewrite fmap_cons in Hrecords. cbn [concat] in Hrecords.
    apply Forall_app in Hrecords as [Hhead Hrecords].
    apply Forall_cons in Hhead as [Hd _]. constructor; [done|by apply IH]. }
  destruct groups as [|g groups].
  - destruct n as [|n]; [lia|].
    destruct (event_next_parses darwin_py2 fs fuel self _ Hr Hfuel)
      as (reader1 & Hnext1 & Hr1).
    rewrite Hq, app_nil_r in Hnext1, Hr1.
    rewrite <- (app_nil_r orphans), next_event_orphans in Hnext1, Hr1 by done.
    cbn [next_event Aggregator.flush fst snd] in Hnext1, Hr1.
    exists (FileEventReader.mk reader1 []). split; [|done].
    unfold FileEventReader__iter__. cbn [iterate mbind option_bind].
    by rewrite Hnext1.
  - apply Forall_cons in Hwf as [[Hd Hg] Hwf].
    apply (event_iter_from fuel groups n (group_event g) _ self Hr); [|done|done| |].
    + rewrite Hq, next_event_orphans by done.
      rewrite fmap_cons. cbn [concat]. unfold group_records at 1.
      rewrite <- app_comm_cons. cbn [next_event Aggregator.add isinstance_Event app].
      cbn [truthy_opt]. rewrite (next_event_inflight g.1 [] g.2 groups) by done.
      by destruct g.
    + rewrite length_app, fmap_cons in Hfuel. cbn [concat] in Hfuel.
      rewrite length_app in Hfuel. lia.
    + cbn [length] in Hn. by apply Nat.lt_succ_l.
Qed.

End MoreFileEventReaders.

Lemma FileEventReader_iter_witness :
  let event b := build_record 7 (replicate 52 b) in
  let packet b := build_record 2 (replicate 28 x00 ++ [b]) in
  let fs : gmap string (list byte) :=
    {[ "a.log" := packet x09 ++ event x01 ++ packet x0a;
       "b.log" := packet x0b ++ event x02 ]} in
  ∃ self self' d1 d2 p0 p1 p2,
    FileEventReader.__init__ fs ["a.log"; "b.log"] = Ok self ∧
    decode_record 7 (replicate 52 x01) = Ok (Event d1) ∧
    decode_record 7 (replicate 52 x02) = Ok (Event d2) ∧
    decode_record 2 (replicate 28 x00 ++ [x09]) = Ok (Packet p0) ∧
    decode_record 2 (replicate 28 x00 ++ [x0a]) = Ok (Packet p1) ∧
    decode_record 2 (replicate 28 x00 ++ [x0b]) = Ok (Packet p2) ∧
    FileEventReader__iter__ false fs 6 4 self
    = Some ([group_event (d1, [Packet p1; Packet p2]); group_event (d2, [])],
            None, self').
Proof.
  intros event packet fs.
  set (self := FileEventReader.mk
                 (FileRecordReader.mk ["b.log"]
                    (File.mk "a.log" (packet x09 ++ event x01 ++ packet x0a) 0 false)) []).
  assert (Hevent : ∀ b, ∃ d, decode_record 7 (replicate 52 b) = Ok (Event d)).
  { intros b. rewrite (decode_event_sized EVENT EVENT_FIELDS _ _ eq_refl eq_refl).
    by eexists. }
  destruct (Hevent x01) as [d1 Hd1], (Hevent x02) as [d2 Hd2].
  assert (Hpacket : ∀ b, ∃ p, decode_record 2 (replicate 28 x00 ++ [b]) = Ok (Packet p)).
  { intros b.
    rewrite (decode_rest_sized PACKET PacketDecoder PACKET_FIELDS _ _ eq_refl) by done.
    by eexists. }
  destruct (Hpacket x09) as [p0 Hp0], (Hpacket x0a) as [p1 Hp1],
    (Hpacket x0b) as [p2 Hp2].
  set (groups := [(d1, [Packet p1; Packet p2]); (d2, [])] : list group).
  assert (Hself : reader_parses fs (FileEventReader.reader self)
                    ([Packet p0] ++ concat (group_records <$> groups))).
  { apply (reader_parses_intro fs _ _ [Packet p0; Event d1; Packet p1]
             [[Packet p2; Event d2]]); [done| | |done].
    - unfold File.available. cbn [File.pos File.data]. rewrite drop_0.
      apply parses_cons; [lia|by vm_compute|done|].
      apply parses_cons; [lia|by vm_compute|done|].
      rewrite <- (app_nil_r (packet x0a)).
      apply parses_cons; [lia|by vm_compute|done|apply parses_nil].
    - constructor; [|constructor]. exists (packet x0b ++ event x02). split; [done|].
      apply parses_cons; [lia|by vm_compute|done|].
      rewrite <- (app_nil_r (event x02)).
      apply parses_cons; [lia|by vm_compute|done|apply parses_nil]. }
  destruct (FileEventReader_iter false fs self [Packet p0] groups 6 4 Hself)
    as (self' & Hiter & _);
    [done|by repeat constructor|by repeat constructor|simpl; lia|simpl; lia|].
  exists self, self', d1, d2, p0, p1, p2.
  split; [reflexivity|]. split; [exact Hd1|]. split; [exact Hd2|].
  split; [exact Hp0|]. split; [exact Hp1|]. split; [exact Hp2|]. exact Hiter.
Defined.
(** ** [SpoolRecordReader]: tailing *)

Section MoreSpool.
Context (darwin_py2 : bool) (fnmatch : string → string → bool).
Context (fs : gmap string (list byte)).

Local Abbreviation get_filenames := (SpoolRecordReader.get_filenames fnmatch fs).
Local Abbreviation open_next := (SpoolRecordReader.open_next fnmatch fs).
Local Abbreviation set_fileobj := SpoolRecordReader.set_fileobj.
Local Abbreviation _next_loop := (SpoolRecordReader._next_loop darwin_py2 fnmatch fs).
Local Abbreviation _next := (SpoolRecordReader._next darwin_py2 fnmatch fs).
Local Abbreviation next := (SpoolRecordReader.next darwin_py2 fnmatch fs).
Local Abbreviation read := (SpoolRecordReader.read darwin_py2).
Local Abbreviation pending_of := (pending fnmatch fs).

Lemma same_settings_refl self : same_settings self self.
Proof. by destruct self. Qed.

Lemma same_settings_trans self1 self2 self3 :
  same_settings self1 self2 → same_settings self2 self3 → same_settings self1 self3.
Proof. unfold same_settings. intros -> ->. by destruct self1. Qed.

Lemma same_settings_set fileobj self : same_settings self (set_fileobj fileobj self).
Proof. by destruct self. Qed.

Lemma same_settings_tail self self' :
  same_settings self self' → SpoolRecordReader.tail self' = SpoolRecordReader.tail self.
Proof. by intros ->. Qed.

Lemma open_return_settings filename self :
  same_settings self (SpoolRecordReader.open_return fs filename self).1.2.
Proof.
  unfold SpoolRecordReader.open_return, SpoolRecordReader.open_file.
  destruct (SpoolRecordReader.open_in _ _ _); cbn [fst snd].
  - eapply same_settings_trans; apply same_settings_set.
  - apply same_settings_set.
Qed.

Lemma open_next_settings self : same_settings self (open_next self).1.2.
Proof.
  unfold SpoolRecordReader.open_next.
  destruct (get_filenames self) as [|first rest] eqn:Hl; [apply same_settings_refl|].
  destruct (SpoolRecordReader.fileobj self) as [f|]; [|apply open_return_settings].
  destruct (index _ _) as [i|]; [|apply open_return_settings].
  destruct (_ !! _) as [following|]; [|apply same_settings_refl].
  pose proof (open_return_settings following (set_fileobj (Some (File.close f)) self))
    as Hs.
  destruct (SpoolRecordReader.open_return _ _ _) as [[outcome self'] trace].
  cbn [fst snd] in *. eapply same_settings_trans; [apply same_settings_set|done].
Qed.

Lemma read_settings self : same_settings self (read self).2.
Proof.
  unfold SpoolRecordReader.read.
  destruct (SpoolRecordReader.fileobj self) as [f|]; [|apply same_settings_refl].
  destruct (RecordReader.next darwin_py2 f). apply same_settings_set.
Qed.

Lemma on_read_settings self outcome continue r :
  same_settings self outcome.2 →
  (∀ self' r, same_settings self self' → continue self' = Some r →
              same_settings self r.1.2 ∧ returned_ok r.1.1) →
  SpoolRecordReader.on_read outcome continue = Some r →
  same_settings self r.1.2 ∧ returned_ok r.1.1.
Proof.
  intros Hs Hc. unfold SpoolRecordReader.on_read.
  destruct outcome as [[rcd|e] self']; cbn [snd] in Hs.
  - destruct (truthy_opt rcd) eqn:Ht; [|by apply Hc].
    intros [= <-]. split; [done|]. by destruct rcd.
  - destruct e; by intros [= <-].
Qed.

Lemma _next_loop_settings fuel self r :
  _next_loop fuel self = Some r → same_settings self r.1.2 ∧ returned_ok r.1.1.
Proof.
  revert self r. induction fuel as [|fuel IH]; intros self r; [done|].
  cbn [SpoolRecordReader._next_loop].
  pose proof (open_next_settings self) as Ho.
  destruct (open_next self) as [[outcome self'] trace]. cbn [fst snd] in Ho.
  destruct outcome as [name|e]; [|by intros [= <-]].
  destruct (from_option truthy_str false name); [|by intros [= <-]].
  intros (trace' & Hr & _)%prepend_Some.
  eapply (on_read_settings self) in Hr; [done| |].
  - eapply same_settings_trans; [done|apply read_settings].
  - intros self2 r2 Hs2 Hr2. apply IH in Hr2 as [Hs3 Hok]. split; [|done].
    by eapply same_settings_trans.
Qed.

Lemma _next_settings fuel self r :
  _next fuel self = Some r → same_settings self r.1.2 ∧ returned_ok r.1.1.
Proof.
  unfold SpoolRecordReader._next.
  assert (Hloop : ∀ self0 self' r, same_settings self0 self' →
            _next_loop fuel self' = Some r →
            same_settings self0 r.1.2 ∧ returned_ok r.1.1).
  { intros self0 self' r' Hs Hr. apply _next_loop_settings in Hr as [Hs' Hok].
    split; [|done]. by eapply same_settings_trans. }
  destruct (SpoolRecordReader.fileobj self) as [f|].
  - intros Hr. eapply (on_read_settings self) in Hr; [done|apply read_settings|].
    intros self' r'. apply Hloop.
  - pose proof (open_next_settings self) as Ho.
    destruct (open_next self) as [[outcome self'] trace]. cbn [fst snd] in Ho.
    destruct outcome as [name|e]; [|by intros [= <-]].
    destruct (from_option truthy_str false name); [|by intros [= <-]].
    intros (trace' & Hr & _)%prepend_Some.
    eapply (on_read_settings self) in Hr; [done| |].
    + eapply same_settings_trans; [done|apply read_settings].
    + intros self2 r2. apply Hloop.
Qed.

Lemma next_tail_spec (self : SpoolRecordReader.t) (fuel : nat) :
  (SpoolRecordReader.tail self = false →
   ∀ polls, next fuel (S polls) self = _next fuel self) ∧
  (SpoolRecordReader.tail self = true →
   ∀ polls outcome self' trace,
     next fuel polls self = Some (outcome, self', trace) →
     outcome ≠ Ok None ∧ returned_ok outcome) ∧
  (SpoolRecordReader.tail self = true →
   ∀ trace, _next fuel self = Some (Ok None, self, trace) →
   ∀ polls, next fuel polls self = None).
Proof.
  split; [|split].
  - intros Htail polls. cbn [SpoolRecordReader.next].
    destruct (_next fuel self) as [[[outcome self'] trace]|] eqn:Hnext; [|done].
    apply _next_settings in Hnext as [Hs Hok]. cbn [fst snd] in Hs, Hok.
    cbn [mbind option_bind]. destruct outcome as [[rcd|]|e]; [|..|done].
    + cbn [returned_ok truthy_opt] in *. by rewrite Hok.
    + cbn [truthy_opt]. by rewrite (same_settings_tail _ _ Hs), Htail.
  - intros Htail polls. revert self Htail.
    induction polls as [|polls IH]; intros self Htail outcome self' trace; [done|].
    cbn [SpoolRecordReader.next].
    destruct (_next fuel self) as [[[outcome1 self1] trace1]|] eqn:Hnext; [|done].
    apply _next_settings in Hnext as [Hs Hok]. cbn [fst snd] in Hs, Hok.
    cbn [mbind option_bind]. destruct outcome1 as [[rcd|]|e].
    + cbn [returned_ok truthy_opt] in *. rewrite Hok. by intros [= <- <- <-].
    + cbn [truthy_opt]. rewrite (same_settings_tail _ _ Hs), Htail.
      intros (trace' & Hr & _)%prepend_Some. cbn [fst snd] in Hr.
      eapply IH; [|done]. by rewrite (same_settings_tail _ _ Hs).
    + by intros [= <- <- <-].
  - intros Htail trace Hnext polls. induction polls as [|polls IH]; [done|].
    cbn [SpoolRecordReader.next]. rewrite Hnext. cbn [mbind option_bind truthy_opt].
    by rewrite Htail, IH.
Qed.


(** X14.  [next] and the [tail] flag.  Without it, [next] is [_next]: it
    returns at once what [_next] returns, a record, [None] or an
    exception.  With it, [next] never returns [None]: it returns a record
    or raises, and as long as [_next] finds no record it goes on calling
    it, however many times; over a directory and a file that do not
    change it does not return. *)
Theorem SpoolRecordReader_next_tail (self : SpoolRecordReader.t) (fuel : nat) :
  (SpoolRecordReader.tail self = false →
   ∀ polls, next fuel (S polls) self = _next fuel self) ∧
  (SpoolRecordReader.tail self = true →
   ∀ polls outcome self' trace,
     next fuel polls self = Some (outcome, self', trace) →
     outcome ≠ Ok None ∧ returned_ok outcome) ∧
  (SpoolRecordReader.tail self = true →
   ∀ trace, _next fuel self = Some (Ok None, self, trace) →
   ∀ polls, next fuel polls self = None).
Proof. apply next_tail_spec. Qed.

(** ** [SpoolRecordReader]: the records of the directory *)

Lemma pending_name self f f' :
  File.name f' = File.name f →
  pending_of (set_fileobj (Some f') self) = pending_of (set_fileobj (Some f) self).
Proof.
  intros Hname. unfold pending.
  rewrite !(get_filenames_set_fileobj fnmatch fs).
  cbn [SpoolRecordReader.fileobj SpoolRecordReader.set_fileobj]. by rewrite Hname.
Qed.

Lemma set_fileobj_twice fileobj fileobj' self :
  set_fileobj fileobj (set_fileobj fileobj' self) = set_fileobj fileobj self.
Proof. done. Qed.

(** Reading on from [f] through the files [names]: the first record left
    is returned, and the reader is left before the others. *)
Lemma scan_parses names recordss : ∀ f self records0,
  wf_dir fs →
  files_parse fs names recordss →
  File.closed f = false →
  parses (File.available f) records0 →
  pending_of (set_fileobj (Some f) self) = names →
  ∃ f',
    scan fs names f self
    = (Ok (head (records0 ++ concat recordss)), set_fileobj (Some f') self) ∧
    spool_parses fnmatch fs (set_fileobj (Some f') self)
      (tail (records0 ++ concat recordss)).
Proof.
  intros f self records0 Hwf Hfiles. revert f self records0.
  induction Hfiles as [|name records1 names recordss (data & Hdata & Hp1) Hfiles IH];
    intros f self records0 Hopen Hp Hpending.
  - rewrite scan_unfold.
    inversion Hp as [Havail|record_type payload rcd rest records0' Ht Hl Hdec Hrest Havail];
      subst records0.
    + rewrite read_record_at_end by done. cbn [scan_rest app concat head tail].
      exists f. split; [done|]. exists []. rewrite Hpending. split; [constructor|].
      cbn [SpoolRecordReader.fileobj SpoolRecordReader.set_fileobj]. split; [done|].
      exists []. split; [by rewrite <- Havail; constructor|done].
    + destruct (read_record_parsed f record_type payload rest rcd)
        as (f' & Hread & Hopen' & Havail' & Hname' & _); [done..|].
      rewrite Hread. exists f'. split; [done|]. exists [].
      rewrite (pending_name _ f f'), Hpending by done. split; [constructor|].
      cbn [SpoolRecordReader.fileobj SpoolRecordReader.set_fileobj]. split; [done|].
      exists records0'. split; [by rewrite Havail'|done].
  - rewrite scan_unfold.
    inversion Hp as [Havail|record_type payload rcd rest records0' Ht Hl Hdec Hrest Havail];
      subst records0.
    + rewrite read_record_at_end by done. cbn [scan_rest app concat].
      pose proof (open_next_pending fnmatch fs (set_fileobj (Some f) self) Hwf)
        as Hopen_next.
      rewrite Hpending in Hopen_next.
      destruct Hopen_next as (_ & _ & _ & trace & _ & Hpending').
      rewrite set_fileobj_twice in Hpending'.
      cbn [SpoolRecordReader.directory SpoolRecordReader.set_fileobj] in Hpending'.
      apply (IH (fresh_file fs (SpoolRecordReader.directory self) name) self records1);
        [done| |done].
      unfold File.available, fresh_file. cbn [File.pos File.data].
      by rewrite Hdata, drop_0.
    + destruct (read_record_parsed f record_type payload rest rcd)
        as (f' & Hread & Hopen' & Havail' & Hname' & _); [done..|].
      rewrite Hread. exists f'. split; [done|]. exists (records1 :: recordss).
      rewrite (pending_name _ f f'), Hpending by done.
      split; [constructor; [by exists data|done]|].
      cbn [SpoolRecordReader.fileobj SpoolRecordReader.set_fileobj]. split; [done|].
      exists records0'. split; [by rewrite Havail'|done].
Qed.

(** One call of [_next] on a reader whose files parse: the first record,
    or [None] when there is none left. *)
Lemma _next_parses fuel self records :
  wf_dir fs → spool_parses fnmatch fs self records →
  (length (get_filenames self) < fuel)%nat →
  ∃ self' trace,
    _next fuel self = Some (Ok (head records), self', trace) ∧
    spool_parses fnmatch fs self' (tail records) ∧
    same_settings self self'.
Proof.
  intros Hwf (recordss & Hfiles & Hself) Hfuel.
  destruct (_next_scan darwin_py2 fnmatch fs fuel self Hwf Hfuel) as [trace Hnext].
  rewrite Hnext. unfold _next_spec.
  destruct (SpoolRecordReader.fileobj self) as [f|] eqn:Hf.
  - destruct Hself as (Hopen & records0 & Hp & ->).
    destruct (scan_parses _ _ f self records0 Hwf Hfiles Hopen Hp) as (f' & Hscan & Hself').
    { by rewrite (set_fileobj_id self f Hf). }
    rewrite Hscan. exists (set_fileobj (Some f') self), trace.
    split; [done|]. split; [done|]. apply same_settings_set.
  - subst records. pose proof (open_next_pending fnmatch fs self Hwf) as Hopen_next.
    destruct (pending_of self) as [|name names] eqn:Hpending.
    + apply Forall2_nil_inv_l in Hfiles as ->.
      exists self, trace. split; [done|]. split; [|apply same_settings_refl].
      exists []. rewrite Hpending, Hf. by split; [constructor|].
    + apply Forall2_cons_inv_l in Hfiles
        as (records1 & recordss' & (data & Hdata & Hp1) & Hfiles & ->).
      destruct Hopen_next as (_ & _ & _ & trace' & _ & Hpending').
      destruct (scan_parses _ _ (fresh_file fs (SpoolRecordReader.directory self) name)
                  self records1 Hwf Hfiles) as (f' & Hscan & Hself'); [done| |done|].
      { unfold File.available, fresh_file. cbn [File.pos File.data].
        by rewrite Hdata, drop_0. }
      cbn [concat]. rewrite Hscan. exists (set_fileobj (Some f') self), trace.
      split; [done|]. split; [done|]. apply same_settings_set.
Qed.

Lemma same_settings_get_filenames self self' :
  same_settings self self' → get_filenames self' = get_filenames self.
Proof. intros ->. apply get_filenames_set_fileobj. Qed.

(** X15.  A [SpoolRecordReader] that does not tail reads the directory as
    one stream.  Over a directory that does not change, whose entries are
    proper names and whose matching files hold whole records, call after
    call of [next] returns what is left of the file being read, then the
    records of the files behind it in the order of their names, then
    [None] for ever; a reader that has no file open starts with the first
    matching file. *)
Theorem SpoolRecordReader_stream (self : SpoolRecordReader.t) (records : list record)
    (fuel polls n : nat) :
  wf_dir fs →
  SpoolRecordReader.tail self = false →
  (length (get_filenames self) < fuel)%nat →
  (SpoolRecordReader.fileobj self = None →
   ∀ recordss, files_parse fs (get_filenames self) recordss →
               spool_parses fnmatch fs self (concat recordss)) ∧
  (spool_parses fnmatch fs self records →
   ∃ self',
     SpoolRecordReader.run darwin_py2 fnmatch fs fuel (S polls) n self
     = Some (stream n records, self') ∧
     spool_parses fnmatch fs self' (drop n records)).
Proof.
  intros Hwf Htail Hfuel. split.
  - intros Hf recordss Hfiles. exists recordss. unfold pending. by rewrite Hf.
  - revert self records Htail Hfuel. induction n as [|n IH];
      intros self records Htail Hfuel Hself.
    + exists self. split; [done|]. by rewrite drop_0.
    + destruct (_next_parses fuel self records Hwf Hself Hfuel)
        as (self1 & trace & Hnext & Hself1 & Hs).
      destruct (IH self1 (tail records)) as (self' & Hrun & Hself');
        [by rewrite (same_settings_tail _ _ Hs)
        |by rewrite (same_settings_get_filenames _ _ Hs)|done|].
      exists self'. cbn [SpoolRecordReader.run].
      rewrite (proj1 (next_tail_spec self fuel) Htail polls), Hnext.
      cbn [mbind option_bind]. rewrite Hrun. cbn [mbind option_bind].
      destruct records as [|rcd records]; cbn [head tail] in *.
      * split; [|by rewrite drop_nil in *].
        unfold stream. cbn [fmap list_fmap length].
        by rewrite !take_nil, !Nat.sub_0_r.
      * done.
Qed.

(** ** [SpoolEventReader] *)

Local Abbreviation event_next := (SpoolEventReader.next darwin_py2 fnmatch fs).
Local Abbreviation event_run := (SpoolEventReader.run darwin_py2 fnmatch fs).

Lemma spool_parses_truthy self rcd records :
  spool_parses fnmatch fs self (rcd :: records) → truthy rcd = true.
Proof.
  intros (recordss & Hfiles & Hself).
  assert (Hfirst : ∀ rest, rcd :: records = concat recordss ++ rest ∨ True →
            Forall (λ records, Forall (λ r, truthy r = true) records) recordss).
  { intros _ _. eapply Forall2_Forall_r; [exact Hfiles|].
    apply Forall_forall. intros name _ records' (data & _ & Hp). clear -Hp.
    induction Hp as [|? ? ? ? ? _ _ Hdec _ IH]; constructor; [|done].
    by eapply decode_record_truthy. }
  specialize (Hfirst [] (or_intror I)).
  assert (Hall : Forall (λ r, truthy r = true) (concat recordss)).
  { clear -Hfirst. induction Hfirst; [done|]. cbn [concat]. by apply Forall_app. }
  destruct (SpoolRecordReader.fileobj self) as [f|].
  - destruct Hself as (_ & records0 & Hp & Heq).
    assert (Hall0 : Forall (λ r, truthy r = true) records0).
    { clear -Hp. induction Hp as [|? ? ? ? ? _ _ Hdec _ IH]; constructor; [|done].
      by eapply decode_record_truthy. }
    assert (Hboth : Forall (λ r, truthy r = true) (rcd :: records))
      by (rewrite Heq; by apply Forall_app).
    by apply Forall_cons in Hboth as [? _].
  - rewrite <- Hself in Hall. by apply Forall_cons in Hall as [? _].
Qed.

(** On files that parse, [next] does what [next_event] does on the records
    left, as long as the outcome is one that it returns at once. *)
Lemma spool_event_next_parses fuel polls turns : ∀ self records,
  wf_dir fs →
  spool_parses fnmatch fs (SpoolEventReader.reader self) records →
  SpoolRecordReader.tail (SpoolEventReader.reader self) = false →
  (length (get_filenames (SpoolEventReader.reader self)) < fuel)%nat →
  (length records < turns)%nat →
  returns_now (SpoolEventReader.tail self)
    (next_event records (SpoolEventReader.aggregator self)).1.1 →
  ∃ reader' trace,
    event_next fuel (S polls) turns self
    = Some ((next_event records (SpoolEventReader.aggregator self)).1.1,
            SpoolEventReader.mk reader' (SpoolEventReader.tail self)
              (next_event records (SpoolEventReader.aggregator self)).2,
            trace) ∧
    spool_parses fnmatch fs reader'
      (next_event records (SpoolEventReader.aggregator self)).1.2 ∧
    same_settings (SpoolEventReader.reader self) reader' ∧
    (spool_inv fs (SpoolEventReader.reader self) → spool_inv fs reader').
Proof.
  induction turns as [|turns IH]; intros [reader tailing queue] records Hwf Hr Htail Hfuel
    Hturns Hnow; [lia|].
  cbn [SpoolEventReader.reader SpoolEventReader.tail SpoolEventReader.aggregator] in *.
  destruct (_next_parses fuel reader records Hwf Hr Hfuel)
    as (reader1 & trace & Hnext & Hr1 & Hs).
  assert (Hinv1 : spool_inv fs reader → spool_inv fs reader1).
  { intros Hinv. by apply (spool_inv__next darwin_py2 fnmatch fs fuel reader _ Hwf Hinv Hnext). }
  cbn [SpoolEventReader.next SpoolEventReader.reader SpoolEventReader.tail
       SpoolEventReader.aggregator].
  rewrite (proj1 (next_tail_spec reader fuel) Htail polls), Hnext.
  cbn [mbind option_bind].
  destruct records as [|rcd records]; cbn [head tail next_event] in *.
  - destruct (Aggregator.flush queue) as [[event|e] queue'] eqn:Hflush;
      cbn [fst snd] in *; [|by exists reader1, trace].
    destruct Hnow as [->|Hnow].
    + rewrite orb_true_r. by exists reader1, trace.
    + rewrite Hnow. by exists reader1, trace.
  - rewrite (spool_parses_truthy _ _ _ Hr).
    destruct (Aggregator.add rcd queue) as [[[event|e] queue'] log];
      [|by exists reader1, trace].
    destruct (truthy_opt event); [by exists reader1, trace|].
    destruct (IH (SpoolEventReader.mk reader1 tailing queue') records)
      as (reader2 & trace2 & Hnext2 & Hr2 & Hs2 & Hinv2); [done|done|..|done|].
    + cbn [SpoolEventReader.reader]. by rewrite (same_settings_tail _ _ Hs).
    + cbn [SpoolEventReader.reader]. by rewrite (same_settings_get_filenames _ _ Hs).
    + cbn [length] in Hturns. lia.
    + cbn [SpoolEventReader.reader SpoolEventReader.tail SpoolEventReader.aggregator]
        in *.
      rewrite Hnext2. cbn [mbind option_bind].
      exists reader2, (trace ++ trace2). split; [done|]. split; [done|].
      split; [by eapply same_settings_trans|]. intros Hinv. by apply Hinv2, Hinv1.
Qed.

(** With [tail], [next] does not return while there is no event to
    return: the records that are not events are dropped one after the
    other, and at the end of the files it waits. *)
Lemma spool_event_waits fuel polls turns : ∀ self orphans,
  wf_dir fs →
  spool_parses fnmatch fs (SpoolEventReader.reader self) orphans →
  Forall (λ r, isinstance_Event r = false) orphans →
  SpoolEventReader.aggregator self = [] →
  SpoolEventReader.tail self = true →
  SpoolRecordReader.tail (SpoolEventReader.reader self) = false →
  (length (get_filenames (SpoolEventReader.reader self)) < fuel)%nat →
  event_next fuel (S polls) turns self = None.
Proof.
  induction turns as [|turns IH]; intros [reader tailing queue] orphans Hwf Hr Horphans
    Hq Htail Hrtail Hfuel; [done|].
  cbn [SpoolEventReader.reader SpoolEventReader.tail SpoolEventReader.aggregator] in *.
  subst queue tailing.
  destruct (_next_parses fuel reader orphans Hwf Hr Hfuel)
    as (reader1 & trace & Hnext & Hr1 & Hs).
  cbn [SpoolEventReader.next SpoolEventReader.reader SpoolEventReader.tail
       SpoolEventReader.aggregator].
  rewrite (proj1 (next_tail_spec reader fuel) Hrtail polls), Hnext.
  cbn [mbind option_bind].
  assert (Hagain : ∀ orphans',
            spool_parses fnmatch fs reader1 orphans' →
            Forall (λ r, isinstance_Event r = false) orphans' →
            event_next fuel (S polls) turns (SpoolEventReader.mk reader1 true []) = None).
  { intros orphans' Hr' Horphans'. apply (IH _ orphans'); try done.
    - cbn [SpoolEventReader.reader]. by rewrite (same_settings_tail _ _ Hs).
    - cbn [SpoolEventReader.reader]. by rewrite (same_settings_get_filenames _ _ Hs). }
  destruct orphans as [|rcd orphans]; cbn [head tail] in *.
  - cbn [Aggregator.flush truthy_opt orb negb]. by rewrite (Hagain []).
  - rewrite (spool_parses_truthy _ _ _ Hr).
    apply Forall_cons in Horphans as [Hrcd Horphans].
    unfold Aggregator.add. rewrite Hrcd. cbn [truthy_opt].
    by rewrite (Hagain orphans).
Qed.

Lemma event_run_S fuel polls turns n self :
  event_run fuel polls turns (S n) self
  = '(outcome, self, _) ← event_next fuel polls turns self;
    '(outcomes, self) ← event_run fuel polls turns n self;
    Some (outcome :: outcomes, self).
Proof. done. Qed.

Lemma spool_event_run_from fuel polls turns groups : ∀ ev records self,
  wf_dir fs →
  spool_parses fnmatch fs (SpoolEventReader.reader self) records →
  SpoolRecordReader.tail (SpoolEventReader.reader self) = false →
  next_event records (SpoolEventReader.aggregator self)
  = (Ok (Some ev),
     match groups with [] => [] | g :: groups => g.2 ++ concat (group_records <$> groups) end,
     match groups with [] => [] | g :: _ => [Event g.1] end) →
  truthy ev = true →
  Forall group_wf groups →
  (length (get_filenames (SpoolEventReader.reader self)) < fuel)%nat →
  (length records < turns)%nat →
  (length (concat (group_records <$> groups)) < turns)%nat →
  ∃ self',
    event_run fuel (S polls) turns (S (length groups)) self
    = Some ((Ok ∘ Some) <$> (ev :: (group_event <$> groups)), self') ∧
    spool_parses fnmatch fs (SpoolEventReader.reader self') [] ∧
    SpoolEventReader.aggregator self' = [] ∧
    SpoolEventReader.tail self' = SpoolEventReader.tail self ∧
    same_settings (SpoolEventReader.reader self) (SpoolEventReader.reader self').
Proof.
  induction groups as [|g groups IH];
    intros ev records self Hwf Hr Htail Hnext Hev Hgroups Hfuel Hturns Hturns'.
  - destruct (spool_event_next_parses fuel polls turns self records Hwf Hr Htail Hfuel
                Hturns) as (reader1 & trace & Hnext1 & Hr1 & Hs & _).
    { rewrite Hnext. by right. }
    rewrite Hnext in Hnext1, Hr1. cbn [fst snd] in Hnext1, Hr1.
    eexists. cbn [length]. rewrite event_run_S, Hnext1.
    cbn [mbind option_bind SpoolEventReader.run]. by split.
  - destruct (spool_event_next_parses fuel polls turns self records Hwf Hr Htail Hfuel
                Hturns) as (reader1 & trace & Hnext1 & Hr1 & Hs & _).
    { rewrite Hnext. by right. }
    rewrite Hnext in Hnext1, Hr1. cbn [fst snd] in Hnext1, Hr1.
    apply Forall_cons in Hgroups as [[Hd Hrest] Hgroups].
    rewrite fmap_cons in Hturns'. cbn [concat] in Hturns'.
    unfold group_records at 1 in Hturns'.
    rewrite <- app_comm_cons in Hturns'. cbn [length] in Hturns'.
    destruct (IH (group_event g) (g.2 ++ concat (group_records <$> groups))
                (SpoolEventReader.mk reader1 (SpoolEventReader.tail self) [Event g.1]))
      as (self' & Hrun & Hself' & Hq' & Htail' & Hs'); [done|done|..].
    + cbn [SpoolEventReader.reader]. by rewrite (same_settings_tail _ _ Hs).
    + cbn [SpoolEventReader.aggregator].
      rewrite (next_event_inflight g.1 [] g.2 groups) by done. by destruct g.
    + apply completed_truthy.
    + done.
    + cbn [SpoolEventReader.reader]. by rewrite (same_settings_get_filenames _ _ Hs).
    + lia.
    + rewrite length_app in Hturns'. lia.
    + exists self'. cbn [length]. rewrite event_run_S, Hnext1.
      cbn [mbind option_bind]. rewrite Hrun.
      split; [done|]. split; [done|]. split; [done|]. split; [done|].
      by eapply same_settings_trans.
Qed.

(** Without [tail], once there are but records that are not events left
    and the queue is empty, every call returns [None]. *)
Lemma spool_event_run_exhausted fuel polls turns n : ∀ self orphans,
  wf_dir fs →
  spool_parses fnmatch fs (SpoolEventReader.reader self) orphans →
  Forall (λ r, isinstance_Event r = false) orphans →
  SpoolEventReader.aggregator self = [] →
  SpoolEventReader.tail self = false →
  SpoolRecordReader.tail (SpoolEventReader.reader self) = false →
  (length (get_filenames (SpoolEventReader.reader self)) < fuel)%nat →
  (length orphans < turns)%nat →
  ∃ self', event_run fuel (S polls) turns n self = Some (replicate n (Ok None), self').
Proof.
  induction n as [|n IH]; intros self orphans Hwf Hr Horphans Hq Htail Hrtail Hfuel Hturns.
  - by eexists.
  - destruct (spool_event_next_parses fuel polls turns self orphans Hwf Hr Hrtail Hfuel
                Hturns) as (reader1 & trace & Hnext1 & Hr1 & Hs & _); [by left|].
    rewrite Hq, <- (app_nil_r orphans), next_event_orphans in Hnext1, Hr1 by done.
    cbn [next_event Aggregator.flush fst snd] in Hnext1, Hr1.
    destruct (IH (SpoolEventReader.mk reader1 (SpoolEventReader.tail self) []) [])
      as (self' & Hrun); try done.
    + cbn [SpoolEventReader.reader]. by rewrite (same_settings_tail _ _ Hs).
    + cbn [SpoolEventReader.reader]. by rewrite (same_settings_get_filenames _ _ Hs).
    + cbn [length]. lia.
    + exists self'. rewrite event_run_S, Hnext1.
      cbn [mbind option_bind]. by rewrite Hrun.
Qed.

Lemma init_settings directory prefix init_filename init_offset tail hook self trace :
  SpoolRecordReader.__init__ fs directory prefix init_filename init_offset tail hook
  = (Ok self, trace) →
  same_settings (SpoolRecordReader.mk directory prefix tail hook None) self.
Proof.
  unfold SpoolRecordReader.__init__.
  destruct init_filename as [filename|]; [|by intros [= <- _]].
  destruct (truthy_str filename && SpoolRecordReader.exists_in _ _);
    [|by intros [= <- _]].
  unfold SpoolRecordReader.open_file, SpoolRecordReader.open_in.
  cbn [SpoolRecordReader.fileobj SpoolRecordReader.set_fileobj SpoolRecordReader.directory
       fmap option_fmap option_map].
  destruct (fs !! basename filename) as [data|]; [|done].
  cbn [SpoolRecordReader.fileobj].
  destruct init_offset as [offset|]; [|done].
  unfold File.seek. cbn [File.closed]. by intros [= <- _].
Qed.

(** X16.  A [SpoolEventReader] returns one event a group.  It is made
    with a record reader that does not tail and an empty queue.  From
    then on, over a directory that does not change and whose matching
    files hold whole records, which are records that are not events and
    then groups, call after call of [next] returns the groups in order,
    each as one event, the last being flushed at the end of the last file
    whether the reader tails or not.  What comes after depends on [tail]:
    without it every later call returns [None]; with it the next call
    does not return. *)
Theorem SpoolEventReader_events (self : SpoolEventReader.t) (orphans : list record)
    (groups : list group) (fuel polls turns : nat) :
  (∀ directory prefix init_filename init_offset tail rollover_hook made trace,
     SpoolEventReader.__init__ fs directory prefix init_filename init_offset tail
       rollover_hook = (Ok made, trace) →
     SpoolRecordReader.tail (SpoolEventReader.reader made) = false ∧
     SpoolEventReader.aggregator made = [] ∧
     SpoolEventReader.tail made = tail) ∧
  (wf_dir fs →
   spool_parses fnmatch fs (SpoolEventReader.reader self)
     (orphans ++ concat (group_records <$> groups)) →
   SpoolEventReader.aggregator self = [] →
   SpoolRecordReader.tail (SpoolEventReader.reader self) = false →
   Forall (λ r, isinstance_Event r = false) orphans →
   Forall (λ g, Forall (λ r, isinstance_Event r = false) g.2) groups →
   (length (get_filenames (SpoolEventReader.reader self)) < fuel)%nat →
   (length (orphans ++ concat (group_records <$> groups)) < turns)%nat →
   ∃ self',
     event_run fuel (S polls) turns (length groups) self
     = Some ((Ok ∘ Some ∘ group_event) <$> groups, self') ∧
     (SpoolEventReader.tail self = false →
      ∀ n, ∃ self'',
        event_run fuel (S polls) turns n self' = Some (replicate n (Ok None), self'')) ∧
     (SpoolEventReader.tail self = true →
      ∀ turns', event_next fuel (S polls) turns' self' = None)).
Proof.
  split.
  - intros directory prefix init_filename init_offset tailing hook made trace.
    unfold SpoolEventReader.__init__.
    destruct (SpoolRecordReader.__init__ _ _ _ _ _ _ _) as [[reader|e] trace'] eqn:Hinit;
      [|done].
    intros [= <- _]. cbn [SpoolEventReader.reader SpoolEventReader.aggregator
                          SpoolEventReader.tail].
    split; [|done]. apply init_settings in Hinit. by rewrite Hinit.
  - intros Hwf Hr Hq Hrtail Horphans Hrest Hfuel Hturns.
    assert (Hgroups : Forall group_wf groups).
    { assert (Hrecords : Forall record_wf (orphans ++ concat (group_records <$> groups))).
      { destruct Hr as (recordss & Hfiles & Hself).
        assert (Hall : Forall record_wf (concat recordss)).
        { clear -Hfiles. induction Hfiles as [|? ? ? ? (data & _ & Hp) _ IH]; [done|].
          cbn [concat]. apply Forall_app. split; [by eapply parses_wf|done]. }
        destruct (SpoolRecordReader.fileobj _) as [f|].
        - destruct Hself as (_ & records0 & Hp & ->). apply Forall_app.
          split; [by eapply parses_wf|done].
        - by rewrite Hself. }
      apply Forall_app in Hrecords as [_ Hrecords].
      clear -Hrecords Hrest. induction Hrest as [|g groups Hg _ IH]; [done|].
      rewrite fmap_cons in Hrecords. cbn [concat] in Hrecords.
      apply Forall_app in Hrecords as [Hhead Hrecords].
      apply Forall_cons in Hhead as [Hd _]. constructor; [done|by apply IH]. }
    destruct groups as [|g groups].
    + exists self. split; [done|]. rewrite app_nil_r in Hr, Hturns. split.
      * intros Htail n.
        by apply (spool_event_run_exhausted fuel polls turns n self orphans).
      * intros Htail turns'.
        by apply (spool_event_waits fuel polls turns' self orphans).
    + apply Forall_cons in Hgroups as [[Hd Hg] Hgroups].
      destruct (spool_event_run_from fuel polls turns groups (group_event g) _ self
                  Hwf Hr Hrtail) as (self' & Hrun & Hr' & Hq' & Htail' & Hs');
        [|apply completed_truthy|done|done|done|..].
      * rewrite Hq, next_event_orphans by done.
        rewrite fmap_cons. cbn [concat]. unfold group_records at 1.
        rewrite <- app_comm_cons. cbn [next_event Aggregator.add isinstance_Event app].
        cbn [truthy_opt]. rewrite (next_event_inflight g.1 [] g.2 groups) by done.
        by destruct g.
      * rewrite length_app, fmap_cons in Hturns. cbn [concat] in Hturns.
        rewrite length_app in Hturns. lia.
      * exists self'. split.
        { etrans; [exact Hrun|]. do 2 f_equal. rewrite !fmap_cons. f_equal.
          by rewrite <- list_fmap_compose. }
        assert (Hrtail' : SpoolRecordReader.tail (SpoolEventReader.reader self') = false)
          by (by rewrite (same_settings_tail _ _ Hs')).
        assert (Hfuel' : (length (get_filenames (SpoolEventReader.reader self')) < fuel)%nat)
          by (by rewrite (same_settings_get_filenames _ _ Hs')).
        split.
        -- intros Htail n.
           apply (spool_event_run_exhausted fuel polls turns n self' []); try done.
           ++ congruence.
           ++ cbn [length]. lia.
        -- intros Htail turns'.
           apply (spool_event_waits fuel polls turns' self' []); try done. congruence.
Qed.

(** X17.  The cursor of a [SpoolEventReader] leaves out the event in
    flight.  [next] returns an event once it has read the event that
    follows it, which it keeps in the queue.  [tell] then gives the
    position behind the record of that following event, and a reader made
    from this cursor is the record reader as it stands with an empty
    queue: it goes on with the records behind the event in flight, which
    the reader that was asked for the cursor still returns, flushed or
    completed by the next event. *)
Theorem SpoolEventReader_cursor (self : SpoolEventReader.t) (d e : gmap string value)
    (pre post rest : list record) (fuel polls turns : nat) :
  wf_dir fs →
  spool_inv fs (SpoolEventReader.reader self) →
  spool_parses fnmatch fs (SpoolEventReader.reader self) (post ++ Event e :: rest) →
  SpoolRecordReader.tail (SpoolEventReader.reader self) = false →
  SpoolEventReader.aggregator self = Event d :: pre →
  Event_wf d → Forall (λ r, isinstance_Event r = false) (pre ++ post) →
  (length (get_filenames (SpoolEventReader.reader self)) < fuel)%nat →
  (length (post ++ Event e :: rest) < turns)%nat →
  ∃ reader' trace filename offset trace',
    event_next fuel (S polls) turns self
    = Some (Ok (Some (group_event (d, pre ++ post))),
            SpoolEventReader.mk reader' (SpoolEventReader.tail self) [Event e], trace) ∧
    spool_parses fnmatch fs reader' rest ∧
    SpoolEventReader.tell
      (SpoolEventReader.mk reader' (SpoolEventReader.tail self) [Event e])
    = Ok (filename, offset) ∧
    SpoolEventReader.__init__ fs (SpoolRecordReader.directory reader')
      (SpoolRecordReader.prefix reader') filename offset (SpoolEventReader.tail self)
      (SpoolRecordReader.rollover_hook reader')
    = (Ok (SpoolEventReader.mk reader' (SpoolEventReader.tail self) []), trace').
Proof.
  intros Hwf Hinv Hr Hrtail Hq Hd Hrest Hfuel Hturns.
  assert (Hnext : next_event (post ++ Event e :: rest) (Event d :: pre)
                  = (Ok (Some (group_event (d, pre ++ post))), rest, [Event e])).
  { pose proof Hrest as Hrest'. apply Forall_app in Hrest' as [_ Hpost].
    rewrite next_event_followers by done. cbn [next_event].
    unfold Aggregator.add. cbn [isinstance_Event]. rewrite flush_completed by done.
    cbn [truthy_opt]. by rewrite completed_truthy. }
  destruct (spool_event_next_parses fuel polls turns self _ Hwf Hr Hrtail Hfuel Hturns)
    as (reader' & trace & Hnext' & Hr' & Hs & Hinv').
  { rewrite Hq, Hnext. right. apply completed_truthy. }
  rewrite Hq, Hnext in Hnext', Hr'. cbn [fst snd] in Hnext', Hr'.
  destruct (init_tell fs reader' (Hinv' Hinv)) as (filename & offset & trace' & Htell & Hinit).
  exists reader', trace, filename, offset, trace'.
  split; [done|]. split; [done|]. split; [done|].
  unfold SpoolEventReader.__init__.
  assert (Htail' : SpoolRecordReader.tail reader' = false)
    by (by rewrite (same_settings_tail _ _ Hs)).
  rewrite Htail' in Hinit. by rewrite Hinit.
Qed.

(** ** [SpoolRecordReader.__init__] *)

(** X12.  What [__init__] does with the cursor it is given, over a
    directory that holds regular files only.  Without a file name or with
    an empty one no file is opened and the offset is not looked at; so it
    is with a name whose base name names nothing in the directory: the
    reader will start with the first matching file.  A name whose base
    name is empty, ["."] or [".."] names a path that exists and is no
    file: [open] is called and raises [IOError], so that no reader is
    made.  With a name whose base name names a file of the directory,
    that file is opened, whatever directory the name was given with, the
    hook is called as for a first file, and the file is put at the
    offset; without an offset that last step raises [TypeError], after the
    file was opened and the hook called. *)
Theorem SpoolRecordReader_init (directory prefix : string) (tail rollover_hook : bool) :
  let closed_reader := SpoolRecordReader.mk directory prefix tail rollover_hook None in
  (∀ init_offset,
     SpoolRecordReader.__init__ fs directory prefix None init_offset tail rollover_hook
     = (Ok closed_reader, []) ∧
     SpoolRecordReader.__init__ fs directory prefix (Some "") init_offset tail
       rollover_hook
     = (Ok closed_reader, [])) ∧
  (∀ filename init_offset,
     basename filename ∉ [""; "."; ".."] → fs !! basename filename = None →
     SpoolRecordReader.__init__ fs directory prefix (Some filename) init_offset tail
       rollover_hook
     = (Ok closed_reader, [])) ∧
  (∀ filename init_offset,
     filename ≠ "" →
     basename filename ∈ [""; "."; ".."] → fs !! basename filename = None →
     SpoolRecordReader.__init__ fs directory prefix (Some filename) init_offset tail
       rollover_hook
     = (Raise IOError, [])) ∧
  (∀ filename data,
     basename filename ∉ [""; "."; ".."] → fs !! basename filename = Some data →
     let path := join directory (basename filename) in
     let opened :=
       Opened path :: if rollover_hook then [Rollover None path] else [] in
     (∀ offset,
        SpoolRecordReader.__init__ fs directory prefix (Some filename) (Some offset)
          tail rollover_hook
        = (Ok (SpoolRecordReader.mk directory prefix tail rollover_hook
                 (Some (File.mk path data offset false))), opened)) ∧
     SpoolRecordReader.__init__ fs directory prefix (Some filename) None tail
       rollover_hook
     = (Raise TypeError, opened)).
Proof.
  intros closed_reader. split; [done|]. split; [|split].
  - intros filename init_offset Hother Hnone.
    unfold SpoolRecordReader.__init__, SpoolRecordReader.exists_in.
    rewrite Hnone. rewrite bool_decide_eq_false_2 by (by intros []).
    rewrite bool_decide_eq_false_2 by done. by rewrite andb_false_r.
  - intros filename init_offset Hname Hother Hnone.
    unfold SpoolRecordReader.__init__, SpoolRecordReader.exists_in.
    unfold truthy_str. rewrite (bool_decide_eq_false_2 (filename = "")) by done.
    rewrite (bool_decide_eq_true_2 (basename filename ∈ _)) by done.
    rewrite orb_true_r. cbn [negb andb].
    unfold SpoolRecordReader.open_file, SpoolRecordReader.open_in.
    cbn [SpoolRecordReader.fileobj SpoolRecordReader.set_fileobj
         SpoolRecordReader.directory fmap option_fmap option_map from_option].
    by rewrite Hnone.
  - intros filename data Hother Hdata path opened.
    assert (Hname : filename ≠ "").
    { intros ->. apply Hother. apply list_elem_of_here. }
    assert (Hexists : truthy_str filename
                      && SpoolRecordReader.exists_in fs (basename filename) = true).
    { unfold truthy_str, SpoolRecordReader.exists_in.
      rewrite (bool_decide_eq_false_2 (filename = "")) by done.
      by rewrite (bool_decide_eq_true_2 (is_Some _)) by (by eexists). }
    unfold SpoolRecordReader.__init__. rewrite Hexists.
    unfold SpoolRecordReader.open_file, SpoolRecordReader.open_in.
    cbn [SpoolRecordReader.fileobj SpoolRecordReader.set_fileobj
         SpoolRecordReader.directory SpoolRecordReader.rollover_hook
         fmap option_fmap option_map from_option].
    rewrite Hdata. cbn [SpoolRecordReader.fileobj File.name app].
    by split.
Qed.

(** ** [SpoolRecordReader.open_file] on a name that names no file *)

(** X13.  [open_file] closes the file being read before it opens the new
    one.  When the new name names no file of the directory, it raises
    [IOError] and calls no hook; the reader is left with the file it was
    reading, closed, so that [tell], [_next] and [next] raise
    [ValueError] from then on. *)
Theorem SpoolRecordReader_open_file_missing (self : SpoolRecordReader.t)
    (filename : string) (f : File.t) :
  SpoolRecordReader.fileobj self = Some f →
  fs !! basename filename = None →
  let self' := set_fileobj (Some (File.close f)) self in
  SpoolRecordReader.open_file fs filename self
  = (Raise IOError, self', [Closed (File.name f)]) ∧
  SpoolRecordReader.tell self' = Raise ValueError ∧
  (∀ fuel, _next fuel self' = Some (Raise ValueError, self', [])) ∧
  (∀ fuel polls, next fuel (S polls) self' = Some (Raise ValueError, self', [])).
Proof.
  intros Hf Hnone self'.
  assert (Hnext : ∀ fuel, _next fuel self' = Some (Raise ValueError, self', [])).
  { intros fuel. unfold SpoolRecordReader._next, SpoolRecordReader.read.
    cbn [SpoolRecordReader.fileobj self' SpoolRecordReader.set_fileobj].
    rewrite RecordReader_next, read_record_closed by done.
    cbn [SpoolRecordReader.on_read]. done. }
  split; [|split; [done|split; [done|]]].
  - unfold SpoolRecordReader.open_file, SpoolRecordReader.open_in.
    rewrite Hf. cbn [fmap option_fmap option_map from_option SpoolRecordReader.directory
                     SpoolRecordReader.set_fileobj].
    by rewrite Hnone.
  - intros fuel polls. cbn [SpoolRecordReader.next]. by rewrite Hnext.
Qed.

End MoreSpool.


Lemma SpoolRecordReader_next_tail_witness :
  let f := File.set_pos 11 (fresh_file sample_spool "spool" "u2.3") in
  let self := SpoolRecordReader.mk "spool" "u2." true false (Some f) in
  SpoolRecordReader.tail self = true ∧
  SpoolRecordReader._next false fnmatch_prefix sample_spool 4 self
  = Some (Ok None, self, []) ∧
  SpoolRecordReader.next false fnmatch_prefix sample_spool 4 1000 self = None.
Proof.
  intros f self.
  assert (Hnext : SpoolRecordReader._next false fnmatch_prefix sample_spool 4 self
                  = Some (Ok None, self, [])) by (vm_compute; reflexivity).
  split; [reflexivity|]. split; [exact Hnext|].
  exact (proj2 (proj2 (SpoolRecordReader_next_tail false fnmatch_prefix sample_spool
                         self 4)) eq_refl [] Hnext 1000%nat).
Defined.


Lemma wf_rotating_spool : wf_dir rotating_spool.
Proof. apply wf_dir_Forall. compute_done. Defined.

Lemma wf_event_spool : wf_dir event_spool.
Proof. apply wf_dir_Forall. compute_done. Defined.

Lemma parses_one record_type payload rcd :
  0 ≤ record_type < 2 ^ 32 → Z.of_nat (length payload) < 2 ^ 32 →
  decode_record record_type payload = Ok rcd →
  parses (build_record record_type payload) [rcd].
Proof.
  intros Ht Hl Hdec. rewrite <- (app_nil_r (build_record record_type payload)).
  apply parses_cons; [done..|apply parses_nil].
Defined.

Lemma SpoolRecordReader_stream_witness :
  let self := SpoolRecordReader.mk "spool" "u2." false false None in
  ∃ self',
    SpoolRecordReader.run false fnmatch_prefix rotating_spool 3 1 5 self
    = Some ([Ok (Some (Unknown 1 [x01])); Ok (Some (Unknown 1 [x02]));
             Ok (Some (Unknown 1 [x03])); Ok None; Ok None], self').
Proof.
  intros self.
  set (records := [Unknown 1 [x01]; Unknown 1 [x02]; Unknown 1 [x03]]).
  destruct (SpoolRecordReader_stream false fnmatch_prefix rotating_spool self records
              3 0 5 wf_rotating_spool eq_refl) as [Hfresh Hrun];
    [vm_compute; lia|].
  assert (Hself : spool_parses fnmatch_prefix rotating_spool self records).
  { apply (Hfresh eq_refl [[Unknown 1 [x01]; Unknown 1 [x02]]; [Unknown 1 [x03]]]).
    change (SpoolRecordReader.get_filenames fnmatch_prefix rotating_spool self)
      with ["u2.1"; "u2.2"].
    constructor; [|constructor; [|constructor]].
    - exists (build_record 1 [x01] ++ build_record 1 [x02]). split; [reflexivity|].
      apply parses_cons; [lia|by vm_compute|reflexivity|].
      apply parses_one; [lia|by vm_compute|reflexivity].
    - exists (build_record 1 [x03]). split; [reflexivity|].
      apply parses_one; [lia|by vm_compute|reflexivity]. }
  destruct (Hrun Hself) as (self' & Hrun' & _). exists self'. exact Hrun'.
Defined.

Lemma decode_event_record b : ∃ d, decode_record 7 (replicate 52 b) = Ok (Event d).
Proof.
  rewrite (decode_event_sized EVENT EVENT_FIELDS _ _ eq_refl eq_refl). by eexists.
Defined.

Lemma decode_packet_record b :
  ∃ p, decode_record 2 (replicate 28 x00 ++ [b]) = Ok (Packet p).
Proof.
  rewrite (decode_rest_sized PACKET PacketDecoder PACKET_FIELDS _ _ eq_refl) by done.
  by eexists.
Defined.

Lemma parses_event_record b d :
  decode_record 7 (replicate 52 b) = Ok (Event d) →
  ∀ data records, parses data records →
                  parses (event_record b ++ data) (Event d :: records).
Proof. intros Hd data records. by apply parses_cons; [lia|by vm_compute|]. Defined.

Lemma parses_packet_record b p :
  decode_record 2 (replicate 28 x00 ++ [b]) = Ok (Packet p) →
  ∀ data records, parses data records →
                  parses (packet_record b ++ data) (Packet p :: records).
Proof. intros Hd data records. by apply parses_cons; [lia|by vm_compute|]. Defined.

Lemma SpoolEventReader_events_witness :
  ∃ self self' d1 d2 p1 p2,
    SpoolEventReader.__init__ event_spool "spool" "u2." None None true false
    = (Ok self, []) ∧
    SpoolEventReader.run false fnmatch_prefix event_spool 3 1 6 2 self
    = Some ([Ok (Some (group_event (d1, [Packet p1])));
             Ok (Some (group_event (d2, [Packet p2])))], self') ∧
    SpoolEventReader.next false fnmatch_prefix event_spool 3 1 50 self' = None.
Proof.
  destruct (decode_event_record x01) as [d1 Hd1], (decode_event_record x02) as [d2 Hd2].
  destruct (decode_packet_record x09) as [p0 Hp0], (decode_packet_record x0a) as [p1 Hp1],
    (decode_packet_record x0b) as [p2 Hp2].
  set (self := SpoolEventReader.mk (SpoolRecordReader.mk "spool" "u2." false false None)
                 true []).
  set (groups := [(d1, [Packet p1]); (d2, [Packet p2])] : list group).
  assert (Hself : spool_parses fnmatch_prefix event_spool (SpoolEventReader.reader self)
                    ([Packet p0] ++ concat (group_records <$> groups))).
  { exists [[Packet p0; Event d1; Packet p1; Event d2]; [Packet p2]].
    split; [|reflexivity].
    change (pending fnmatch_prefix event_spool (SpoolEventReader.reader self))
      with ["u2.1"; "u2.2"].
    constructor; [|constructor; [|constructor]].
    - eexists. split; [reflexivity|].
      apply parses_packet_record; [done|]. apply parses_event_record; [done|].
      apply parses_packet_record; [done|].
      rewrite <- (app_nil_r (event_record x02)).
      apply parses_event_record; [done|apply parses_nil].
    - eexists. split; [reflexivity|].
      rewrite <- (app_nil_r (packet_record x0b)).
      apply parses_packet_record; [done|apply parses_nil]. }
  destruct (proj2 (SpoolEventReader_events false fnmatch_prefix event_spool self
                     [Packet p0] groups 3 0 6) wf_event_spool Hself eq_refl eq_refl)
    as (self' & Hrun & _ & Hwaits);
    [by repeat constructor|by repeat constructor|vm_compute; lia|simpl; lia|].
  exists self, self', d1, d2, p1, p2.
  split; [reflexivity|]. split; [exact Hrun|]. exact (Hwaits eq_refl 50%nat).
Defined.

Lemma SpoolEventReader_cursor_witness :
  let f := File.set_pos 97 (fresh_file event_spool "spool" "u2.1") in
  let reader := SpoolRecordReader.mk "spool" "u2." false false (Some f) in
  ∃ d1 d2 p1 p2 reader' trace filename offset trace',
    decode_record 7 (replicate 52 x01) = Ok (Event d1) ∧
    decode_record 7 (replicate 52 x02) = Ok (Event d2) ∧
    SpoolEventReader.next false fnmatch_prefix event_spool 3 1 4
      (SpoolEventReader.mk reader false [Event d1])
    = Some (Ok (Some (group_event (d1, [Packet p1]))),
            SpoolEventReader.mk reader' false [Event d2], trace) ∧
    spool_parses fnmatch_prefix event_spool reader' [Packet p2] ∧
    SpoolEventReader.tell (SpoolEventReader.mk reader' false [Event d2])
    = Ok (filename, offset) ∧
    SpoolEventReader.__init__ event_spool (SpoolRecordReader.directory reader')
      (SpoolRecordReader.prefix reader') filename offset false
      (SpoolRecordReader.rollover_hook reader')
    = (Ok (SpoolEventReader.mk reader' false []), trace').
Proof.
  intros f reader.
  destruct (decode_event_record x01) as [d1 Hd1], (decode_event_record x02) as [d2 Hd2].
  destruct (decode_packet_record x0a) as [p1 Hp1], (decode_packet_record x0b) as [p2 Hp2].
  set (self := SpoolEventReader.mk reader false [Event d1]).
  assert (Hinv : spool_inv event_spool (SpoolEventReader.reader self)).
  { intros f' [= <-]. split; [reflexivity|]. by exists "u2.1". }
  assert (Hself : spool_parses fnmatch_prefix event_spool (SpoolEventReader.reader self)
                    ([Packet p1] ++ Event d2 :: [Packet p2])).
  { exists [[Packet p2]].
    change (pending fnmatch_prefix event_spool (SpoolEventReader.reader self))
      with ["u2.2"].
    split.
    - constructor; [|constructor]. eexists. split; [reflexivity|].
      rewrite <- (app_nil_r (packet_record x0b)).
      apply parses_packet_record; [done|apply parses_nil].
    - split; [reflexivity|]. exists [Packet p1; Event d2]. split; [|reflexivity].
      change (File.available f) with (packet_record x0a ++ event_record x02).
      apply parses_packet_record; [done|].
      rewrite <- (app_nil_r (event_record x02)).
      apply parses_event_record; [done|apply parses_nil]. }
  pose proof (decode_record_wf _ _ _ Hd1) as Hwf1. cbn [record_wf] in Hwf1.
  destruct (SpoolEventReader_cursor false fnmatch_prefix event_spool self d1 d2
              [] [Packet p1] [Packet p2] 3 0 4 wf_event_spool Hinv Hself eq_refl eq_refl
              Hwf1)
    as (reader' & trace & filename & offset & trace' & Hnext & Hr' & Htell & Hinit);
    [by repeat constructor|vm_compute; lia|simpl; lia|].
  exists d1, d2, p1, p2, reader', trace, filename, offset, trace'.
  split; [exact Hd1|]. split; [exact Hd2|]. split; [exact Hnext|]. split; [exact Hr'|].
  split; [exact Htell|exact Hinit].
Defined.

Lemma SpoolRecordReader_init_witness :
  SpoolRecordReader.__init__ sample_spool "spool" "u2." (Some "/var/log/u2.3") (Some 9%nat)
    false true
  = (Ok (SpoolRecordReader.mk "spool" "u2." false true
           (Some (File.mk "spool/u2.3" (build_record 1 [x02] ++ [x00; x00]) 9 false))),
     [Opened "spool/u2.3"; Rollover None "spool/u2.3"]) ∧
  SpoolRecordReader.__init__ sample_spool "spool" "u2." (Some "spool/u2.9") (Some 9%nat)
    false true
  = (Ok (SpoolRecordReader.mk "spool" "u2." false true None), []) ∧
  SpoolRecordReader.__init__ sample_spool "spool" "u2." (Some ".") (Some 9%nat)
    false true
  = (Raise IOError, []).
Proof.
  destruct (SpoolRecordReader_init sample_spool "spool" "u2." false true)
    as (_ & Hmissing & Hother & Hfound).
  split; [|split].
  - apply (proj1 (Hfound "/var/log/u2.3" (build_record 1 [x02] ++ [x00; x00])
                    ltac:(compute_done) eq_refl) 9%nat).
  - apply (Hmissing "spool/u2.9" (Some 9%nat)); [compute_done|reflexivity].
  - apply (Hother "." (Some 9%nat)); [done|compute_done|reflexivity].
Defined.

Lemma SpoolRecordReader_open_file_missing_witness :
  let f := fresh_file sample_spool "spool" "u2.1" in
  let self := SpoolRecordReader.mk "spool" "u2." false true (Some f) in
  let self' := SpoolRecordReader.set_fileobj (Some (File.close f)) self in
  SpoolRecordReader.open_file sample_spool "u2.7" self
  = (Raise IOError, self', [Closed "spool/u2.1"]) ∧
  SpoolRecordReader.tell self' = Raise ValueError.
Proof.
  intros f self self'.
  destruct (SpoolRecordReader_open_file_missing false fnmatch_prefix sample_spool self
              "u2.7" f eq_refl eq_refl) as (Hopen & Htell & _).
  split; [exact Hopen|exact Htell].
Defined.

